(** * nebula-bridge: the extract-and-cache layer

    A shallow embedding of [app/extract/api_client.py] (the two-tier cache
    orchestrator [cached_get], the gated batch fetcher [parallel_cached_get],
    the OData single-key helpers) and of the pagination walker of
    [app/etl.py], with the properties of the layer proved over it; then
    of the code around the layer: the film search and the film filter of
    [run_etl], the Wookiee encoding, the selection of characters and the
    team salaries of [app/main.py].

    Layout: values and Python helpers; the world (process-local cache,
    shared cache, event log) and its monad; the sequential operations; the
    task machine for interleaved executions; the code around the layer;
    the vocabulary of the statements; then the theorems. *)

From Stdlib Require Import ZArith QArith Qabs Lqa Lia Ascii String List.
From stdpp Require Import gmap strings list pretty.

Set Warnings "-register-all".

Local Open Scope string_scope.
Local Open Scope list_scope.

(** ** Decoded JSON values

    What [json.loads] and [response.json()] hand to the program.  A number
    is the value of a Python [int] or of a finite [float], a rational. *)

Inductive JSON : Type :=
| JNull
| JBool (b : bool)
| JNum (q : Q)
| JStr (s : string)
| JArr (items : list JSON)
| JObj (fields : list (string * JSON)).

(** Python exceptions that can leave the functions of the layer. *)
Inductive exn : Type :=
| ConnectionError                 (* raised by get_redis *)
| RedisError (what : string)      (* raised by a redis command *)
| ClientResponseError (status : Z)(* fetch_data: HTTP status outside 2xx *)
| ClientError (what : string)     (* fetch_data: any other failure *)
| AttributeError
| TypeError
| IndexError
| OverflowError.                  (* an [int] too large for a [float] *)

Inductive result (A : Type) : Type :=
| Ok (a : A)
| Raise (e : exn).
Arguments Ok {A} a.
Arguments Raise {A} e.

(** What a subtraction of floats gives from finite operands: a finite
    float, or an infinity when the difference lies beyond the range. *)
Inductive float : Type :=
| Finite (q : Q)
| Infinite (positive : bool).

(** The library functions the layer calls on values: the [json] codec,
    [str()] as used by f-strings on values that are not strings, and the
    subtraction of floating-point arithmetic.

    [float_sub a b] is [a - b] as the interpreter computes it for a finite
    float [a] and a number [b].  An [int] is first converted to the
    nearest float, which fails with [OverflowError] ([None]) when the
    [int] lies beyond the range of floats, so not up to [2^1023]
    ([float_sub_converts]).  The difference is then rounded to the nearest
    float, which is an infinity only beyond the range
    ([float_sub_finite]).  Each of the two roundings is off by at most
    [2^-53] of the value rounded, which gives the bound [float_sub_near]
    on a finite result. *)
Class Python := {
  json_loads : string -> option JSON;   (* None: JSONDecodeError *)
  json_dumps : JSON -> string;
  py_repr : JSON -> string;
  float_sub : Q -> Q -> option float;   (* None: OverflowError *)
  json_loads_empty : json_loads EmptyString = None;
  float_sub_converts :
    forall a b,
      (Qabs b <= inject_Z (2 ^ 1023))%Q -> float_sub a b <> None;
  float_sub_finite :
    forall a b positive,
      float_sub a b = Some (Infinite positive) ->
      (inject_Z (2 ^ 1023) <= Qabs a + Qabs b)%Q;
  float_sub_near :
    forall a b d,
      float_sub a b = Some (Finite d) ->
      (Qabs (d - (a - b)) <= (1 # 2251799813685248) * (Qabs a + Qabs b))%Q
}.

Module Py.

(** [bool(x)] *)
Definition truthy (j : JSON) : bool :=
  match j with
  | JNull => false
  | JBool b => b
  | JNum q => negb (Qeq_bool q 0)
  | JStr s => match s with EmptyString => false | String _ _ => true end
  | JArr items => match items with [] => false | _ :: _ => true end
  | JObj fields => match fields with [] => false | _ :: _ => true end
  end.

(** truth value of a [str] *)
Definition nonempty (s : string) : bool :=
  match s with EmptyString => false | String _ _ => true end.

(** [f"{x}"] *)
Definition str `{Python} (j : JSON) : string :=
  match j with JStr s => s | _ => py_repr j end.

Fixpoint assoc (k : string) (fields : list (string * JSON)) : option JSON :=
  match fields with
  | [] => None
  | (k', v) :: rest => if String.eqb k k' then Some v else assoc k rest
  end.

(** [x.get(k, default)]: only a dict has [get]. *)
Definition get (j : JSON) (k : string) (default : JSON) : result JSON :=
  match j with
  | JObj fields => Ok (match assoc k fields with Some v => v | None => default end)
  | _ => Raise AttributeError
  end.

Fixpoint chars (s : string) : list JSON :=
  match s with
  | EmptyString => []
  | String a rest => JStr (String a EmptyString) :: chars rest
  end.

(** what [list.extend(x)] appends: the elements of a list, the characters
    of a string, the keys of a dict; anything else is not iterable. *)
Definition iter (j : JSON) : result (list JSON) :=
  match j with
  | JArr items => Ok items
  | JStr s => Ok (chars s)
  | JObj fields => Ok (map (fun kv => JStr (fst kv)) fields)
  | _ => Raise TypeError
  end.

(** [t - x] for a float [t]: numbers, and booleans as 0 and 1, in
    floating-point arithmetic. *)
Definition sub_from `{Python} (t : Q) (j : JSON) : result float :=
  match j with
  | JNum q =>
      match float_sub t q with
      | Some d => Ok d
      | None => Raise OverflowError
      end
  | JBool b =>
      match float_sub t (if b then 1 else 0)%Q with
      | Some d => Ok d
      | None => Raise OverflowError
      end
  | _ => Raise TypeError
  end.

(** [s.rstrip(c)] for a one-character [c] *)
Fixpoint rstrip (c : ascii) (s : string) : string :=
  match s with
  | EmptyString => EmptyString
  | String a rest =>
      let r := rstrip c rest in
      if Ascii.eqb a c && negb (nonempty r) then EmptyString else String a r
  end.

(** [s.split(c)] for a one-character [c]: never the empty list *)
Fixpoint split (c : ascii) (s : string) : list string :=
  match s with
  | EmptyString => [EmptyString]
  | String a rest =>
      if Ascii.eqb a c then EmptyString :: split c rest
      else match split c rest with
           | piece :: pieces => String a piece :: pieces
           | [] => [String a EmptyString]
           end
  end.

(** [c.join(pieces)] *)
Fixpoint join (c : string) (pieces : list string) : string :=
  match pieces with
  | [] => EmptyString
  | [p] => p
  | p :: rest => p +:+ c +:+ join c rest
  end.

(** [l[-1]] and [l[-2]] *)
Definition last1 (l : list string) : result string :=
  match last l with
  | Some x => Ok x
  | None => Raise IndexError
  end.

Definition last2 (l : list string) : result string :=
  match rev l with
  | _ :: x :: _ => Ok x
  | _ => Raise IndexError
  end.

End Py.

Definition slash : ascii := "/"%char.

(** ** The world

    [inproc] is [_INPROC_CACHE]; [redis] is the content of the shared
    store; [log] records, in order, every entry into [cached_get] and every
    operation that leaves the process. *)

Inductive event : Type :=
| ECachedGet (cache_key : string) (url : JSON)
| EConnect
| ERedisGet (key : string)
| ERedisSet (key value : string) (ttl : Z)
| EFetch (url : JSON).

Record World : Type := mkWorld {
  inproc : gmap string JSON;
  redis : gmap string string;
  log : list event
}.

(** How everything outside the process answers, as a function of what has
    happened so far.  [redis_reachable] is whether [from_url] hands back a
    client; the client opens its connection with its first command, so a
    server that cannot be reached shows in [redis_get_fault] and
    [redis_set_fault]. *)
Record Env : Type := mkEnv {
  redis_reachable : list event -> bool;
  redis_get_fault : list event -> string -> option exn;
  redis_set_fault : list event -> string -> option exn;
  http_get : list event -> JSON -> result JSON;
  clock : list event -> Q
}.

Definition is_fetch (e : event) : bool :=
  match e with EFetch _ => true | _ => false end.

Definition is_call (e : event) : bool :=
  match e with ECachedGet _ _ => true | _ => false end.

(** leaves the process: shared-cache round trip or HTTP *)
Definition is_io (e : event) : bool :=
  match e with ECachedGet _ _ => false | _ => true end.

Definition is_redis_get (e : event) : bool :=
  match e with ERedisGet _ => true | _ => false end.

Definition fetches (l : list event) : nat := length (filter is_fetch l).

(** ** State-and-exception monad *)

Definition M (A : Type) : Type := World -> result A * World.

Definition ret {A} (a : A) : M A := fun w => (Ok a, w).
Definition throw {A} (e : exn) : M A := fun w => (Raise e, w).
Definition bind {A B} (m : M A) (f : A -> M B) : M B :=
  fun w => match m w with
           | (Ok a, w') => f a w'
           | (Raise e, w') => (Raise e, w')
           end.
Definition lift {A} (r : result A) : M A := fun w => (r, w).

(** [try: m  except Exception: h] *)
Definition try_except {A} (m : M A) (h : exn -> M A) : M A :=
  fun w => match m w with
           | (Ok a, w') => (Ok a, w')
           | (Raise e, w') => h e w'
           end.

Notation "x <- m ;; k" := (bind m (fun x => k))
  (at level 100, m at next level, right associativity).
Notation "m ;;; k" := (bind m (fun _ => k))
  (at level 100, right associativity).

Definition emit (e : event) (w : World) : World :=
  mkWorld (inproc w) (redis w) (log w ++ [e]).

Definition note (e : event) : M unit := fun w => (Ok tt, emit e w).

(** [_INPROC_CACHE[k]] guarded by [k in _INPROC_CACHE] *)
Definition inproc_lookup (k : string) : M (option JSON) :=
  fun w => (Ok (inproc w !! k), w).

(** [_INPROC_CACHE[k] = v] *)
Definition set_inproc (k : string) (v : JSON) : M unit :=
  fun w => (Ok tt, mkWorld (<[k := v]> (inproc w)) (redis w) (log w)).

(** [a > b] on numbers *)
Definition Qgtb (a b : Q) : bool := negb (Qle_bool a b).

(** [x > n] for a float [x] and an [int] [n]: Python compares the two
    values exactly *)
Definition float_gt (x : float) (n : Z) : bool :=
  match x with
  | Finite q => Qgtb q (inject_Z n)
  | Infinite positive => positive
  end.

Section Layer.

Context `{Python}.
Variable E : Env.

(** [get_redis]: any failure of [from_url] becomes [ConnectionError]. *)
Definition get_redis : M unit :=
  fun w => (if redis_reachable E (log w) then Ok tt else Raise ConnectionError,
            emit EConnect w).

(** [redis_client.get(key)] *)
Definition redis_get (key : string) : M (option string) :=
  fun w => (match redis_get_fault E (log w) key with
            | Some e => Raise e
            | None => Ok (redis w !! key)
            end, emit (ERedisGet key) w).

(** [redis_client.set(key, value, ex=ttl)].  A [set] the server refuses
    (as it does a ttl that is not positive) is a case of
    [redis_set_fault].  An accepted one writes the entry; that the server
    drops it once [ttl] seconds have passed is no step of this call: it is
    the move [Expire] of the task machine, and [lapsed] between two calls
    made in sequence. *)
Definition redis_set (key value : string) (ttl : Z) : M unit :=
  fun w => match redis_set_fault E (log w) key with
           | Some e => (Raise e, emit (ERedisSet key value ttl) w)
           | None =>
               (Ok tt, emit (ERedisSet key value ttl)
                         (mkWorld (inproc w) (<[key := value]> (redis w)) (log w)))
           end.

(** [fetch_data]: both handlers log and re-raise.  Query parameters and
    headers only travel to the server; its answer is [http_get]. *)
Definition fetch_data (url : JSON) : M JSON :=
  fun w => (http_get E (log w) url, emit (EFetch url) w).

(** [time.time()] *)
Definition time : M Q := fun w => (Ok (clock E (log w)), w).

(** [if cached: try json.loads(cached) except JSONDecodeError]: the shared
    copy when it can be used, [None] when control falls through. *)
Definition usable (cached : option string) : option JSON :=
  match cached with
  | Some raw => if Py.nonempty raw then json_loads raw else None
  | None => None
  end.

(** [cached_get(cache_key, url, ttl=ttl)] *)
Definition cached_get (cache_key : string) (url : JSON) (ttl : Z) : M JSON :=
  note (ECachedGet cache_key url) ;;;
  hit <- inproc_lookup cache_key ;;
  match hit with
  | Some v => ret v
  | None =>
      get_redis ;;;
      cached <- redis_get cache_key ;;
      match usable cached with
      | Some data =>
          set_inproc cache_key data ;;;
          ret data
      | None =>
          data <- fetch_data url ;;
          try_except (redis_set cache_key (json_dumps data) ttl)
                     (fun _ => ret tt) ;;;
          set_inproc cache_key data ;;;
          ret data
      end
  end.

(** *** Batch fetcher, one URL ([fetch_single]) *)

Definition last_segment (url : string) : result string :=
  Py.last1 (Py.split slash (Py.rstrip slash url)).

Definition fetch_single_key (cache_key_prefix url : string) : result string :=
  match last_segment url with
  | Ok suffix => Ok (cache_key_prefix +:+ "_" +:+ suffix)
  | Raise e => Raise e
  end.

(** body of [fetch_single] once the gate is passed *)
Definition fetch_single (cache_key_prefix : string) (ttl : Z) (url : string) : M JSON :=
  cache_key <- lift (fetch_single_key cache_key_prefix url) ;;
  cached_get cache_key (JStr url) ttl.

(** *** Pagination walker *)

Definition page_key (next_url : JSON) : string :=
  "vehicles_data_" +:+ Py.str next_url.

(** one turn of the [while next_url:] loop *)
Definition walk_turn (all_results : list JSON) (next_url : JSON)
  : M (list JSON * JSON) :=
  page_data <- cached_get (page_key next_url) next_url 3600 ;;
  page_results <- lift (Py.get page_data "results" (JArr [])) ;;
  more <- lift (Py.iter page_results) ;;
  next <- lift (Py.get page_data "next" JNull) ;;
  ret (all_results ++ more, next).

(** the loop, with a bound on the number of tests of [next_url];
    [None]: the bound was reached with the loop still running *)
Fixpoint walk (fuel : nat) (all_results : list JSON) (next_url : JSON)
  (w : World) : option (result JSON * World) :=
  match fuel with
  | O => None
  | S fuel' =>
      if Py.truthy next_url then
        match walk_turn all_results next_url w with
        | (Ok (acc, next), w') => walk fuel' acc next w'
        | (Raise e, w') => Some (Raise e, w')
        end
      else Some (Ok (JObj [("results", JArr all_results)]), w)
  end.

Definition fetch_vehicles_paginated (fuel : nat) (url : JSON)
  : World -> option (result JSON * World) :=
  walk fuel [] url.

(** *** Pilot batch of [run_etl] (lines 164-178) *)

Definition pilot_id (url : string) : result string :=
  Py.last2 (Py.split slash url).

Fixpoint pilot_ids (pilot_urls : list string) : result (list string) :=
  match pilot_urls with
  | [] => Ok []
  | url :: rest =>
      match pilot_id url with
      | Raise e => Raise e
      | Ok i => match pilot_ids rest with
                | Raise e => Raise e
                | Ok ids => Ok (i :: ids)
                end
      end
  end.

Definition pilots_batch_url (base_url : string) (ids : list string) : string :=
  base_url +:+ "/api/people/?id=" +:+ Py.join "," ids.

Definition pilot_details (base_url : string) (pilot_urls : list string) : M JSON :=
  match pilot_urls with
  | [] => ret (JArr [])
  | _ :: _ =>
      ids <- lift (pilot_ids pilot_urls) ;;
      try_except
        (batch_pilots <- cached_get "pilots_batch"
                           (JStr (pilots_batch_url base_url ids)) 3600 ;;
         lift (Py.get batch_pilots "results" (JArr [])))
        (fun _ => ret (JArr []))
  end.

(** *** OData single-key helpers *)

Definition odata_key (user_id : string) : string := "odata_flight_" +:+ user_id.

Definition cache_odate_response (user_id : string) (response : JSON) (ttl : Z)
  : M unit :=
  get_redis ;;;
  now <- time ;;
  let cache_data := JObj [("timestamp", JNum now); ("response", response)] in
  try_except (redis_set (odata_key user_id) (json_dumps cache_data) ttl)
             (fun _ => ret tt).

(** [cached_time and (time.time() - cached_time > ttl)] *)
Definition expired (cached_time : JSON) (ttl : Z) : M bool :=
  if Py.truthy cached_time then
    now <- time ;;
    age <- lift (Py.sub_from now cached_time) ;;
    ret (float_gt age ttl)
  else ret false.

(** [None] is [JNull]. *)
Definition get_odate_response (user_id : string) (ttl : Z) : M JSON :=
  get_redis ;;;
  cached <- redis_get (odata_key user_id) ;;
  match cached with
  | Some raw =>
      if Py.nonempty raw then
        match json_loads raw with
        | Some cache_data =>
            cached_time <- lift (Py.get cache_data "timestamp" JNull) ;;
            stale <- expired cached_time ttl ;;
            if stale : bool then ret JNull
            else lift (Py.get cache_data "response" JNull)
        | None => ret JNull
        end
      else ret JNull
  | None => ret JNull
  end.

End Layer.

(** ** Interleaved executions

    The event loop runs one task at a time and switches tasks only at an
    [await].  A task is a call of [cached_get], made directly or from
    [fetch_single] behind [SEMAPHORE]; its program counter names the [await]
    it is suspended at.  A step resumes one task with the answer of the
    outside world and runs it to its next [await]. *)

Inductive pc : Type :=
| Waiting                      (* not started; behind the gate: at [async with] *)
| AwaitConnect                 (* [await get_redis()] *)
| AwaitRedisGet                (* [await redis_client.get(cache_key)] *)
| AwaitFetch                   (* [await fetch_data(url, ...)] *)
| AwaitRedisSet (data : JSON)  (* [await redis_client.set(...)] *)
| Finished (r : result JSON)
| Cancelled.

(** [t_owner]: the call of [parallel_cached_get] the task belongs to;
    [None] for a direct call of [cached_get]. *)
Record task : Type := mkTask {
  t_owner : option nat;
  t_key : string;
  t_url : JSON;
  t_ttl : Z;
  t_pc : pc
}.

(** [s_sem] is the value of [SEMAPHORE]; [s_done] lists the tasks in the
    order they completed; [s_batches] counts the calls of
    [parallel_cached_get] so far. *)
Record Sys : Type := mkSys {
  s_inproc : gmap string JSON;
  s_redis : gmap string string;
  s_sem : nat;
  s_tasks : list task;
  s_done : list nat;
  s_batches : nat
}.

Definition GATE_LIMIT : nat := 5.

Definition boot : Sys := mkSys ∅ ∅ GATE_LIMIT [] [] 0.

Inductive sched : Type :=
| Call (cache_key : string) (url : JSON) (ttl : Z)
| Batch (cache_key_prefix : string) (urls : list string) (ttl : Z)
| Start (i : nat)
| Connected (i : nat) (ok : bool)
| RedisGot (i : nat) (fault : option exn)
| Fetched (i : nat) (r : result JSON)
| RedisSetDone (i : nat) (fault : option exn)
| Cancel (i : nat)
| Expire (key : string).

Definition gated (t : task) : bool :=
  match t_owner t with Some _ => true | None => false end.

(** past the process-local check and not yet done; for a gated task:
    between [__aenter__] and [__aexit__] of [async with SEMAPHORE] *)
Definition in_flight (p : pc) : bool :=
  match p with
  | AwaitConnect | AwaitRedisGet | AwaitFetch | AwaitRedisSet _ => true
  | _ => false
  end.

Definition holding (t : task) : bool := gated t && in_flight (t_pc t).

Definition fetching (t : task) : bool :=
  gated t && match t_pc t with AwaitFetch => true | _ => false end.

Definition at_pc (p : pc) (t : task) : task :=
  mkTask (t_owner t) (t_key t) (t_url t) (t_ttl t) p.

Definition failed (t : task) : bool :=
  match t_pc t with Finished (Raise _) => true | _ => false end.

Definition same_owner (t u : task) : bool :=
  match t_owner t, t_owner u with
  | Some a, Some b => Nat.eqb a b
  | _, _ => false
  end.

Fixpoint count (p : task -> bool) (l : list task) : nat :=
  match l with
  | [] => 0
  | t :: rest => (if p t then 1 else 0) + count p rest
  end.

Definition is_finished (p : pc) : bool :=
  match p with Finished _ => true | _ => false end.

(** not yet completed nor cancelled *)
Definition live (p : pc) : bool :=
  match p with Finished _ | Cancelled => false | _ => true end.

Section Machine.

Context `{Python}.

Definition suspend (i : nat) (t : task) (p : pc) (s : Sys) : Sys :=
  mkSys (s_inproc s) (s_redis s) (s_sem s)
        (<[i := at_pc p t]> (s_tasks s)) (s_done s) (s_batches s).

(** the task returns or raises; leaving [async with] frees its slot *)
Definition finish (i : nat) (t : task) (r : result JSON) (s : Sys) : Sys :=
  mkSys (s_inproc s) (s_redis s)
        (if gated t then S (s_sem s) else s_sem s)
        (<[i := at_pc (Finished r) t]> (s_tasks s))
        (s_done s ++ [i]) (s_batches s).

Definition store_inproc (k : string) (v : JSON) (s : Sys) : Sys :=
  mkSys (<[k := v]> (s_inproc s)) (s_redis s) (s_sem s)
        (s_tasks s) (s_done s) (s_batches s).

Definition store_redis (k v : string) (s : Sys) : Sys :=
  mkSys (s_inproc s) (<[k := v]> (s_redis s)) (s_sem s)
        (s_tasks s) (s_done s) (s_batches s).

Definition take_slot (s : Sys) : Sys :=
  mkSys (s_inproc s) (s_redis s) (pred (s_sem s))
        (s_tasks s) (s_done s) (s_batches s).

(** lines 106-109: the process-local check, up to the first [await] *)
Definition begin (i : nat) (t : task) (s : Sys) : Sys :=
  match s_inproc s !! t_key t with
  | Some v => finish i t (Ok v) s
  | None => suspend i t AwaitConnect s
  end.

(** the tasks [parallel_cached_get] hands to [stream.map]: one call of
    [fetch_single] per URL *)
Definition batch_tasks (owner : nat) (cache_key_prefix : string)
  (urls : list string) (ttl : Z) : list task :=
  map (fun url =>
         match fetch_single_key cache_key_prefix url with
         | Ok k => mkTask (Some owner) k (JStr url) ttl Waiting
         | Raise e => mkTask (Some owner) EmptyString (JStr url) ttl Cancelled
         end) urls.

Definition step (ev : sched) (s : Sys) : option Sys :=
  match ev with
  | Call k url ttl =>
      Some (mkSys (s_inproc s) (s_redis s) (s_sem s)
              (s_tasks s ++ [mkTask None k url ttl Waiting])
              (s_done s) (s_batches s))
  | Batch prefix urls ttl =>
      Some (mkSys (s_inproc s) (s_redis s) (s_sem s)
              (s_tasks s ++ batch_tasks (s_batches s) prefix urls ttl)
              (s_done s) (S (s_batches s)))
  | Start i =>
      match s_tasks s !! i with
      | Some t =>
          match t_pc t with
          | Waiting =>
              if gated t then
                match s_sem s with
                | S _ => Some (begin i t (take_slot s))
                | O => None
                end
              else Some (begin i t s)
          | _ => None
          end
      | None => None
      end
  | Connected i ok =>
      match s_tasks s !! i with
      | Some t =>
          match t_pc t with
          | AwaitConnect =>
              Some (if ok then suspend i t AwaitRedisGet s
                    else finish i t (Raise ConnectionError) s)
          | _ => None
          end
      | None => None
      end
  | RedisGot i fault =>
      match s_tasks s !! i with
      | Some t =>
          match t_pc t with
          | AwaitRedisGet =>
              Some (match fault with
                    | Some e => finish i t (Raise e) s
                    | None =>
                        match usable (s_redis s !! t_key t) with
                        | Some data =>
                            finish i t (Ok data) (store_inproc (t_key t) data s)
                        | None => suspend i t AwaitFetch s
                        end
                    end)
          | _ => None
          end
      | None => None
      end
  | Fetched i r =>
      match s_tasks s !! i with
      | Some t =>
          match t_pc t with
          | AwaitFetch =>
              Some (match r with
                    | Ok data => suspend i t (AwaitRedisSet data) s
                    | Raise e => finish i t (Raise e) s
                    end)
          | _ => None
          end
      | None => None
      end
  | RedisSetDone i fault =>
      match s_tasks s !! i with
      | Some t =>
          match t_pc t with
          | AwaitRedisSet data =>
              let s1 := match fault with
                        | Some _ => s
                        | None => store_redis (t_key t) (json_dumps data) s
                        end in
              Some (finish i t (Ok data) (store_inproc (t_key t) data s1))
          | _ => None
          end
      | None => None
      end
  | Cancel i =>
      match s_tasks s !! i with
      | Some t =>
          match t_pc t with
          | Finished _ | Cancelled => None
          | _ =>
              if existsb (fun u => same_owner t u && failed u) (s_tasks s) then
                Some (mkSys (s_inproc s) (s_redis s)
                        (if holding t then S (s_sem s) else s_sem s)
                        (<[i := at_pc Cancelled t]> (s_tasks s))
                        (s_done s) (s_batches s))
              else None
          end
      | None => None
      end
  | Expire k =>
      Some (mkSys (s_inproc s) (delete k (s_redis s)) (s_sem s)
              (s_tasks s) (s_done s) (s_batches s))
  end.

(** a run: the events of a schedule, in order; [None] when one of them is
    not enabled *)
Fixpoint run (evs : list sched) (s : Sys) : option Sys :=
  match evs with
  | [] => Some s
  | ev :: rest =>
      match step ev s with
      | Some s' => run rest s'
      | None => None
      end
  end.

(** *** What a call of [parallel_cached_get] returns

    [stream.map(..., ordered=False)] yields the results in the order the
    tasks complete; the list comprehension collects them in that order. *)

Definition owned (o : nat) (t : task) : bool :=
  match t_owner t with Some a => Nat.eqb a o | None => false end.

Definition value_at (s : Sys) (i : nat) : option JSON :=
  match s_tasks s !! i with
  | Some t => match t_pc t with Finished (Ok v) => Some v | _ => None end
  | None => None
  end.

Definition owned_at (o : nat) (s : Sys) (i : nat) : bool :=
  match s_tasks s !! i with Some t => owned o t | None => false end.

(** the results collected so far by call [o] *)
Definition batch_results (o : nat) (s : Sys) : list JSON :=
  omap (value_at s) (filter (fun i => owned_at o s i = true) (s_done s)).

(** call [o] has returned: every one of its tasks came back with a value *)
Definition returned (o : nat) (s : Sys) : Prop :=
  forall i t, s_tasks s !! i = Some t -> owned o t = true ->
              exists v, t_pc t = Finished (Ok v).

End Machine.

(** ** A concrete interpreter and concrete surroundings

    Used to run the definitions on examples: a serializer, a decoder that
    inverts it on a finite stock of documents, and servers answering from
    a table. *)

Module Demo.

Definition dq : string := String (ascii_of_nat 34) EmptyString.

Fixpoint dumps (j : JSON) : string :=
  match j with
  | JNull => "null"
  | JBool b => if b then "true" else "false"
  | JNum q =>
      pretty (Qnum q) +:+
      (if Pos.eqb (Qden q) 1 then EmptyString else "/" +:+ pretty (Zpos (Qden q)))
  | JStr s => dq +:+ s +:+ dq
  | JArr items => "[" +:+ Py.join ", " (map dumps items) +:+ "]"
  | JObj fields =>
      "{" +:+
      Py.join ", " (map (fun '(k, v) => dq +:+ k +:+ dq +:+ ": " +:+ dumps v) fields)
      +:+ "}"
  end.

Definition speeder : JSON := JObj [("name", JStr "Speeder")].
Definition walker : JSON := JObj [("name", JStr "Walker")].
Definition pod : JSON := JObj [("name", JStr "Pod")].

Definition page (results : list JSON) (next : JSON) : JSON :=
  JObj [("results", JArr results); ("next", next)].

Definition envelope (timestamp response : JSON) : JSON :=
  JObj [("timestamp", timestamp); ("response", response)].

Definition stock : list JSON :=
  [ JNull; JArr [JNum 1]; speeder; walker; pod;
    page [speeder] JNull;
    page [walker] JNull;
    envelope (JNum 0) speeder;
    envelope (JNum 2800) speeder;
    envelope (JNum 8000) speeder;
    envelope JNull speeder;
    JObj [("response", speeder)];
    envelope (JStr "noon") speeder ].

Definition loads (s : string) : option JSON :=
  head (filter (fun j => String.eqb (dumps j) s) stock).

Definition repr (j : JSON) : string :=
  match j with
  | JNull => "None"
  | JBool b => if b then "True" else "False"
  | _ => dumps j
  end.

Definition loads_empty : loads EmptyString = None := eq_refl.

(** the differences taken in the examples are differences of whole
    numbers of seconds, which floating-point arithmetic gives exactly *)
Definition sub (a b : Q) : option float := Some (Finite (a - b)%Q).

Definition sub_converts (a b : Q) :
  (Qabs b <= inject_Z (2 ^ 1023))%Q -> sub a b <> None.
Proof. discriminate. Qed.

Definition sub_finite (a b : Q) (positive : bool) :
  sub a b = Some (Infinite positive) ->
  (inject_Z (2 ^ 1023) <= Qabs a + Qabs b)%Q.
Proof. discriminate. Qed.

Definition sub_near (a b d : Q) :
  sub a b = Some (Finite d) ->
  (Qabs (d - (a - b)) <= (1 # 2251799813685248) * (Qabs a + Qabs b))%Q.
Proof.
  intros [= <-].
  assert (a - b - (a - b) == 0)%Q as -> by ring.
  pose proof (Qabs_nonneg a). pose proof (Qabs_nonneg b).
  change (Qabs 0) with 0%Q. lra.
Qed.

#[export] Instance python : Python :=
  {| json_loads := loads; json_dumps := dumps; py_repr := repr;
     float_sub := sub;
     json_loads_empty := loads_empty;
     float_sub_converts := sub_converts;
     float_sub_finite := sub_finite;
     float_sub_near := sub_near |}.

(** a server answering from a table, 404 elsewhere *)
Fixpoint serve (table : list (string * JSON)) (url : JSON) : result JSON :=
  match table, url with
  | (u, body) :: rest, JStr s =>
      if String.eqb u s then Ok body else serve rest url
  | _, _ => Raise (ClientResponseError 404)
  end.

(** everything up, nothing fails, the clock stands at [now] *)
Definition calm (table : list (string * JSON)) (now : Q) : Env :=
  mkEnv (fun _ => true) (fun _ _ => None) (fun _ _ => None)
        (fun _ url => serve table url) (fun _ => now).

Definition cold : World := mkWorld ∅ ∅ [].

End Demo.

(** * Above the layer: the rest of [app/etl.py]

    The film search, the film filter and the choice of the vehicles that
    [run_etl] loads.  Indexing and the checks made by the callers raise
    exceptions the layer itself never does. *)

Inductive failure : Type :=
| Layer (e : exn)      (* an exception the layer knows *)
| KeyError.

Inductive outcome (A : Type) : Type :=
| Done (a : A)
| Fail (e : failure).
Arguments Done {A} a.
Arguments Fail {A} e.

(** [x[0]]: a list or a string gives its first element; the keys of a
    decoded object are strings, so [0] is never one of them. *)
Definition item0 (j : JSON) : outcome JSON :=
  match j with
  | JArr (x :: _) => Done x
  | JArr [] => Fail (Layer IndexError)
  | JStr (String a _) => Done (JStr (String a EmptyString))
  | JStr EmptyString => Fail (Layer IndexError)
  | JObj _ => Fail KeyError
  | _ => Fail (Layer TypeError)
  end.

(** [x.rstrip("/")]: only a [str] has [rstrip]. *)
Definition rstrip_slash (j : JSON) : result string :=
  match j with
  | JStr s => Ok (Py.rstrip slash s)
  | _ => Raise AttributeError
  end.

(** [any(phantom_film_url.rstrip("/") == f.rstrip("/") for f in films)]:
    the generator is consumed up to the first match. *)
Fixpoint any_film (phantom_film_url : JSON) (films : list JSON) : result bool :=
  match films with
  | [] => Ok false
  | f :: rest =>
      match rstrip_slash phantom_film_url with
      | Raise e => Raise e
      | Ok p =>
          match rstrip_slash f with
          | Raise e => Raise e
          | Ok q =>
              if String.eqb p q then Ok true
              else any_film phantom_film_url rest
          end
      end
  end.

(** the condition of the comprehension of lines 145-152, for one vehicle *)
Definition shows_film (phantom_film_url v : JSON) : result bool :=
  match Py.get v "films" (JArr []) with
  | Raise e => Raise e
  | Ok films =>
      match Py.iter films with
      | Raise e => Raise e
      | Ok fs => any_film phantom_film_url fs
      end
  end.

(** the comprehension of lines 145-152 *)
Fixpoint filtered_vehicles (phantom_film_url : JSON) (raw_vehicles : list JSON)
  : result (list JSON) :=
  match raw_vehicles with
  | [] => Ok []
  | v :: rest =>
      match shows_film phantom_film_url v with
      | Raise e => Raise e
      | Ok keep =>
          match filtered_vehicles phantom_film_url rest with
          | Raise e => Raise e
          | Ok vs => Ok (if keep then v :: vs else vs)
          end
      end
  end.

(** lines 59-62 *)
Definition film_search_url (USE_PROD : bool) (base_url : string) : string :=
  if USE_PROD then base_url +:+ "/api/films/?search=The Phantom Menace"
  else base_url +:+ "/films/?search=The Phantom Menace".

(** lines 65-72, on the answer of the search *)
Definition film_url_of (film_data : JSON) : outcome JSON :=
  match Py.get film_data "results" (JArr []) with
  | Raise e => Fail (Layer e)
  | Ok results =>
      if Py.truthy results then
        match item0 results with
        | Fail e => Fail e
        | Done first =>
            match Py.get first "url" (JStr EmptyString) with
            | Raise e => Fail (Layer e)
            | Ok film_url =>
                if Py.truthy film_url then Done film_url
                else Done (JStr EmptyString)
            end
        end
      else Done (JStr EmptyString)
  end.

Section Etl.

Context `{Python}.
Variable E : Env.

(** [USE_PROD] is the flag of [app.config] as [app.etl] imported it. *)
Definition get_phantom_menace_film_id (USE_PROD : bool) (base_url : string)
  : World -> outcome JSON * World :=
  fun w =>
    match cached_get E "film_phantom_menace"
            (JStr (film_search_url USE_PROD base_url)) 3600 w with
    | (Ok film_data, w') => (film_url_of film_data, w')
    | (Raise e, w') => (Fail (Layer e), w')
    end.

(** Lines 132-158 of [run_etl]: the vehicles that go on to be loaded.
    [use_prod] is the argument of [run_etl]; line 139 reads the films of
    the first vehicle for the log. *)
Definition vehicles_to_load (use_prod USE_PROD : bool) (base_url : string)
  (raw_vehicles : list JSON) : World -> outcome (list JSON) * World :=
  fun w =>
    if use_prod then
      match get_phantom_menace_film_id USE_PROD base_url w with
      | (Fail e, w') => (Fail e, w')
      | (Done phantom_film_url, w') =>
          match (match raw_vehicles with
                 | first :: _ => Py.get first "films" (JArr [])
                 | [] => Ok JNull
                 end) with
          | Raise e => (Fail (Layer e), w')
          | Ok _ =>
              if Py.truthy phantom_film_url then
                (match filtered_vehicles phantom_film_url raw_vehicles with
                 | Ok vs => Done vs
                 | Raise e => Fail (Layer e)
                 end, w')
              else (Done raw_vehicles, w')
          end
      end
    else (Done raw_vehicles, w).

End Etl.

(** * The Wookiee encoding ([app/transform/wookiee.py])

    A text is a sequence of characters with code points below 256, one
    [ascii] each. *)

Module Wookiee.

(** [c.lower()]: the capitals of ASCII and of Latin-1 *)
Definition lower (c : ascii) : ascii :=
  let n := nat_of_ascii c in
  if ((65 <=? n) && (n <=? 90)
      || (192 <=? n) && (n <=? 222) && negb (n =? 215))%nat
  then ascii_of_nat (n + 32)
  else c.

Definition lookup : list (ascii * string) :=
  [("a"%char, "ra"); ("b"%char, "rh"); ("c"%char, "oa"); ("d"%char, "wa");
   ("e"%char, "wo"); ("f"%char, "ww"); ("g"%char, "rr"); ("h"%char, "ac");
   ("i"%char, "ah"); ("j"%char, "sh"); ("k"%char, "or"); ("l"%char, "an");
   ("m"%char, "sc"); ("n"%char, "wh"); ("o"%char, "oo"); ("p"%char, "ak");
   ("q"%char, "rq"); ("r"%char, "rc"); ("s"%char, "c"); ("t"%char, "ao");
   ("u"%char, "hu"); ("v"%char, "ho"); ("w"%char, "oh"); ("x"%char, "k");
   ("y"%char, "ro"); ("z"%char, "uf"); (" "%char, "waaa")].

(** [lookup.get(k, default)] *)
Fixpoint lookup_get (k : ascii) (table : list (ascii * string)) (default : string)
  : string :=
  match table with
  | [] => default
  | (k', v) :: rest => if Ascii.eqb k k' then v else lookup_get k rest default
  end.

Fixpoint wookiee_encode (text : string) : string :=
  match text with
  | EmptyString => EmptyString
  | String c rest =>
      lookup_get (lower c) lookup (String c EmptyString) +:+ wookiee_encode rest
  end.

(** [text.lower()] *)
Fixpoint lower_text (text : string) : string :=
  match text with
  | EmptyString => EmptyString
  | String c rest => String (lower c) (lower_text rest)
  end.

End Wookiee.

(** * The character search ([app/main.py], lines 179-201)

    What [search_characters_prod] answers, from the characters found and
    the two batches fetched through [parallel_cached_get] (each is [[]]
    when its call raised). *)

Module Dict.

(** a [dict] keyed by decoded values: the latest entry first *)
Definition t : Type := list (JSON * JSON).

(** lists and dicts cannot be keys *)
Definition hashable (j : JSON) : bool :=
  match j with
  | JArr _ | JObj _ => false
  | _ => true
  end.

Definition number_of (j : JSON) : option Q :=
  match j with
  | JNum q => Some q
  | JBool b => Some (if b then 1 else 0)%Q
  | _ => None
  end.

(** [a == b] on keys: numbers and booleans compare by value *)
Definition key_eqb (a b : JSON) : bool :=
  match a, b with
  | JNull, JNull => true
  | JStr s, JStr t => String.eqb s t
  | _, _ =>
      match number_of a, number_of b with
      | Some p, Some q => Qeq_bool p q
      | _, _ => false
      end
  end.

Fixpoint find (d : t) (k default : JSON) : JSON :=
  match d with
  | [] => default
  | (k', v) :: rest => if key_eqb k k' then v else find rest k default
  end.

(** [d.get(k, default)] *)
Definition get (d : t) (k default : JSON) : result JSON :=
  if hashable k then Ok (find d k default) else Raise TypeError.

End Dict.

(** [{s.get("url"): s.get(field, "") for s in data}], added to [acc] *)
Fixpoint name_map (field : string) (data : list JSON) (acc : Dict.t)
  : result Dict.t :=
  match data with
  | [] => Ok acc
  | s :: rest =>
      match Py.get s "url" JNull with
      | Raise e => Raise e
      | Ok k =>
          match Py.get s field (JStr EmptyString) with
          | Raise e => Raise e
          | Ok v =>
              if Dict.hashable k then name_map field rest ((k, v) :: acc)
              else Raise TypeError
          end
      end
  end.

(** [[u for u in char.get(field, []) if u]] *)
Definition truthy_items (char : JSON) (field : string) : result (list JSON) :=
  match Py.get char field (JArr []) with
  | Raise e => Raise e
  | Ok v =>
      match Py.iter v with
      | Raise e => Raise e
      | Ok items => Ok (filter (fun u => Py.truthy u) items)
      end
  end.

(** [[m.get(u, "") for u in urls]] *)
Fixpoint names_of (m : Dict.t) (urls : list JSON) : result (list JSON) :=
  match urls with
  | [] => Ok []
  | u :: rest =>
      match Dict.get m u (JStr EmptyString) with
      | Raise e => Raise e
      | Ok name =>
          match names_of m rest with
          | Raise e => Raise e
          | Ok names => Ok (name :: names)
          end
      end
  end.

(** ["Droid" == name] *)
Definition is_droid (name : JSON) : bool :=
  match name with
  | JStr s => String.eqb s "Droid"
  | _ => false
  end.

(** [x[k]] for a string [k] *)
Definition item (j : JSON) (k : string) : outcome JSON :=
  match j with
  | JObj fields =>
      match Py.assoc k fields with
      | Some v => Done v
      | None => Fail KeyError
      end
  | _ => Fail (Layer TypeError)
  end.

(** one turn of the loop of lines 183-196: the entry appended, if any *)
Definition valid_char (species_map film_map : Dict.t) (char : JSON)
  : outcome (option JSON) :=
  match truthy_items char "species" with
  | Raise e => Fail (Layer e)
  | Ok char_species_urls =>
      match truthy_items char "films" with
      | Raise e => Fail (Layer e)
      | Ok char_film_urls =>
          match names_of species_map char_species_urls with
          | Raise e => Fail (Layer e)
          | Ok species_names =>
              match names_of film_map char_film_urls with
              | Raise e => Fail (Layer e)
              | Ok film_titles =>
                  if existsb is_droid species_names then Done None
                  else if (2 <=? length film_titles)%nat then
                    match item char "name" with
                    | Fail e => Fail e
                    | Done name =>
                        match Py.get char "edited" JNull with
                        | Raise e => Fail (Layer e)
                        | Ok edited =>
                            Done (Some (JObj
                              [("name", name);
                               ("species", JArr species_names);
                               ("edited", edited);
                               ("film_count",
                                JNum (inject_Z (Z.of_nat (length film_titles))))]))
                        end
                    end
                  else Done None
              end
          end
      end
  end.

Fixpoint valid_chars (species_map film_map : Dict.t) (chars : list JSON)
  : outcome (list JSON) :=
  match chars with
  | [] => Done []
  | char :: rest =>
      match valid_char species_map film_map char with
      | Fail e => Fail e
      | Done entry =>
          match valid_chars species_map film_map rest with
          | Fail e => Fail e
          | Done entries =>
              Done (match entry with
                    | Some v => v :: entries
                    | None => entries
                    end)
          end
      end
  end.

Definition characters_response (characters : JSON)
  (species_data film_data : list JSON) : outcome JSON :=
  match name_map "name" species_data [] with
  | Raise e => Fail (Layer e)
  | Ok species_map =>
      match name_map "title" film_data [] with
      | Raise e => Fail (Layer e)
      | Ok film_map =>
          match Py.iter characters with
          | Raise e => Fail (Layer e)
          | Ok chars =>
              match valid_chars species_map film_map chars with
              | Fail e => Fail e
              | Done [] =>
                  Done (JObj [("message", JStr "No valid characters found")])
              | Done valid => Done (JObj [("characters", JArr valid)])
              end
          end
      end
  end.

(** * Team salaries ([app/main.py], lines 44-73)

    An employee is a dict with the keys [id], [manager_id] (absent or
    [None] for a top-level manager) and [salary]. *)

Module Salaries.

Record employee : Type := mkEmployee {
  id : Z;
  manager_id : option Z;
  salary : Q
}.

(** lines 58-62 *)
Definition subordinates (employees : list employee) : gmap Z (list Z) :=
  foldl (fun subs emp =>
           match manager_id emp with
           | Some mgr => <[mgr := default [] (subs !! mgr) ++ [id emp]]> subs
           | None => subs
           end) ∅ employees.

(** line 64 *)
Definition salary_map (employees : list employee) : gmap Z Q :=
  foldl (fun m emp => <[id emp := salary emp]> m) ∅ employees.

(** lines 66-70.  [depth] is the depth of recursion left to the
    interpreter; [None] is [RecursionError]. *)
Fixpoint total_salary (subs : gmap Z (list Z)) (sal : gmap Z Q)
  (depth : nat) (emp_id : Z) : option Q :=
  match depth with
  | O => None
  | S depth' =>
      foldl (fun total sub_id =>
               match total, total_salary subs sal depth' sub_id with
               | Some t, Some s => Some (t + s)%Q
               | _, _ => None
               end)
            (Some (default 0%Q (sal !! emp_id)))
            (default [] (subs !! emp_id))
  end.

(** lines 72-73 *)
Definition calculate_team_salaries (depth : nat) (employees : list employee)
  : option (gmap Z Q) :=
  foldl (fun acc emp =>
           match manager_id emp with
           | None =>
               match acc, total_salary (subordinates employees)
                            (salary_map employees) depth (id emp) with
               | Some m, Some t => Some (<[id emp := t]> m)
               | _, _ => None
               end
           | Some _ => acc
           end) (Some ∅) employees.

End Salaries.

(** * Vocabulary of the statements *)

(** what a call added to the log *)
Definition added (w w' : World) : list event :=
  drop (length (log w)) (log w').

(** entries of the process-local tier present in [w] are still there,
    unchanged, in [w'] *)
Definition keeps (w w' : World) : Prop :=
  forall k v, inproc w !! k = Some v -> inproc w' !! k = Some v.

(** the surroundings [E] with another answer to [set] *)
Definition with_set_fault (f : list event -> string -> option exn) (E : Env) : Env :=
  mkEnv (redis_reachable E) (redis_get_fault E) f (http_get E) (clock E).

(** the surroundings [E] with another answer to [get] *)
Definition with_get_fault (f : list event -> string -> option exn) (E : Env) : Env :=
  mkEnv (redis_reachable E) f (redis_set_fault E) (http_get E) (clock E).

(** what the caller of an operation can observe of it: its outcome, the
    process-local tier and the sequence of operations *)
Definition observed {A} (x : result A * World) : result A * gmap string JSON * list event :=
  (fst x, inproc (snd x), log (snd x)).

(** the [response] field of a decoded entry, [None] when it has none *)
Definition response_of (fields : list (string * JSON)) : JSON :=
  match Py.assoc "response" fields with Some v => v | None => JNull end.

Section WalkerTerms.

Context `{Python}.
Variable E : Env.

(** A page chain as the walker meets it: from cursor [u] in world [w], the
    orchestrator serves [page] for each cursor in turn, the [next] field of
    each page is the following cursor, and the [next] of the last page is
    empty or absent.  [w'] is the world after the last page. *)
Inductive Chain : World -> JSON -> list (JSON * JSON) -> World -> Prop :=
| Chain_end w u :
    Py.truthy u = false ->
    Chain w u [] w
| Chain_page w u page next w1 pages w' :
    Py.truthy u = true ->
    cached_get E (page_key u) u 3600 w = (Ok page, w1) ->
    Py.get page "next" JNull = Ok next ->
    Chain w1 next pages w' ->
    Chain w u ((u, page) :: pages) w'.

(** the loop after [n] complete turns: accumulator, cursor and world;
    [None] when the loop has left, by exit or by exception, before *)
Fixpoint turns (n : nat) (acc : list JSON) (u : JSON) (w : World)
  : option (list JSON * JSON * World) :=
  match n with
  | O => Some (acc, u, w)
  | S n' =>
      if Py.truthy u then
        match walk_turn E acc u w with
        | (Ok (acc', next), w') => turns n' acc' next w'
        | (Raise _, _) => None
        end
      else None
  end.

End WalkerTerms.

(** what one turn takes from a page: the items to append and the next
    cursor (lines 94-97) *)
Definition digest (page : JSON) : result (list JSON * JSON) :=
  match Py.get page "results" (JArr []) with
  | Ok page_results =>
      match Py.iter page_results with
      | Ok more =>
          match Py.get page "next" JNull with
          | Ok next => Ok (more, next)
          | Raise e => Raise e
          end
      | Raise e => Raise e
      end
  | Raise e => Raise e
  end.

(** free slots plus slots held make the limit *)
Definition balanced (s : Sys) : Prop :=
  s_sem s + count holding (s_tasks s) = GATE_LIMIT.

Definition slots (t : task) : nat := if holding t then 1 else 0.

Definition done_after (p : pc) (j : nat) (done : list nat) : list nat :=
  if is_finished p then done ++ [j] else done.

(** the effect of resuming task [j], found as [u], which goes to [p] *)
Definition moved (s : Sys) (j : nat) (u : task) (p : pc) (s' : Sys) : Prop :=
  s_tasks s !! j = Some u /\
  live (t_pc u) = true /\
  s_tasks s' = <[j := at_pc p u]> (s_tasks s) /\
  s_done s' = done_after p j (s_done s) /\
  s_batches s' = s_batches s /\
  (t_pc u = Waiting ->
   p = Cancelled \/
   match s_inproc s !! t_key u with
   | Some v => p = Finished (Ok v)
   | None => p = AwaitConnect
   end) /\
  (t_pc u <> Waiting -> p <> Waiting) /\
  (s_inproc s' = s_inproc s \/
   (in_flight (t_pc u) = true /\
    exists v, p = Finished (Ok v) /\
              s_inproc s' = <[t_key u := v]> (s_inproc s))).

(** the effect of a call being made (or of an expiry in the shared store) *)
Definition spawned (s : Sys) (new : list task) (s' : Sys) : Prop :=
  s_tasks s' = s_tasks s ++ new /\
  s_done s' = s_done s /\
  s_inproc s' = s_inproc s /\
  s_sem s' = s_sem s /\
  s_batches s <= s_batches s' /\
  Forall (fun t => t_pc t = Waiting /\
                   (t_owner t = None \/
                    (t_owner t = Some (s_batches s) /\
                     s_batches s' = S (s_batches s)))) new.

(** the completion order lists each completed task once *)
Definition done_ok (s : Sys) : Prop :=
  NoDup (s_done s) /\
  forall i, i ∈ s_done s <->
            exists t, s_tasks s !! i = Some t /\ is_finished (t_pc t) = true.

(** owners are numbers of calls already made *)
Definition fresh (s : Sys) : Prop :=
  forall i t a, s_tasks s !! i = Some t -> t_owner t = Some a ->
                a < s_batches s.

(** the tasks of call [o] sit at positions [n0 .. n0 + k - 1] *)
Definition placed (o n0 k : nat) (s : Sys) : Prop :=
  o < s_batches s /\ n0 + k <= length (s_tasks s) /\
  forall i t, s_tasks s !! i = Some t ->
              (owned o t = true <-> n0 <= i < n0 + k).

(** awaits still ahead of a task, at most *)
Definition rem (p : pc) : nat :=
  match p with
  | Waiting => 5
  | AwaitConnect => 4
  | AwaitRedisGet => 3
  | AwaitFetch => 2
  | AwaitRedisSet _ => 1
  | Finished _ | Cancelled => 0
  end.

Fixpoint weight (l : list task) : nat :=
  match l with
  | [] => 0
  | t :: rest => rem (t_pc t) + weight rest
  end.

(** neither failed nor cancelled *)
Definition clean (p : pc) : bool :=
  match p with
  | Finished (Raise _) | Cancelled => false
  | _ => true
  end.

(** resume task [i] with an answer that is not a failure *)
Definition nudge (i : nat) (t : task) : sched :=
  match t_pc t with
  | AwaitConnect => Connected i true
  | AwaitRedisGet => RedisGot i None
  | AwaitFetch => Fetched i (Ok JNull)
  | AwaitRedisSet _ => RedisSetDone i None
  | _ => Start i
  end.




(** ** Schedules used as examples *)

(** seven URLs in one call: five fetches in flight, the sixth task kept
    at the gate until a slot is given back *)
Definition seven_urls : list string :=
  ["https://swapi.example/api/species/1/";
   "https://swapi.example/api/species/2/";
   "https://swapi.example/api/species/3/";
   "https://swapi.example/api/species/4/";
   "https://swapi.example/api/species/5/";
   "https://swapi.example/api/species/6/";
   "https://swapi.example/api/species/7/"].

Definition five_fetching : list sched :=
  Batch "species" seven_urls 3600
  :: map Start [0; 1; 2; 3; 4]
  ++ map (fun i => Connected i true) [0; 1; 2; 3; 4]
  ++ map (fun i => RedisGot i None) [0; 1; 2; 3; 4].

(** three URLs whose fetches complete in another order than they were
    given *)
Definition three_urls : list string :=
  ["https://swapi.example/api/species/1/";
   "https://swapi.example/api/species/2/";
   "https://swapi.example/api/species/3/"].

Definition out_of_order : list sched :=
  map Start [0; 1; 2]
  ++ map (fun i => Connected i true) [0; 1; 2]
  ++ map (fun i => RedisGot i None) [0; 1; 2]
  ++ [Fetched 2 (Ok Demo.pod); RedisSetDone 2 None;
      Fetched 0 (Ok Demo.speeder); RedisSetDone 0 None;
      Fetched 1 (Ok Demo.walker); RedisSetDone 1 None].


(** ** Texts *)

(** the character [c] occurs in [s] *)
Fixpoint mentions (c : ascii) (s : string) : bool :=
  match s with
  | EmptyString => false
  | String a rest => Ascii.eqb a c || mentions c rest
  end.

(** [n] slashes *)
Fixpoint slashes (n : nat) : string :=
  match n with
  | O => EmptyString
  | S n' => String slash (slashes n')
  end.

(** the last character of [s] is [c] *)
Fixpoint ends_in (c : ascii) (s : string) : bool :=
  match s with
  | EmptyString => false
  | String a rest =>
      match rest with
      | EmptyString => Ascii.eqb a c
      | String _ _ => ends_in c rest
      end
  end.

(** [suffix] is the last path segment of [url], trailing slashes
    stripped: the URL is a head that is empty or ends with a slash, then
    the suffix, which holds no slash, then slashes only; and the suffix is
    empty only when there is nothing before it. *)
Definition last_path_segment (url suffix : string) : Prop :=
  exists head n,
    url = head +:+ suffix +:+ slashes n /\
    mentions slash suffix = false /\
    (head = EmptyString \/ exists h, head = h +:+ String slash EmptyString) /\
    (suffix = EmptyString -> head = EmptyString).

(** the results a batch answer holds, as line 173 reads them; [[]] when
    the answer is not an object *)
Definition results_of (batch_pilots : JSON) : JSON :=
  match Py.get batch_pilots "results" (JArr []) with
  | Ok v => v
  | Raise _ => JArr []
  end.

(** ** Vehicles and films *)

(** the vehicle [v] lists the film, as the filter of [run_etl] sees it *)
Definition on_film (phantom_film_url v : JSON) : bool :=
  match shows_film phantom_film_url v with
  | Ok true => true
  | _ => false
  end.

(** ** Characters of a text *)

(** no character of [s] is one of [bad] *)
Fixpoint free_of (bad : ascii -> bool) (s : string) : bool :=
  match s with
  | EmptyString => true
  | String c rest => negb (bad c) && free_of bad rest
  end.

(** the space and the capitals A to Z *)
Definition capital_or_space (c : ascii) : bool :=
  let n := nat_of_ascii c in
  ((n =? 32) || (65 <=? n) && (n <=? 90))%nat.

(** code points above 127 *)
Definition beyond_ascii (c : ascii) : bool := (128 <=? nat_of_ascii c)%nat.

(** ** Characters *)

(** an entry of the answer: at least two films, no species named Droid *)
Definition sound_entry (v : JSON) : Prop :=
  exists name names edited n,
    v = JObj [("name", name); ("species", JArr names); ("edited", edited);
              ("film_count", JNum (inject_Z (Z.of_nat n)))] /\
    2 <= n /\ existsb is_droid names = false.

(** the name an entry of the answer carries *)
Definition entry_name (v : JSON) : JSON :=
  match Py.get v "name" JNull with
  | Ok name => name
  | Raise _ => JNull
  end.

(** ** A call on its own *)

(** the events of one call of [cached_get], made in world [w] as task [i]
    and resumed with the answers of [E], no other task moving meanwhile *)
Definition solo `{Python} (E : Env) (k : string) (url : JSON) (w : World)
  (i : nat) : list sched :=
  let l0 := log w ++ [ECachedGet k url] in
  let l1 := l0 ++ [EConnect] in
  let l2 := l1 ++ [ERedisGet k] in
  let l3 := l2 ++ [EFetch url] in
  Start i ::
  match inproc w !! k with
  | Some _ => []
  | None =>
      Connected i (redis_reachable E l0) ::
      if redis_reachable E l0 then
        RedisGot i (redis_get_fault E l1 k) ::
        match redis_get_fault E l1 k, usable (redis w !! k) with
        | None, None =>
            Fetched i (http_get E l2 url) ::
            match http_get E l2 url with
            | Ok _ => [RedisSetDone i (redis_set_fault E l3 k)]
            | Raise _ => []
            end
        | _, _ => []
        end
      else []
  end.

(** ** Employees *)

(** [level es x k]: the employee with id [x] is [k] managers below a
    top-level manager *)
Inductive level (es : list Salaries.employee) : Z -> nat -> Prop :=
| level_top e :
    e ∈ es -> Salaries.manager_id e = None -> level es (Salaries.id e) 0
| level_sub e m k :
    e ∈ es -> Salaries.manager_id e = Some m -> level es m k ->
    level es (Salaries.id e) (S k).

(** the reports of [m] in a table of subordinates *)
Definition reports (subs : gmap Z (list Z)) (m : Z) : list Z :=
  default [] (subs !! m).

(** one turn of the loop of lines 59-62 *)
Definition hire (subs : gmap Z (list Z)) (emp : Salaries.employee)
  : gmap Z (list Z) :=
  match Salaries.manager_id emp with
  | Some mgr =>
      <[mgr := default [] (subs !! mgr) ++ [Salaries.id emp]]> subs
  | None => subs
  end.

(** one turn of the comprehension of lines 72-73 *)
Definition pay (es : list Salaries.employee) (depth : nat)
  (acc : option (gmap Z Q)) (emp : Salaries.employee) : option (gmap Z Q) :=
  match Salaries.manager_id emp with
  | None =>
      match acc, Salaries.total_salary (Salaries.subordinates es)
                   (Salaries.salary_map es) depth (Salaries.id emp) with
      | Some m, Some t => Some (<[Salaries.id emp := t]> m)
      | _, _ => None
      end
  | Some _ => acc
  end.

(** a top-level manager with the id [i] *)
Definition top_level (i : Z) (e : Salaries.employee) : Prop :=
  Salaries.id e = i /\ Salaries.manager_id e = None.

(** ** The shared store over time *)

(** the world once the server has dropped [key] *)
Definition expire (key : string) (w : World) : World :=
  mkWorld (inproc w) (delete key (redis w)) (log w).

(** What a reader finds [elapsed] seconds, by the server's clock, after
    [key] was set with [ex=ttl] in the world [w]: the entry is held as long
    as the ttl has not run out, and dropped once it has. *)
Inductive lapsed (key : string) (ttl : Z) (elapsed : Q) (w : World)
  : World -> Prop :=
| lapsed_held :
    (elapsed <= inject_Z ttl)%Q -> lapsed key ttl elapsed w w
| lapsed_dropped :
    (inject_Z ttl <= elapsed)%Q -> lapsed key ttl elapsed w (expire key w).

(** * Properties of the sequential operations *)

Ltac unfold_layer :=
  unfold cached_get, fetch_single, walk_turn, pilot_details,
    cache_odate_response, get_odate_response, expired,
    get_redis, redis_get, redis_set, fetch_data, time,
    note, inproc_lookup, set_inproc, try_except, bind, ret, lift, throw, emit
    in *;
  cbv beta iota zeta delta [inproc redis log] in *.

Lemma added_app w w' l : log w' = log w ++ l -> added w w' = l.
Proof. intros Hl. unfold added. rewrite Hl. apply drop_app_length. Qed.

Section SeqFacts.

Context `{Python}.
Variable E : Env.

Lemma keeps_refl w : keeps w w.
Proof. by intros k v. Qed.

Lemma keeps_trans w1 w2 w3 : keeps w1 w2 -> keeps w2 w3 -> keeps w1 w3.
Proof. intros H12 H23 k v Hk. eauto. Qed.

(** [cached_get] with the monad unfolded: one branch per way through
    the function, with the world each one leaves. *)
Lemma cached_get_unfold w k url ttl :
  cached_get E k url ttl w =
  let l0 := log w ++ [ECachedGet k url] in
  match inproc w !! k with
  | Some v => (Ok v, mkWorld (inproc w) (redis w) l0)
  | None =>
      let l1 := l0 ++ [EConnect] in
      if redis_reachable E l0 then
        let l2 := l1 ++ [ERedisGet k] in
        match redis_get_fault E l1 k with
        | Some e => (Raise e, mkWorld (inproc w) (redis w) l2)
        | None =>
            match usable (redis w !! k) with
            | Some data =>
                (Ok data, mkWorld (<[k := data]> (inproc w)) (redis w) l2)
            | None =>
                let l3 := l2 ++ [EFetch url] in
                match http_get E l2 url with
                | Raise e => (Raise e, mkWorld (inproc w) (redis w) l3)
                | Ok data =>
                    let l4 := l3 ++ [ERedisSet k (json_dumps data) ttl] in
                    match redis_set_fault E l3 k with
                    | Some _ =>
                        (Ok data,
                         mkWorld (<[k := data]> (inproc w)) (redis w) l4)
                    | None =>
                        (Ok data,
                         mkWorld (<[k := data]> (inproc w))
                                 (<[k := json_dumps data]> (redis w)) l4)
                    end
                end
            end
        end
      else (Raise ConnectionError, mkWorld (inproc w) (redis w) l1)
  end.
Proof.
  unfold cached_get, bind, note, inproc_lookup, get_redis, redis_get,
    fetch_data, redis_set, set_inproc, try_except, ret, emit.
  destruct w as [ip rd lg]; cbn.
  destruct (ip !! k); cbn; [done|].
  destruct (redis_reachable E _); cbn; [|done].
  destruct (redis_get_fault E _ k); cbn; [done|].
  destruct (usable (rd !! k)); cbn; [done|].
  destruct (http_get E _ url); cbn; [|done].
  by destruct (redis_set_fault E _ k).
Qed.

Ltac cases_cached_get Hrun :=
  rewrite cached_get_unfold in Hrun; cbn zeta in Hrun;
  repeat match type of Hrun with
         | context [match ?x with _ => _ end] =>
             let Hcase := fresh "Hcase" in destruct x eqn:Hcase
         | context [if ?x then _ else _] =>
             let Hcase := fresh "Hcase" in destruct x eqn:Hcase
         end;
  inversion Hrun; subst; clear Hrun; cbn [inproc redis log].

Lemma cached_get_hit w k url ttl v :
  inproc w !! k = Some v ->
  cached_get E k url ttl w = (Ok v, emit (ECachedGet k url) w).
Proof. intros Hk. rewrite cached_get_unfold. by rewrite Hk. Qed.

Lemma cached_get_keeps w k url ttl r w' :
  cached_get E k url ttl w = (r, w') -> keeps w w'.
Proof.
  intros Hrun k' v' Hk'. cases_cached_get Hrun; try done;
    (assert (k <> k') by (intros ->; congruence));
    by rewrite lookup_insert_ne.
Qed.

Lemma cached_get_stores w k url ttl v w' :
  cached_get E k url ttl w = (Ok v, w') -> inproc w' !! k = Some v.
Proof.
  intros Hrun. cases_cached_get Hrun; try done; by rewrite lookup_insert_eq.
Qed.

(** the log only grows: the entry into [cached_get], then operations that
    are not entries and hold at most one fetch *)
Lemma cached_get_log w k url ttl r w' :
  cached_get E k url ttl w = (r, w') ->
  exists io, log w' = log w ++ ECachedGet k url :: io /\
             filter is_call io = [] /\
             fetches io <= 1.
Proof.
  intros Hrun. cases_cached_get Hrun; rewrite <- ?app_assoc; cbn [app];
    eexists; (split; [reflexivity|]); cbn; auto.
Qed.

End SeqFacts.

(** ** The shared tier: preferred when usable, refreshed when corrupt *)

(** C2, as stated, fails: the write of the fetched value over a corrupt
    entry is attempted, not assured.  When the shared cache refuses the
    [set] (lines 122-125 log the error and go on), the call still returns
    the fetched value after one fetch, and the corrupt entry stays. *)
Lemma refused_set_leaves_the_corrupt_entry :
  let w := mkWorld ∅ {["species_1" := "junk"]} [] in
  let E := with_set_fault (fun _ _ => Some (RedisError "read only"))
             (Demo.calm [("http://x/species/1/", Demo.speeder)] 0) in
  let url := JStr "http://x/species/1/" in
  json_loads (Python := Demo.python) "junk" = None /\
  exists w',
    cached_get (H := Demo.python) E "species_1" url 3600 w
      = (Ok Demo.speeder, w') /\
    fetches (added w w') = 1 /\
    redis w' !! "species_1" = Some "junk".
Proof. split; [reflexivity|]. eexists. repeat split. Qed.

Section SharedTier.

Context `{Python}.
Variable E : Env.

Lemma usable_some raw : usable (Some raw) = json_loads raw.
Proof.
  unfold usable. destruct raw as [|a raw]; [|done].
  symmetry. apply json_loads_empty.
Qed.

(** C2, amended.  A key absent from the process-local tier, the shared
    cache answering and holding [raw] under the key.  If [raw] decodes,
    the decoded value is stored in the process-local tier and returned,
    and no fetch is issued.  If [raw] does not decode, exactly one fetch
    is issued and its outcome is the outcome of the call (the decoding
    failure is not raised); a fetched value is stored in the process-local
    tier and returned, and one [set] of it under the key is issued: the
    shared entry is overwritten when that [set] is accepted and is left as
    it was when it is refused. *)
Theorem shared_entry_used_or_refetched
  (w : World) (k : string) (url : JSON) (ttl : Z) (raw : string) :
  let l0 := log w ++ [ECachedGet k url] in
  let l1 := l0 ++ [EConnect] in
  let l2 := l1 ++ [ERedisGet k] in
  let l3 := l2 ++ [EFetch url] in
  inproc w !! k = None ->
  redis_reachable E l0 = true ->
  redis_get_fault E l1 k = None ->
  redis w !! k = Some raw ->
  exists r w',
    cached_get E k url ttl w = (r, w') /\
    match json_loads raw with
    | Some data =>
        r = Ok data /\
        inproc w' = <[k := data]> (inproc w) /\
        redis w' = redis w /\
        log w' = l2 /\
        fetches (added w w') = 0
    | None =>
        r = http_get E l2 url /\
        fetches (added w w') = 1 /\
        match http_get E l2 url with
        | Ok data =>
            inproc w' = <[k := data]> (inproc w) /\
            log w' = l3 ++ [ERedisSet k (json_dumps data) ttl] /\
            (redis_set_fault E l3 k = None ->
             redis w' = <[k := json_dumps data]> (redis w)) /\
            (redis_set_fault E l3 k <> None -> redis w' = redis w)
        | Raise _ =>
            inproc w' = inproc w /\ redis w' = redis w /\ log w' = l3
        end
    end.
Proof.
  intros l0 l1 l2 l3 Hmiss Hup Hget Hraw.
  rewrite cached_get_unfold; cbn zeta.
  fold l0 l1 l2 l3.
  rewrite Hmiss, Hup, Hget, Hraw, usable_some.
  destruct (json_loads raw) as [data|].
  - do 2 eexists; split; [reflexivity|]. cbn [inproc redis log].
    repeat split.
    erewrite added_app; [|cbn [log]; subst l2 l1 l0;
                           by rewrite <- !app_assoc]. reflexivity.
  - destruct (http_get E l2 url) as [data|e] eqn:Hfetch.
    + destruct (redis_set_fault E l3 k) eqn:Hset;
        do 2 eexists; (split; [reflexivity|]); cbn [inproc redis log];
        (split; [done|]); (split; [|by repeat split]);
        (erewrite added_app; [|cbn [log]; subst l3 l2 l1 l0;
                                by rewrite <- !app_assoc]); reflexivity.
    + do 2 eexists; split; [reflexivity|]. cbn [inproc redis log].
      split; [done|]. split; [|done].
      erewrite added_app; [|cbn [log]; subst l3 l2 l1 l0;
                             by rewrite <- !app_assoc]. reflexivity.
Qed.

End SharedTier.

Lemma shared_entry_used_or_refetched_witness :
  let w := mkWorld ∅ {["species_1" := "junk"]} [] in
  let E := Demo.calm [("http://x/species/1/", Demo.speeder)] 0 in
  let url := JStr "http://x/species/1/" in
  inproc w !! "species_1" = None /\
  redis w !! "species_1" = Some "junk" /\
  exists r w',
    cached_get (H := Demo.python) E "species_1" url 3600 w = (r, w') /\
    r = Ok Demo.speeder /\
    fetches (added w w') = 1 /\
    redis w' = <["species_1" := Demo.dumps Demo.speeder]> (redis w).
Proof.
  intros w E url. split; [reflexivity|]. split; [reflexivity|].
  destruct (shared_entry_used_or_refetched (H := Demo.python)
              E w "species_1" url 3600 "junk")
    as (r & w' & Hrun & Hr & Hfetch & Hin & Hlog & Hredis & _);
    [reflexivity..|].
  exists r, w'. repeat split; [exact Hrun|exact Hr|exact Hfetch|].
  apply Hredis. reflexivity.
Defined.

(** ** Failures of the shared cache *)

(** C3, as stated, fails: an exception of the shared-cache [get] itself
    (line 110, outside any [try]) reaches the caller.  The same call on the
    same world succeeds when the [get] answers and raises when it fails. *)
Lemma read_failure_reaches_caller :
  let url := JStr "http://x/species/1/" in
  let E := Demo.calm [("http://x/species/1/", Demo.speeder)] 0 in
  let E' := with_get_fault (fun _ _ => Some (RedisError "timeout")) E in
  fst (cached_get (H := Demo.python) E "species_1" url 3600 Demo.cold)
    = Ok Demo.speeder /\
  fst (cached_get (H := Demo.python) E' "species_1" url 3600 Demo.cold)
    = Raise (RedisError "timeout").
Proof. split; reflexivity. Qed.

Section CacheFaults.

Context `{Python}.
Variable E : Env.

(** C3, amended.  Whatever the shared-cache [set] answers, the outcome of
    [cached_get], the process-local tier and the operations issued are the
    same; an entry that does not decode is handled as an absent one; and
    when the [set] of a freshly fetched value fails, the value is still
    stored in the process-local tier and returned.  An exception of the
    shared-cache [get] is not absorbed: whatever it is, it is the outcome
    of the call, which fetches nothing and stores nothing. *)
Theorem cache_faults_absorbed (w : World) (k : string) (url : JSON) (ttl : Z) :
  (forall f,
      observed (cached_get (with_set_fault f E) k url ttl w)
      = observed (cached_get E k url ttl w)) /\
  (forall raw,
      redis w !! k = Some raw -> json_loads raw = None ->
      observed (cached_get E k url ttl w)
      = observed (cached_get E k url ttl
                    (mkWorld (inproc w) (delete k (redis w)) (log w)))) /\
  (forall data e,
      let l2 := log w ++ [ECachedGet k url; EConnect; ERedisGet k] in
      inproc w !! k = None ->
      redis_reachable E (log w ++ [ECachedGet k url]) = true ->
      redis_get_fault E (log w ++ [ECachedGet k url; EConnect]) k = None ->
      usable (redis w !! k) = None ->
      http_get E l2 url = Ok data ->
      redis_set_fault E (l2 ++ [EFetch url]) k = Some e ->
      exists w',
        cached_get E k url ttl w = (Ok data, w') /\
        inproc w' !! k = Some data /\
        redis w' = redis w) /\
  (forall e,
      inproc w !! k = None ->
      redis_reachable E (log w ++ [ECachedGet k url]) = true ->
      redis_get_fault E (log w ++ [ECachedGet k url; EConnect]) k = Some e ->
      exists w',
        cached_get E k url ttl w = (Raise e, w') /\
        inproc w' = inproc w /\ redis w' = redis w /\
        fetches (added w w') = 0).
Proof.
  split; [|split; [|split]].
  - intros f. rewrite !cached_get_unfold; cbn zeta.
    unfold with_set_fault; cbn [redis_reachable redis_get_fault
                                 redis_set_fault http_get].
    destruct (inproc w !! k); [done|].
    destruct (redis_reachable E _); [|done].
    destruct (redis_get_fault E _ k); [done|].
    destruct (usable (redis w !! k)); [done|].
    destruct (http_get E _ url); [|done].
    by destruct (f _ k), (redis_set_fault E _ k).
  - intros raw Hraw Hbad. rewrite !cached_get_unfold; cbn zeta.
    cbn [inproc redis log].
    rewrite Hraw, lookup_delete_eq, usable_some, Hbad. cbn [usable].
    destruct (inproc w !! k); [done|].
    destruct (redis_reachable E _); [|done].
    destruct (redis_get_fault E _ k); [done|].
    destruct (http_get E _ url); [|done].
    by destruct (redis_set_fault E _ k).
  - intros data e l2 Hmiss Hup Hget Hnone Hfetch Hset.
    rewrite cached_get_unfold; cbn zeta.
    subst l2. rewrite <- !app_assoc in *. cbn [app] in *.
    rewrite Hmiss, Hup.
    replace ((log w ++ [ECachedGet k url]) ++ [EConnect])
      with (log w ++ [ECachedGet k url; EConnect])
      by (by rewrite <- app_assoc).
    rewrite Hget, Hnone.
    replace ((log w ++ [ECachedGet k url; EConnect]) ++ [ERedisGet k])
      with (log w ++ [ECachedGet k url; EConnect; ERedisGet k])
      by (by rewrite <- app_assoc).
    rewrite Hfetch.
    replace ((log w ++ [ECachedGet k url; EConnect; ERedisGet k]) ++ [EFetch url])
      with (log w ++ [ECachedGet k url; EConnect; ERedisGet k; EFetch url])
      by (by rewrite <- app_assoc).
    rewrite Hset. eexists; split; [reflexivity|]. cbn [inproc redis].
    by rewrite lookup_insert_eq.
  - intros e Hmiss Hup Hget.
    rewrite cached_get_unfold; cbn zeta. rewrite Hmiss, Hup.
    replace ((log w ++ [ECachedGet k url]) ++ [EConnect])
      with (log w ++ [ECachedGet k url; EConnect])
      by (by rewrite <- app_assoc).
    rewrite Hget. eexists; split; [reflexivity|]. cbn [inproc redis].
    split; [done|]. split; [done|].
    erewrite added_app by (cbn [log]; rewrite <- ?app_assoc; reflexivity).
    reflexivity.
Qed.

End CacheFaults.

Lemma cache_faults_absorbed_witness :
  let url := JStr "http://x/species/1/" in
  let E := with_set_fault (fun _ _ => Some (RedisError "read only"))
             (Demo.calm [("http://x/species/1/", Demo.speeder)] 0) in
  exists w',
    cached_get (H := Demo.python) E "species_1" url 3600 Demo.cold
      = (Ok Demo.speeder, w') /\
    inproc w' !! "species_1" = Some Demo.speeder /\
    redis w' = redis Demo.cold.
Proof.
  intros url E.
  apply (proj1 (proj2 (proj2 (cache_faults_absorbed (H := Demo.python)
                                E Demo.cold "species_1" url 3600)))
           Demo.speeder (RedisError "read only"));
    reflexivity.
Defined.

(** ** The OData single-key helper *)

Section OData.

Context `{Python}.
Variable E : Env.

(** [get_odate_response] with the monad unfolded *)
Lemma get_odate_response_unfold w user_id ttl :
  get_odate_response E user_id ttl w =
  let key := odata_key user_id in
  let l1 := log w ++ [EConnect] in
  let l2 := l1 ++ [ERedisGet key] in
  let w2 := mkWorld (inproc w) (redis w) l2 in
  if redis_reachable E (log w) then
    match redis_get_fault E l1 key with
    | Some e => (Raise e, w2)
    | None =>
        match redis w !! key with
        | Some raw =>
            if Py.nonempty raw then
              match json_loads raw with
              | Some cache_data =>
                  match Py.get cache_data "timestamp" JNull with
                  | Raise e => (Raise e, w2)
                  | Ok cached_time =>
                      if Py.truthy cached_time then
                        match Py.sub_from (clock E l2) cached_time with
                        | Raise e => (Raise e, w2)
                        | Ok age =>
                            if float_gt age ttl then (Ok JNull, w2)
                            else (Py.get cache_data "response" JNull, w2)
                        end
                      else (Py.get cache_data "response" JNull, w2)
                  end
              | None => (Ok JNull, w2)
              end
            else (Ok JNull, w2)
        | None => (Ok JNull, w2)
        end
    end
  else (Raise ConnectionError, mkWorld (inproc w) (redis w) l1).
Proof.
  unfold get_odate_response, expired, bind, get_redis, redis_get, time,
    lift, ret, emit.
  destruct w as [ip rd lg]; cbn.
  destruct (redis_reachable E lg); cbn; [|done].
  destruct (redis_get_fault E _ _); cbn; [done|].
  destruct (rd !! odata_key user_id) as [raw|]; cbn; [|done].
  destruct (Py.nonempty raw); cbn; [|done].
  destruct (json_loads raw) as [cache_data|]; cbn; [|done].
  destruct (Py.get cache_data "timestamp" JNull) as [cached_time|]; cbn; [|done].
  destruct (Py.truthy cached_time); cbn.
  - destruct (Py.sub_from _ cached_time) as [age|]; cbn; [|done].
    destruct (float_gt age ttl); cbn; [done|].
    by destruct (Py.get cache_data "response" JNull).
  - by destruct (Py.get cache_data "response" JNull).
Qed.

Lemma Qgtb_true a b : Qgtb a b = true <-> (b < a)%Q.
Proof.
  unfold Qgtb. rewrite negb_true_iff. split.
  - intros Hle. apply Qnot_le_lt. intros Hab.
    apply Qle_bool_iff in Hab. congruence.
  - intros Hlt. destruct (Qle_bool a b) eqn:Hle; [|done].
    apply Qle_bool_iff in Hle. by apply Qlt_not_le in Hlt.
Qed.

Lemma Qgtb_false a b : Qgtb a b = false <-> (a <= b)%Q.
Proof.
  unfold Qgtb. rewrite negb_false_iff. apply Qle_bool_iff.
Qed.

Lemma nonempty_decodes raw data : json_loads raw = Some data -> Py.nonempty raw = true.
Proof.
  destruct raw; [|done]. rewrite json_loads_empty. done.
Qed.

(** C10.  An entry that decodes to an object whose [timestamp] is missing,
    null or zero is returned whatever the clock and the ttl are. *)
Theorem odata_entry_without_timestamp_never_expires
  (w : World) (user_id : string) (ttl : Z) (raw : string)
  (fields : list (string * JSON)) :
  redis_reachable E (log w) = true ->
  redis_get_fault E (log w ++ [EConnect]) (odata_key user_id) = None ->
  redis w !! odata_key user_id = Some raw ->
  json_loads raw = Some (JObj fields) ->
  Py.assoc "timestamp" fields = None \/
  Py.assoc "timestamp" fields = Some JNull \/
  (exists q, Py.assoc "timestamp" fields = Some (JNum q) /\ (q == 0)%Q) ->
  fst (get_odate_response E user_id ttl w) = Ok (response_of fields).
Proof.
  intros Hup Hget Hraw Hdec Hts.
  rewrite get_odate_response_unfold; cbn zeta.
  rewrite Hup, Hget, Hraw, (nonempty_decodes _ _ Hdec), Hdec.
  cbn [Py.get].
  destruct Hts as [-> | [-> | (q & -> & Hq)]]; cbn [Py.truthy]; try done.
  apply Qeq_bool_iff in Hq. by rewrite Hq.
Qed.

End OData.

(** C8, as stated, fails: an entry whose timestamp is zero is returned
    although the clock minus the timestamp exceeds the ttl (line 209 tests
    the truth value of the timestamp before comparing). *)
Lemma odata_zero_timestamp_not_expired :
  let E := Demo.calm [] 7200 in
  let entry := Demo.envelope (JNum 0) Demo.speeder in
  let w := mkWorld ∅ {[odata_key "luke" := Demo.dumps entry]} [] in
  json_loads (Python := Demo.python) (Demo.dumps entry) = Some entry /\
  (inject_Z 3600 < clock E [] - 0)%Q /\
  fst (get_odate_response (H := Demo.python) E "luke" 3600 w) = Ok Demo.speeder.
Proof. repeat split. Qed.

Section ODataExpiry.

Context `{Python}.
Variable E : Env.

(** the rounding of [float_sub] cannot hide two hours on any clock
    between 0 and [2^40] seconds *)
Lemma two_hours_ago (now q : Q) :
  (0 <= now <= inject_Z (2 ^ 40))%Q ->
  (q == now - 7200)%Q ->
  exists age, float_sub now q = Some age /\ float_gt age 3600 = true.
Proof.
  intros [Hlo Hhi] Hq.
  change (inject_Z (2 ^ 40)) with (1099511627776 # 1)%Q in Hhi.
  assert (Qabs now <= 1099511627776 # 1)%Q as Hnow
    by (apply Qabs_Qle_condition; split; lra).
  assert (Qabs q <= 1099511627776 # 1)%Q as Hts
    by (apply Qabs_Qle_condition; split; lra).
  assert (2199023255552 # 1 < inject_Z (2 ^ 1023))%Q as Hbig
    by (vm_compute; reflexivity).
  destruct (float_sub now q) as [[d|positive]|] eqn:Hsub.
  - exists (Finite d). split; [done|]. cbn [float_gt]. apply Qgtb_true.
    pose proof (float_sub_near _ _ _ Hsub) as Hnear.
    apply Qabs_Qle_condition in Hnear as [Hbelow _].
    change (inject_Z 3600) with (3600 # 1)%Q. lra.
  - pose proof (float_sub_finite _ _ _ Hsub) as Hfar.
    set (big := inject_Z (2 ^ 1023)) in *. lra.
  - exfalso. apply (float_sub_converts now q); [|done].
    set (big := inject_Z (2 ^ 1023)) in *. lra.
Qed.

(** C8, amended.  The entry under ["odata_flight_" + user_id] is read and
    left in the shared store.  A value that does not decode is reported
    absent.  For an entry that decodes to an object with a non-zero number
    as timestamp, the difference of the clock and the timestamp is taken
    in floating-point arithmetic: an integer timestamp beyond the range of
    floats raises [OverflowError]; otherwise the entry is reported absent
    when the difference computed exceeds the ttl, and its [response] is
    returned when it does not.  So, on any clock between 0 and [2^40]
    seconds, a non-zero timestamp 7200 s in the past is absent under a
    ttl of 3600 s. *)
Theorem odata_logical_expiry
  (w : World) (user_id : string) (ttl : Z) (raw : string) :
  let key := odata_key user_id in
  let now := clock E ((log w ++ [EConnect]) ++ [ERedisGet key]) in
  redis_reachable E (log w) = true ->
  redis_get_fault E (log w ++ [EConnect]) key = None ->
  redis w !! key = Some raw ->
  exists r w',
    get_odate_response E user_id ttl w = (r, w') /\
    redis w' !! key = Some raw /\
    inproc w' = inproc w /\
    (json_loads raw = None -> r = Ok JNull) /\
    (forall fields q,
        json_loads raw = Some (JObj fields) ->
        Py.assoc "timestamp" fields = Some (JNum q) ->
        ~ (q == 0)%Q ->
        (float_sub now q = None -> r = Raise OverflowError) /\
        (forall age,
            float_sub now q = Some (Finite age) ->
            ((inject_Z ttl < age)%Q -> r = Ok JNull) /\
            ((age <= inject_Z ttl)%Q -> r = Ok (response_of fields))) /\
        (forall positive,
            float_sub now q = Some (Infinite positive) ->
            r = Ok (if positive then JNull else response_of fields)) /\
        ((0 <= now <= inject_Z (2 ^ 40))%Q ->
         (q == now - 7200)%Q -> ttl = 3600%Z -> r = Ok JNull)).
Proof.
  intros key now Hup Hget Hraw.
  exists (fst (get_odate_response E user_id ttl w)),
         (snd (get_odate_response E user_id ttl w)).
  split; [by destruct (get_odate_response E user_id ttl w)|].
  rewrite get_odate_response_unfold; cbn zeta. fold key. fold now.
  rewrite Hup, Hget, Hraw.
  split; [|split; [|split]].
  - destruct (Py.nonempty raw); [|done].
    destruct (json_loads raw) as [cache_data|]; [|done].
    destruct (Py.get cache_data "timestamp" JNull) as [t|]; [|done].
    destruct (Py.truthy t); [|done].
    destruct (Py.sub_from now t); [|done].
    by destruct (float_gt _ _).
  - destruct (Py.nonempty raw); [|done].
    destruct (json_loads raw) as [cache_data|]; [|done].
    destruct (Py.get cache_data "timestamp" JNull) as [t|]; [|done].
    destruct (Py.truthy t); [|done].
    destruct (Py.sub_from now t); [|done].
    by destruct (float_gt _ _).
  - intros Hbad. rewrite Hbad. by destruct (Py.nonempty raw).
  - intros fields q Hdec Hts Hq.
    rewrite (nonempty_decodes _ _ Hdec), Hdec. cbn [Py.get].
    rewrite Hts. cbn [Py.truthy Py.sub_from].
    assert (Qeq_bool q 0 = false) as ->.
    { destruct (Qeq_bool q 0) eqn:Hz; [|done].
      by apply Qeq_bool_iff in Hz. }
    cbn [negb]. fold (response_of fields).
    split; [by intros ->|]. split; [|split].
    + intros age Hsub. rewrite Hsub. cbn [fst float_gt]. split.
      * intros Hlt. apply Qgtb_true in Hlt. by rewrite Hlt.
      * intros Hle. apply Qgtb_false in Hle. by rewrite Hle.
    + intros positive Hsub. rewrite Hsub. cbn [fst float_gt].
      by destruct positive.
    + intros Hclock Hago ->.
      destruct (two_hours_ago _ _ Hclock Hago) as (age & Hsub & Hgt).
      by rewrite Hsub, Hgt.
Qed.

End ODataExpiry.

Lemma odata_entry_without_timestamp_never_expires_witness :
  let E := Demo.calm [] 1000000000 in
  let entry := Demo.envelope JNull Demo.speeder in
  let w := mkWorld ∅ {[odata_key "luke" := Demo.dumps entry]} [] in
  redis w !! odata_key "luke" = Some (Demo.dumps entry) /\
  fst (get_odate_response (H := Demo.python) E "luke" 1 w) = Ok Demo.speeder.
Proof.
  intros E entry w. split; [reflexivity|].
  apply (odata_entry_without_timestamp_never_expires (H := Demo.python)
           E w "luke" 1 (Demo.dumps entry)
           [("timestamp", JNull); ("response", Demo.speeder)]);
    [reflexivity..|].
  right; left; reflexivity.
Defined.

Lemma odata_logical_expiry_witness :
  let E := Demo.calm [] 10000 in
  let entry := Demo.envelope (JNum 2800) Demo.speeder in
  let w := mkWorld ∅ {[odata_key "luke" := Demo.dumps entry]} [] in
  redis w !! odata_key "luke" = Some (Demo.dumps entry) /\
  exists w',
    get_odate_response (H := Demo.python) E "luke" 3600 w = (Ok JNull, w') /\
    redis w' !! odata_key "luke" = Some (Demo.dumps entry).
Proof.
  intros E entry w. split; [reflexivity|].
  destruct (odata_logical_expiry (H := Demo.python)
              E w "luke" 3600 (Demo.dumps entry))
    as (r & w' & Hrun & Hheld & _ & _ & Hage); [reflexivity..|].
  destruct (Hage [("timestamp", JNum 2800); ("response", Demo.speeder)] 2800%Q)
    as (_ & _ & _ & Hago); [reflexivity|reflexivity|discriminate|].
  exists w'. split; [|exact Hheld].
  rewrite Hrun. f_equal. apply Hago; [|reflexivity..].
  split; vm_compute; discriminate.
Defined.

(** ** Cache keys *)


Lemma split_nonempty c s : Py.split c s <> [].
Proof.
  destruct s as [|a s]; cbn; [done|].
  destruct (Ascii.eqb a c); [done|]. by destruct (Py.split c s).
Qed.

Lemma append_empty (t : string) : EmptyString +:+ t = t.
Proof. reflexivity. Qed.

Lemma append_cons a (s t : string) : String a s +:+ t = String a (s +:+ t).
Proof. reflexivity. Qed.

Lemma rstrip_snoc c s : Py.rstrip c (s +:+ String c EmptyString) = Py.rstrip c s.
Proof.
  induction s as [|a s IH]; rewrite ?append_empty, ?append_cons; cbn [Py.rstrip].
  - cbn [Py.nonempty negb]. by rewrite Ascii.eqb_refl.
  - by rewrite IH.
Qed.

Lemma split_plain c s : mentions c s = false -> Py.split c s = [s].
Proof.
  induction s as [|a s IH]; cbn; [done|].
  intros Hno. apply orb_false_iff in Hno as [Ha Hs].
  by rewrite Ha, (IH Hs).
Qed.

Lemma split_cut c s :
  mentions c s = true -> exists a b l, Py.split c s = a :: b :: l.
Proof.
  induction s as [|x s IH]; cbn; [done|].
  destruct (Ascii.eqb x c); cbn.
  - intros _. destruct (Py.split c s) as [|b l] eqn:Hs.
    + by apply split_nonempty in Hs.
    + by exists EmptyString, b, l.
  - intros Hs. destruct (IH Hs) as (a & b & l & ->). by exists (String x a), b, l.
Qed.

Lemma split_pieces c s : Forall (fun p => mentions c p = false) (Py.split c s).
Proof.
  induction s as [|a s IH]; cbn.
  - by constructor.
  - destruct (Ascii.eqb a c) eqn:Ha.
    + by constructor.
    + destruct (Py.split c s) as [|piece pieces].
      * constructor; [|done]. cbn. by rewrite Ha.
      * inversion IH as [|? ? Hp Hps]; subst.
        constructor; [|done]. cbn. by rewrite Ha.
Qed.

Lemma split_snoc c s :
  Py.split c (s +:+ String c EmptyString) = Py.split c s ++ [EmptyString].
Proof.
  induction s as [|a s IH]; rewrite ?append_empty, ?append_cons; cbn [Py.split].
  - by rewrite Ascii.eqb_refl.
  - rewrite IH. destruct (Ascii.eqb a c); [done|].
    destruct (Py.split c s) as [|piece pieces] eqn:Hs; [|done].
    by apply split_nonempty in Hs.
Qed.

Lemma last2_snoc l x : Py.last2 (l ++ [x]) = Py.last1 l.
Proof.
  unfold Py.last2, Py.last1. rewrite rev_app_distr. cbn.
  destruct l as [|y l _] using rev_ind; [done|].
  by rewrite rev_app_distr, last_snoc.
Qed.

Lemma last1_piece c s x :
  Py.last1 (Py.split c s) = Ok x -> mentions c x = false.
Proof.
  unfold Py.last1. destruct (last (Py.split c s)) as [y|] eqn:Hlast; [|done].
  intros [= ->]. apply last_Some in Hlast as [l' Hl'].
  pose proof (split_pieces c s) as Hall. rewrite Hl' in Hall.
  apply Forall_app in Hall as [_ Hx]. by inversion Hx.
Qed.

Lemma slashes_snoc n :
  slashes (S n) = slashes n +:+ String slash EmptyString.
Proof.
  induction n as [|n IH]; [done|].
  cbn [slashes] in *. rewrite append_cons. f_equal. exact IH.
Qed.

Lemma append_assoc_str (a b c : string) : (a +:+ b) +:+ c = a +:+ (b +:+ c).
Proof.
  induction a as [|x a IH]; [done|]. rewrite !append_cons. by rewrite IH.
Qed.

Lemma append_empty_r (a : string) : a +:+ EmptyString = a.
Proof. induction a as [|x a IH]; [done|]. rewrite append_cons. by rewrite IH. Qed.

Lemma rstrip_slashes n : forall s,
  Py.rstrip slash (s +:+ slashes n) = Py.rstrip slash s.
Proof.
  induction n as [|n IH]; intros s.
  - cbn [slashes]. by rewrite append_empty_r.
  - rewrite slashes_snoc, <- append_assoc_str, rstrip_snoc. apply IH.
Qed.

(** what [rstrip] takes away are slashes *)
Lemma rstrip_cut s : exists n, s = Py.rstrip slash s +:+ slashes n.
Proof.
  induction s as [|a s [n IH]]; [by exists 0|].
  cbn [Py.rstrip].
  destruct (Ascii.eqb a slash && negb (Py.nonempty (Py.rstrip slash s))) eqn:Hc.
  - apply andb_true_iff in Hc as [Ha Hr]. apply Ascii.eqb_eq in Ha as ->.
    destruct (Py.rstrip slash s); [|done].
    exists (S n). rewrite append_empty in *. cbn [slashes]. by rewrite <- IH.
  - exists n. rewrite append_cons. by rewrite <- IH.
Qed.

(** and what it leaves does not end with one *)
Lemma rstrip_end s : ends_in slash (Py.rstrip slash s) = false.
Proof.
  induction s as [|a s IH]; [done|]. cbn [Py.rstrip].
  destruct (Ascii.eqb a slash && negb (Py.nonempty (Py.rstrip slash s))) eqn:Hc;
    [done|].
  destruct (Py.rstrip slash s) as [|b r]; [|exact IH].
  cbn in Hc. rewrite andb_true_r in Hc. cbn. exact Hc.
Qed.

Lemma rstrip_fixed s : ends_in slash s = false -> Py.rstrip slash s = s.
Proof.
  induction s as [|a s IH]; [done|]. cbn [Py.rstrip].
  destruct s as [|b s].
  - cbn. intros ->. done.
  - intros Hend. change (ends_in slash (String b s) = false) in Hend.
    rewrite (IH Hend). cbn [Py.nonempty negb]. by rewrite andb_false_r.
Qed.

Lemma ends_in_snoc c h : ends_in c (h +:+ String c EmptyString) = true.
Proof.
  induction h as [|a h IH]; rewrite ?append_empty, ?append_cons.
  - cbn. apply Ascii.eqb_refl.
  - destruct h as [|b h]; [cbn; apply Ascii.eqb_refl|].
    rewrite append_cons in *. exact IH.
Qed.

Lemma ends_in_plain c s : mentions c s = false -> ends_in c s = false.
Proof.
  induction s as [|a s IH]; [done|]. cbn [mentions].
  intros [Ha Hs]%orb_false_iff. destruct s as [|b s]; [exact Ha|].
  by apply IH.
Qed.

Lemma ends_in_append c h s :
  s <> EmptyString -> ends_in c (h +:+ s) = ends_in c s.
Proof.
  intros Hs. induction h as [|a h IH]; [done|]. rewrite append_cons.
  destruct (h +:+ s) as [|b r] eqn:Hhs; [|exact IH].
  destruct h; [by rewrite append_empty in Hhs|by rewrite append_cons in Hhs].
Qed.

Lemma split_append c h t :
  Py.split c (h +:+ String c t) = Py.split c h ++ Py.split c t.
Proof.
  induction h as [|a h IH]; rewrite ?append_empty, ?append_cons; cbn [Py.split].
  - by rewrite Ascii.eqb_refl.
  - rewrite IH. destruct (Ascii.eqb a c); [done|].
    destruct (Py.split c h) as [|p ps] eqn:Hh; [|done].
    by apply split_nonempty in Hh.
Qed.

(** a text that holds [c] is cut at its last [c] *)
Lemma last_cut c s :
  mentions c s = true ->
  exists h t, s = h +:+ String c t /\ mentions c t = false.
Proof.
  induction s as [|a s IH]; [done|]. cbn [mentions].
  destruct (mentions c s) eqn:Hs.
  - intros _. destruct (IH eq_refl) as (h & t & -> & Ht).
    exists (String a h), t. by rewrite append_cons.
  - rewrite orb_false_r. intros ->%Ascii.eqb_eq.
    exists EmptyString, s. by rewrite append_empty.
Qed.

(** the last piece of a split, and what comes before it *)
Lemma split_last c s :
  exists head suffix,
    last (Py.split c s) = Some suffix /\ s = head +:+ suffix /\
    (head = EmptyString \/ exists h, head = h +:+ String c EmptyString) /\
    mentions c suffix = false.
Proof.
  destruct (mentions c s) eqn:Hs.
  - destruct (last_cut c s Hs) as (h & t & -> & Ht).
    exists (h +:+ String c EmptyString), t.
    rewrite split_append, (split_plain _ _ Ht), last_snoc.
    split; [done|]. split; [|split; [right; by exists h|done]].
    by rewrite append_assoc_str, append_cons, append_empty.
  - exists EmptyString, s. rewrite (split_plain _ _ Hs).
    split; [done|]. split; [by rewrite append_empty|]. split; [by left|done].
Qed.

(** The suffix [fetch_single] takes is the last path segment of the URL,
    trailing slashes stripped, and nothing else is. *)
Lemma last_segment_spec url suffix :
  last_segment url = Ok suffix <-> last_path_segment url suffix.
Proof.
  unfold last_segment, Py.last1, last_path_segment. split.
  - intros Hlast. destruct (rstrip_cut url) as [n Hn].
    destruct (split_last slash (Py.rstrip slash url))
      as (head & sfx & Hsfx & Hbody & Hhead & Hplain).
    rewrite Hsfx in Hlast. injection Hlast as ->.
    exists head, n. split; [|split; [done|split; [done|]]].
    + rewrite <- append_assoc_str, <- Hbody. exact Hn.
    + intros ->. destruct Hhead as [->|[h ->]]; [done|].
      pose proof (rstrip_end url) as Hend.
      rewrite Hbody, append_empty_r, ends_in_snoc in Hend. done.
  - intros (head & n & -> & Hplain & Hhead & Hempty).
    rewrite <- append_assoc_str, rstrip_slashes.
    assert (ends_in slash (head +:+ suffix) = false) as Hend.
    { destruct suffix as [|a sfx].
      - by rewrite (Hempty eq_refl).
      - rewrite ends_in_append by done. by apply ends_in_plain. }
    rewrite (rstrip_fixed _ Hend).
    destruct Hhead as [->|[h ->]].
    + rewrite append_empty, (split_plain _ _ Hplain). done.
    + rewrite append_assoc_str, append_cons, append_empty.
      rewrite split_append, (split_plain _ _ Hplain), last_snoc. done.
Qed.

Lemma last_segment_total url : exists suffix, last_segment url = Ok suffix.
Proof.
  unfold last_segment, Py.last1.
  destruct (last (Py.split slash (Py.rstrip slash url))) as [x|] eqn:Hlast;
    [by exists x|].
  apply last_None in Hlast. by apply split_nonempty in Hlast.
Qed.

Lemma fetch_single_key_total prefix url :
  exists suffix, last_segment url = Ok suffix /\
                 fetch_single_key prefix url = Ok (prefix +:+ "_" +:+ suffix).
Proof.
  destruct (last_segment_total url) as [suffix Hs]. exists suffix.
  unfold fetch_single_key. by rewrite Hs.
Qed.



(** The pilot batch of [run_etl] is outside the amended statement: its key
    is the constant ["pilots_batch"], so the pilots of the first vehicle
    are served for every later one. *)
Example pilot_batches_share_one_key :
  let base := "https://swapi.example" in
  let han := JObj [("name", JStr "Han")] in
  let luke := JObj [("name", JStr "Luke")] in
  let E := Demo.calm
             [(pilots_batch_url base ["13"], JObj [("results", JArr [han])]);
              (pilots_batch_url base ["1"], JObj [("results", JArr [luke])])] 0 in
  let first := pilot_details (H := Demo.python) E base
                 ["https://swapi.example/api/people/13/"] Demo.cold in
  let second := pilot_details (H := Demo.python) E base
                  ["https://swapi.example/api/people/1/"] (snd first) in
  fst first = Ok (JArr [han]) /\ fst second = Ok (JArr [han]) /\
  fetches (log (snd second)) = 1.
Proof. repeat split. Qed.

(** ** The pagination walker *)

Section Walker.

Context `{Python}.
Variable E : Env.

Lemma walk_turn_unfold acc u w :
  walk_turn E acc u w =
  match cached_get E (page_key u) u 3600 w with
  | (Ok page, w1) =>
      match Py.get page "results" (JArr []) with
      | Ok page_results =>
          match Py.iter page_results with
          | Ok more =>
              match Py.get page "next" JNull with
              | Ok next => (Ok (acc ++ more, next), w1)
              | Raise e => (Raise e, w1)
              end
          | Raise e => (Raise e, w1)
          end
      | Raise e => (Raise e, w1)
      end
  | (Raise e, w1) => (Raise e, w1)
  end.
Proof.
  unfold walk_turn, bind, lift, ret.
  destruct (cached_get E (page_key u) u 3600 w) as [[page|e] w1]; [|done].
  destruct (Py.get page "results" (JArr [])) as [pr|]; [|done].
  destruct (Py.iter pr); [|done].
  by destruct (Py.get page "next" JNull).
Qed.

Lemma chain_walk chain w u w' :
  Chain E w u chain w' ->
  forall rs fuel acc,
    Forall2 (fun up items => Py.get (snd up) "results" (JArr []) = Ok (JArr items))
            chain rs ->
    length chain < fuel ->
    walk E fuel acc u w
    = Some (Ok (JObj [("results", JArr (acc ++ concat rs))]), w').
Proof.
  induction 1 as [w u Hend | w u page next w1 pages w' Hgo Hget Hnext _ IH];
    intros rs fuel acc Hrs Hfuel.
  - apply Forall2_nil_inv_l in Hrs as ->.
    destruct fuel as [|fuel]; [cbn in Hfuel; lia|].
    cbn. rewrite Hend. by rewrite app_nil_r.
  - apply Forall2_cons_inv_l in Hrs as (items & rs' & Hitems & Hrs' & ->).
    destruct fuel as [|fuel]; [cbn in Hfuel; lia|].
    cbn [walk]. rewrite Hgo, walk_turn_unfold, Hget.
    cbn [snd] in Hitems. rewrite Hitems. cbn [Py.iter]. rewrite Hnext.
    rewrite (IH rs' fuel (acc ++ items) Hrs') by (cbn in Hfuel; lia).
    cbn [concat]. by rewrite app_assoc.
Qed.

Lemma chain_calls chain w u w' :
  Chain E w u chain w' ->
  exists l, log w' = log w ++ l /\
            filter is_call l
            = map (fun up => ECachedGet (page_key (fst up)) (fst up)) chain.
Proof.
  induction 1 as [w u Hend | w u page next w1 pages w' Hgo Hget Hnext _ IH].
  - exists []. by rewrite app_nil_r.
  - destruct IH as (l & Hl & Hcalls).
    destruct (cached_get_log E _ _ _ _ _ _ Hget) as (io & Hio & Hnone & _).
    exists (ECachedGet (page_key u) u :: io ++ l). split.
    + rewrite Hl, Hio. rewrite <- app_assoc. done.
    + rewrite filter_cons_True by done. rewrite filter_app, Hnone, Hcalls.
      done.
Qed.

(** C6.  Along a finite page chain whose last [next] is empty or absent,
    with a [results] array (or none) on every page, the walker returns
    [{"results": r}] with [r] the concatenation of the arrays in page
    order, and enters the orchestrator exactly once per page, in page
    order, with the key ["vehicles_data_"] followed by the page's URL. *)
Theorem walker_concatenates_pages
  (w : World) (url : JSON) (chain : list (JSON * JSON)) (w' : World)
  (rs : list (list JSON)) (fuel : nat) :
  Chain E w url chain w' ->
  Forall2 (fun up items => Py.get (snd up) "results" (JArr []) = Ok (JArr items))
          chain rs ->
  length chain < fuel ->
  fetch_vehicles_paginated E fuel url w
  = Some (Ok (JObj [("results", JArr (concat rs))]), w') /\
  filter is_call (added w w')
  = map (fun up => ECachedGet ("vehicles_data_" +:+ Py.str (fst up)) (fst up))
        chain.
Proof.
  intros Hchain Hrs Hfuel. split.
  - unfold fetch_vehicles_paginated.
    by rewrite (chain_walk _ _ _ _ Hchain rs fuel []).
  - destruct (chain_calls _ _ _ _ Hchain) as (l & Hl & Hcalls).
    by rewrite (added_app _ _ _ Hl).
Qed.

Lemma walk_turn_digest acc u w :
  walk_turn E acc u w =
  match cached_get E (page_key u) u 3600 w with
  | (Ok page, w1) =>
      match digest page with
      | Ok (more, next) => (Ok (acc ++ more, next), w1)
      | Raise e => (Raise e, w1)
      end
  | (Raise e, w1) => (Raise e, w1)
  end.
Proof.
  rewrite walk_turn_unfold. unfold digest.
  destruct (cached_get E (page_key u) u 3600 w) as [[page|e] w1]; [|done].
  destruct (Py.get page "results" (JArr [])) as [pr|]; [|done].
  destruct (Py.iter pr); [|done].
  by destruct (Py.get page "next" JNull).
Qed.

(** a successful turn, taken apart *)
Lemma walk_turn_ok acc u w acc' next w1 :
  walk_turn E acc u w = (Ok (acc', next), w1) ->
  exists page more,
    cached_get E (page_key u) u 3600 w = (Ok page, w1) /\
    digest page = Ok (more, next) /\ acc' = acc ++ more.
Proof.
  rewrite walk_turn_digest.
  destruct (cached_get E (page_key u) u 3600 w) as [[page|e] w0]; [|done].
  destruct (digest page) as [[more nx]|] eqn:Hdigest; [|done].
  intros [= <- <- <-]. by exists page, more.
Qed.

Lemma turns_keeps n : forall acc u w acc' u' w',
  turns E n acc u w = Some (acc', u', w') -> keeps w w'.
Proof.
  induction n as [|n IH]; intros acc u w acc' u' w'; cbn [turns].
  - intros [= <- <- <-]. apply keeps_refl.
  - destruct (Py.truthy u); [|done].
    destruct (walk_turn E acc u w) as [[[acc1 u1]|e] w1] eqn:Hturn; [|done].
    intros Hrest.
    apply walk_turn_ok in Hturn as (page & more & Hget & _ & _).
    eapply keeps_trans; [by eapply cached_get_keeps|by eapply IH].
Qed.

Lemma turns_add a : forall b acc u w,
  turns E (a + b) acc u w =
  match turns E a acc u w with
  | Some (acc1, u1, w1) => turns E b acc1 u1 w1
  | None => None
  end.
Proof.
  induction a as [|a IH]; intros b acc u w; cbn [turns Nat.add]; [done|].
  destruct (Py.truthy u); [|done].
  destruct (walk_turn E acc u w) as [[[acc1 u1]|e] w1]; [|done].
  apply IH.
Qed.

(** the turns taken once are taken again, from the process-local tier
    alone, in any later world *)
Lemma turns_replay n : forall acc u w acc' u' w',
  turns E n acc u w = Some (acc', u', w') ->
  forall w2 acc2,
    keeps w' w2 ->
    exists acc2' w2',
      turns E n acc2 u w2 = Some (acc2', u', w2') /\ inproc w2' = inproc w2.
Proof.
  induction n as [|n IH]; intros acc u w acc' u' w'; cbn [turns].
  - intros [= <- <- <-] w2 acc2 _. by exists acc2, w2.
  - destruct (Py.truthy u) eqn:Hu; [|done].
    destruct (walk_turn E acc u w) as [[[acc1 u1]|e] w1] eqn:Hturn; [|done].
    intros Hrest w2 acc2 Hkeeps.
    apply walk_turn_ok in Hturn as (page & more & Hget & Hdigest & ->).
    assert (inproc w2 !! page_key u = Some page) as Hhit.
    { apply Hkeeps. eapply turns_keeps; [exact Hrest|].
      by eapply cached_get_stores. }
    rewrite walk_turn_digest, (cached_get_hit E _ _ _ _ _ Hhit), Hdigest.
    destruct (IH _ _ _ _ _ _ Hrest (emit (ECachedGet (page_key u) u) w2)
                (acc2 ++ more)) as (acc2' & w2' & Hgo & Hsame);
      [exact Hkeeps|].
    by exists acc2', w2'.
Qed.

Lemma turns_stuck fuel : forall acc u w,
  is_Some (turns E fuel acc u w) -> walk E fuel acc u w = None.
Proof.
  induction fuel as [|fuel IH]; intros acc u w; cbn [turns walk]; [done|].
  destruct (Py.truthy u); [|by intros [? ?]].
  destruct (walk_turn E acc u w) as [[[acc1 u1]|e] w1]; [|by intros [? ?]].
  apply IH.
Qed.

Lemma walk_chain fuel : forall acc u w r w',
  walk E fuel acc u w = Some (Ok r, w') ->
  exists chain, Chain E w u chain w' /\ length chain < fuel.
Proof.
  induction fuel as [|fuel IH]; intros acc u w r w'; cbn [walk]; [done|].
  destruct (Py.truthy u) eqn:Hu.
  - destruct (walk_turn E acc u w) as [[[acc1 u1]|e] w1] eqn:Hturn; [|done].
    intros Hrest. apply IH in Hrest as (chain & Hchain & Hlen).
    apply walk_turn_ok in Hturn as (page & more & Hget & Hdigest & _).
    exists ((u, page) :: chain). split; [|cbn; lia].
    eapply Chain_page; [done|exact Hget| |exact Hchain].
    unfold digest in Hdigest.
    destruct (Py.get page "results" (JArr [])) as [pr|]; [|done].
    destruct (Py.iter pr); [|done].
    destruct (Py.get page "next" JNull); [|done]. by inversion Hdigest.
  - intros [= <- <-]. exists []. split; [by constructor|cbn; lia].
Qed.

(** C7.  The walker has no guard against cycles: when, after some turns,
    the cursor is a URL it has already been at, the loop never leaves,
    whatever bound is put on its turns.  It returns a result only along a
    finite chain of [next] URLs that ends in an empty or absent cursor. *)
Theorem walker_loops_on_revisit (w : World) (url : JSON) :
  (forall i j acc_i acc_j u w_i w_j,
      i < j ->
      turns E i [] url w = Some (acc_i, u, w_i) ->
      turns E j [] url w = Some (acc_j, u, w_j) ->
      forall fuel, fetch_vehicles_paginated E fuel url w = None) /\
  (forall fuel r w',
      fetch_vehicles_paginated E fuel url w = Some (Ok r, w') ->
      exists chain, Chain E w url chain w' /\ length chain < fuel).
Proof.
  split; [|intros fuel r w'; apply walk_chain].
  intros i j acc_i acc_j u w_i w_j Hij Hi Hj fuel.
  apply turns_stuck.
  pose (d := j - i).
  assert (turns E d acc_i u w_i = Some (acc_j, u, w_j)) as Hd.
  { pose proof (turns_add i d [] url w) as Hadd.
    rewrite Hi in Hadd. replace (i + d) with j in Hadd by lia.
    by rewrite <- Hadd. }
  assert (forall m w2 acc2, keeps w_j w2 ->
            exists acc2' w2', turns E (m * d) acc2 u w2 = Some (acc2', u, w2') /\
                              keeps w_j w2') as Hloop.
  { induction m as [|m IHm]; intros w2 acc2 Hkeeps.
    - by exists acc2, w2.
    - destruct (turns_replay _ _ _ _ _ _ _ Hd w2 acc2 Hkeeps)
        as (acc3 & w3 & Hgo & Hsame).
      destruct (IHm w3 acc3) as (acc4 & w4 & Hgo' & Hkeeps').
      { intros k v Hk. rewrite Hsame. by apply Hkeeps. }
      exists acc4, w4. split; [|done].
      cbn [Nat.mul]. by rewrite turns_add, Hgo. }
  destruct (Hloop fuel w_j acc_j (keeps_refl _)) as (acc' & w' & Hgo & _).
  assert (turns E (j + fuel * d) [] url w = Some (acc', u, w')) as Hfar
    by (by rewrite turns_add, Hj).
  assert (j + fuel * d = fuel + (j + fuel * d - fuel)) as Hsplit by nia.
  rewrite Hsplit, turns_add in Hfar.
  by destruct (turns E fuel [] url w).
Qed.

End Walker.

Lemma walker_concatenates_pages_witness :
  let u1 := JStr "https://swapi.example/api/vehicles" in
  let u2 := JStr "https://swapi.example/api/vehicles?page=2" in
  let u3 := JStr "https://swapi.example/api/vehicles?page=3" in
  let p1 := Demo.page [Demo.speeder] u2 in
  let p2 := Demo.page [Demo.walker] u3 in
  let p3 := JObj [("results", JArr [Demo.pod]); ("next", JStr EmptyString)] in
  let E := Demo.calm [("https://swapi.example/api/vehicles", p1);
                      ("https://swapi.example/api/vehicles?page=2", p2);
                      ("https://swapi.example/api/vehicles?page=3", p3)] 0 in
  exists w',
    fetch_vehicles_paginated (H := Demo.python) E 4 u1 Demo.cold
    = Some (Ok (JObj [("results", JArr [Demo.speeder; Demo.walker; Demo.pod])]),
            w') /\
    filter is_call (added Demo.cold w')
    = [ECachedGet "vehicles_data_https://swapi.example/api/vehicles" u1;
       ECachedGet "vehicles_data_https://swapi.example/api/vehicles?page=2" u2;
       ECachedGet "vehicles_data_https://swapi.example/api/vehicles?page=3" u3] /\
    fetches (log w') = 3.
Proof.
  intros u1 u2 u3 p1 p2 p3 E.
  pose (w1 := snd (cached_get (H := Demo.python) E
                     (page_key (H := Demo.python) u1) u1 3600 Demo.cold)).
  pose (w2 := snd (cached_get (H := Demo.python) E
                     (page_key (H := Demo.python) u2) u2 3600 w1)).
  pose (w3 := snd (cached_get (H := Demo.python) E
                     (page_key (H := Demo.python) u3) u3 3600 w2)).
  destruct (walker_concatenates_pages (H := Demo.python) E Demo.cold u1
              [(u1, p1); (u2, p2); (u3, p3)] w3
              [[Demo.speeder]; [Demo.walker]; [Demo.pod]] 4)
    as [Hret Hcalls].
  - apply (Chain_page E _ _ p1 u2 w1); [reflexivity..|].
    apply (Chain_page E _ _ p2 u3 w2); [reflexivity..|].
    apply (Chain_page E _ _ p3 (JStr EmptyString) w3); [reflexivity..|].
    apply Chain_end. reflexivity.
  - repeat constructor.
  - cbn. lia.
  - exists w3. split; [exact Hret|]. split; [exact Hcalls|reflexivity].
Defined.

(** the end-to-end example of the specification: one page, [next] null *)
Example single_page_one_fetch :
  let url := "https://swapi.example/api/vehicles" in
  let E := Demo.calm [(url, Demo.page [Demo.speeder] JNull)] 0 in
  exists w',
    fetch_vehicles_paginated (H := Demo.python) E 2 (JStr url) Demo.cold
    = Some (Ok (JObj [("results", JArr [Demo.speeder])]), w') /\
    fetches (log w') = 1.
Proof. eexists. split; reflexivity. Qed.

Lemma walker_loops_on_revisit_witness :
  let url := JStr "https://swapi.example/api/vehicles" in
  let E := Demo.calm [("https://swapi.example/api/vehicles",
                       Demo.page [Demo.speeder] url)] 0 in
  fetch_vehicles_paginated (H := Demo.python) E 1000 url Demo.cold = None.
Proof.
  intros url E.
  eapply (proj1 (walker_loops_on_revisit (H := Demo.python) E Demo.cold url)
            0 1);
    [lia|reflexivity|reflexivity].
Defined.

(** * Properties of interleaved executions *)

Ltac step_cases Hstep :=
  unfold step in Hstep;
  repeat match type of Hstep with
         | context [match ?x with _ => _ end] =>
             let Hc := fresh "Hc" in destruct x eqn:Hc; try discriminate Hstep
         end;
  try (injection Hstep as <-).

Section Gate.

Context `{Python}.

Lemma count_app p l1 l2 : count p (l1 ++ l2) = count p l1 + count p l2.
Proof. induction l1 as [|t l1 IH]; cbn; [done|]. rewrite IH. lia. Qed.

Lemma count_insert p l : forall i t t',
  l !! i = Some t ->
  count p (<[i := t']> l) + (if p t then 1 else 0)
  = count p l + (if p t' then 1 else 0).
Proof.
  induction l as [|x l IH]; intros [|i] t t'; simpl; try done.
  - intros [= ->]. destruct (p t), (p t'); lia.
  - intros Hi. specialize (IH i t t' Hi).
    rewrite <- !Nat.add_assoc. by rewrite IH.
Qed.

Lemma count_none p l : Forall (fun t => p t = false) l -> count p l = 0.
Proof. induction 1 as [|t l Ht _ IH]; cbn; [done|]. by rewrite Ht, IH. Qed.

Lemma count_le p q l :
  (forall t, p t = true -> q t = true) -> count p l <= count q l.
Proof.
  intros Hpq. induction l as [|t l IH]; cbn; [done|].
  destruct (p t) eqn:Hp; [rewrite (Hpq _ Hp)|destruct (q t)]; lia.
Qed.

Lemma batch_tasks_waiting o prefix urls ttl :
  Forall (fun t => t_pc t = Waiting /\ t_owner t = Some o)
         (batch_tasks o prefix urls ttl).
Proof.
  unfold batch_tasks. apply Forall_map, Forall_forall. intros url _.
  destruct (fetch_single_key_total prefix url) as (suffix & _ & ->). done.
Qed.

Lemma holding_at_pc p t : holding (at_pc p t) = gated t && in_flight p.
Proof. reflexivity. Qed.

Lemma balanced_suspend s i t p :
  balanced s -> s_tasks s !! i = Some t ->
  in_flight (t_pc t) = in_flight p ->
  balanced (suspend i t p s).
Proof.
  unfold balanced, suspend; simpl. intros Hbal Hi Hpc.
  pose proof (count_insert holding _ i t (at_pc p t) Hi) as Hcount.
  rewrite holding_at_pc, <- Hpc in Hcount. fold (holding t) in Hcount.
  destruct (holding t); lia.
Qed.

Lemma balanced_finish s i t r :
  balanced s -> s_tasks s !! i = Some t ->
  in_flight (t_pc t) = true ->
  balanced (finish i t r s).
Proof.
  unfold balanced, finish; simpl. intros Hbal Hi Hpc.
  pose proof (count_insert holding _ i t (at_pc (Finished r) t) Hi) as Hcount.
  assert (holding t = gated t) as Hold
    by (unfold holding; rewrite Hpc; apply andb_true_r).
  rewrite holding_at_pc, Hold in Hcount. simpl in Hcount.
  rewrite andb_false_r in Hcount.
  destruct (gated t); lia.
Qed.

Lemma balanced_begin s i t :
  balanced s -> s_tasks s !! i = Some t -> t_pc t = Waiting ->
  (if gated t then 0 < s_sem s else True) ->
  balanced (begin i t (if gated t then take_slot s else s)).
Proof.
  unfold balanced, begin. intros Hbal Hi Hpc Hsem.
  assert (holding t = false) as Hold
    by (unfold holding; rewrite Hpc; apply andb_false_r).
  assert (forall r, count holding (<[i := at_pc (Finished r) t]> (s_tasks s))
                    = count holding (s_tasks s)) as Hfin.
  { intros r.
    pose proof (count_insert holding _ i t (at_pc (Finished r) t) Hi) as Hc.
    rewrite Hold, holding_at_pc in Hc. simpl in Hc.
    rewrite andb_false_r in Hc. lia. }
  pose proof (count_insert holding _ i t (at_pc AwaitConnect t) Hi) as Hsus.
  rewrite Hold, holding_at_pc in Hsus. simpl in Hsus.
  rewrite andb_true_r in Hsus.
  destruct (gated t) eqn:Hg; simpl;
    destruct (s_inproc s !! t_key t); unfold finish, suspend; simpl;
    rewrite ?Hg, ?Hfin; lia.
Qed.

Lemma step_balanced ev s s' :
  balanced s -> step ev s = Some s' -> balanced s'.
Proof.
  intros Hbal Hstep. destruct ev as [k url ttl|prefix urls ttl|i|i ok|i fault
                                    |i r|i fault|i|k]; cbn [step] in Hstep.
  - injection Hstep as <-. unfold balanced in *; simpl.
    rewrite count_app. simpl. lia.
  - injection Hstep as <-. unfold balanced in *; simpl.
    rewrite count_app, (count_none holding (batch_tasks _ _ _ _)); [lia|].
    eapply Forall_impl; [apply batch_tasks_waiting|].
    intros t [Hpc _]. unfold holding. rewrite Hpc. apply andb_false_r.
  - destruct (s_tasks s !! i) as [t|] eqn:Hi; [|done].
    destruct (t_pc t) eqn:Hpc; try done.
    pose proof (balanced_begin s i t Hbal Hi Hpc) as Hb.
    destruct (gated t) eqn:Hg.
    + destruct (s_sem s) eqn:Hsem; [done|].
      injection Hstep as <-. apply Hb. lia.
    + injection Hstep as <-. by apply Hb.
  - destruct (s_tasks s !! i) as [t|] eqn:Hi; [|done].
    destruct (t_pc t) eqn:Hpc; try done.
    injection Hstep as <-. destruct ok.
    + apply balanced_suspend; [done..|by rewrite Hpc].
    + apply balanced_finish; [done..|by rewrite Hpc].
  - destruct (s_tasks s !! i) as [t|] eqn:Hi; [|done].
    destruct (t_pc t) eqn:Hpc; try done.
    injection Hstep as <-. destruct fault as [e|].
    + apply balanced_finish; [done..|by rewrite Hpc].
    + destruct (usable (s_redis s !! t_key t)).
      * apply balanced_finish; [exact Hbal|exact Hi|by rewrite Hpc].
      * apply balanced_suspend; [done..|by rewrite Hpc].
  - destruct (s_tasks s !! i) as [t|] eqn:Hi; [|done].
    destruct (t_pc t) eqn:Hpc; try done.
    injection Hstep as <-. destruct r as [data|e].
    + apply balanced_suspend; [done..|by rewrite Hpc].
    + apply balanced_finish; [done..|by rewrite Hpc].
  - destruct (s_tasks s !! i) as [t|] eqn:Hi; [|done].
    destruct (t_pc t) eqn:Hpc; try done.
    injection Hstep as <-.
    destruct fault; (apply balanced_finish; [exact Hbal|exact Hi|by rewrite Hpc]).
  - destruct (s_tasks s !! i) as [t|] eqn:Hi; [|done].
    assert (forall s0,
               Some (mkSys (s_inproc s) (s_redis s)
                       (if holding t then S (s_sem s) else s_sem s)
                       (<[i := at_pc Cancelled t]> (s_tasks s))
                       (s_done s) (s_batches s)) = Some s0 ->
               balanced s0) as Hcancel.
    { intros s0 [= <-]. unfold balanced in *; simpl.
      pose proof (count_insert holding _ i t (at_pc Cancelled t) Hi) as Hc.
      rewrite holding_at_pc in Hc. simpl in Hc. rewrite andb_false_r in Hc.
      destruct (holding t); lia. }
    destruct (t_pc t); try done;
      (destruct (existsb _ (s_tasks s)); [by apply Hcancel|done]).
  - injection Hstep as <-. exact Hbal.
Qed.

Lemma run_balanced evs : forall s s',
  balanced s -> run evs s = Some s' -> balanced s'.
Proof.
  induction evs as [|ev evs IH]; intros s s' Hbal; cbn [run].
  - by intros [= <-].
  - destruct (step ev s) as [s1|] eqn:Hstep; [|done].
    apply IH. by eapply step_balanced.
Qed.

(** a step leaves the tasks where they are and changes at most their
    program counter *)
Lemma step_tasks ev s s' i t :
  step ev s = Some s' -> s_tasks s !! i = Some t ->
  exists p, s_tasks s' !! i = Some (at_pc p t).
Proof.
  assert (t = at_pc (t_pc t) t) as Hsame by (by destruct t).
  assert (forall (j : nat) (u : task) (q : pc) (l : list task),
            l !! j = Some u -> l !! i = Some t ->
            exists p, <[j := at_pc q u]> l !! i = Some (at_pc p t)) as Hins.
  { intros j u q l Hj Hi. destruct (decide (j = i)) as [->|Hne].
    - exists q. rewrite list_lookup_insert_eq by (by eapply lookup_lt_Some).
      congruence.
    - exists (t_pc t). rewrite list_lookup_insert_ne by done. congruence. }
  intros Hstep Hi.
  destruct ev as [k url ttl|prefix urls ttl|j|j ok|j fault|j r|j fault|j|k];
    cbn [step] in Hstep.
  - injection Hstep as <-. exists (t_pc t). simpl.
    rewrite lookup_app_l by (by eapply lookup_lt_Some). congruence.
  - injection Hstep as <-. exists (t_pc t). simpl.
    rewrite lookup_app_l by (by eapply lookup_lt_Some). congruence.
  - destruct (s_tasks s !! j) as [u|] eqn:Hj; [|done].
    destruct (t_pc u); try done.
    assert (forall s0, s_tasks s0 = s_tasks s ->
              exists p, s_tasks (begin j u s0) !! i = Some (at_pc p t)) as Hb.
    { intros s0 Hs0. unfold begin.
      destruct (s_inproc s0 !! t_key u); simpl; rewrite Hs0; by eapply Hins. }
    destruct (gated u).
    + destruct (s_sem s); [done|]. injection Hstep as <-. by apply Hb.
    + injection Hstep as <-. by apply Hb.
  - destruct (s_tasks s !! j) as [u|] eqn:Hj; [|done].
    destruct (t_pc u); try done. injection Hstep as <-.
    destruct ok; simpl; by eapply Hins.
  - destruct (s_tasks s !! j) as [u|] eqn:Hj; [|done].
    destruct (t_pc u); try done. injection Hstep as <-.
    destruct fault; [simpl; by eapply Hins|].
    destruct (usable _); simpl; by eapply Hins.
  - destruct (s_tasks s !! j) as [u|] eqn:Hj; [|done].
    destruct (t_pc u); try done. injection Hstep as <-.
    destruct r; simpl; by eapply Hins.
  - destruct (s_tasks s !! j) as [u|] eqn:Hj; [|done].
    destruct (t_pc u); try done. injection Hstep as <-.
    destruct fault; simpl; by eapply Hins.
  - destruct (s_tasks s !! j) as [u|] eqn:Hj; [|done].
    destruct (t_pc u); try done;
      (destruct (existsb _ (s_tasks s)); [|done]);
      injection Hstep as <-; simpl; by eapply Hins.
  - injection Hstep as <-. exists (t_pc t). simpl. congruence.
Qed.

(** a step either adds tasks (or touches none) and leaves the semaphore
    alone, or moves one task and settles its slot *)
Lemma step_shape ev s s' :
  step ev s = Some s' ->
  (exists new, s_tasks s' = s_tasks s ++ new /\ s_sem s' = s_sem s) \/
  (exists j u p,
      s_tasks s !! j = Some u /\
      s_tasks s' = <[j := at_pc p u]> (s_tasks s) /\
      s_sem s' + slots (at_pc p u) = s_sem s + slots u).
Proof.
  intros Hstep.
  assert (forall j u r s0,
             in_flight (t_pc u) = true -> s_sem s0 = s_sem s ->
             s_sem (finish j u r s0) + slots (at_pc (Finished r) u)
             = s_sem s + slots u) as Hfin.
  { intros j u r s0 Hu Hs0. unfold finish, slots, holding; simpl.
    rewrite Hu, Hs0, andb_false_r. destruct (gated u); simpl; lia. }
  assert (forall j u p,
             in_flight (t_pc u) = in_flight p ->
             s_sem (suspend j u p s) + slots (at_pc p u)
             = s_sem s + slots u) as Hsus.
  { intros j u p Hu. unfold suspend, slots, holding; simpl. by rewrite Hu. }
  destruct ev as [k url ttl|prefix urls ttl|j|j ok|j fault|j r|j fault|j|k];
    cbn [step] in Hstep.
  - injection Hstep as <-. left. by eexists.
  - injection Hstep as <-. left. by eexists.
  - destruct (s_tasks s !! j) as [u|] eqn:Hj; [|done].
    destruct (t_pc u) eqn:Hpc; try done. right.
    assert (slots u = 0) as Hu
      by (unfold slots, holding; rewrite Hpc; by rewrite andb_false_r).
    destruct (gated u) eqn:Hg.
    + destruct (s_sem s) as [|n] eqn:Hsem; [done|]. injection Hstep as <-.
      unfold begin; simpl. destruct (s_inproc s !! t_key u).
      * exists j, u, (Finished (Ok j0)). split; [done|]. split; [done|].
        rewrite Hu. unfold slots. rewrite holding_at_pc, Hg. simpl.
        rewrite Hg. simpl. lia.
      * exists j, u, AwaitConnect. split; [done|]. split; [done|].
        rewrite Hu. unfold slots. rewrite holding_at_pc, Hg. simpl. lia.
    + injection Hstep as <-.
      unfold begin; simpl. destruct (s_inproc s !! t_key u).
      * exists j, u, (Finished (Ok j0)). split; [done|]. split; [done|].
        rewrite Hu. unfold slots. rewrite holding_at_pc, Hg. simpl.
        rewrite ?Hg. simpl. lia.
      * exists j, u, AwaitConnect. split; [done|]. split; [done|].
        rewrite Hu. unfold slots. rewrite holding_at_pc, Hg. simpl.
        rewrite ?Hg. simpl. lia.
  - destruct (s_tasks s !! j) as [u|] eqn:Hj; [|done].
    destruct (t_pc u) eqn:Hpc; try done. injection Hstep as <-. right.
    destruct ok.
    + exists j, u, AwaitRedisGet. split; [done|]. split; [done|].
      apply Hsus. by rewrite Hpc.
    + exists j, u, (Finished (Raise ConnectionError)).
      split; [done|]. split; [done|]. apply Hfin; [by rewrite Hpc|done].
  - destruct (s_tasks s !! j) as [u|] eqn:Hj; [|done].
    destruct (t_pc u) eqn:Hpc; try done. injection Hstep as <-. right.
    destruct fault as [e|].
    + exists j, u, (Finished (Raise e)).
      split; [done|]. split; [done|]. apply Hfin; [by rewrite Hpc|done].
    + destruct (usable (s_redis s !! t_key u)) as [data|].
      * exists j, u, (Finished (Ok data)).
        split; [done|]. split; [done|]. apply Hfin; [by rewrite Hpc|done].
      * exists j, u, AwaitFetch. split; [done|]. split; [done|].
        apply Hsus. by rewrite Hpc.
  - destruct (s_tasks s !! j) as [u|] eqn:Hj; [|done].
    destruct (t_pc u) eqn:Hpc; try done. injection Hstep as <-. right.
    destruct r as [data|e].
    + exists j, u, (AwaitRedisSet data). split; [done|]. split; [done|].
      apply Hsus. by rewrite Hpc.
    + exists j, u, (Finished (Raise e)).
      split; [done|]. split; [done|]. apply Hfin; [by rewrite Hpc|done].
  - destruct (s_tasks s !! j) as [u|] eqn:Hj; [|done].
    destruct (t_pc u) eqn:Hpc; try done. injection Hstep as <-. right.
    exists j, u, (Finished (Ok data)).
    split; [done|]. split; [by destruct fault|].
    destruct fault; (apply Hfin; [by rewrite Hpc|done]).
  - destruct (s_tasks s !! j) as [u|] eqn:Hj; [|done]. right.
    exists j, u, Cancelled. split; [done|].
    assert (s' = mkSys (s_inproc s) (s_redis s)
                   (if holding u then S (s_sem s) else s_sem s)
                   (<[j := at_pc Cancelled u]> (s_tasks s))
                   (s_done s) (s_batches s)) as ->.
    { destruct (t_pc u); try done;
        (destruct (existsb _ (s_tasks s)); [|done]); by injection Hstep. }
    split; [done|]. unfold slots at 1. rewrite holding_at_pc. simpl.
    rewrite andb_false_r. unfold slots. destruct (holding u); lia.
  - injection Hstep as <-. left. exists []. by rewrite app_nil_r.
Qed.

(** C4.  In every state reached from the start of the process, by any
    number of calls of [parallel_cached_get] and [cached_get] interleaved
    in any way, at most five fetches admitted through the gate are in
    flight; the free slots and the tasks inside [async with SEMAPHORE]
    always add up to five; and the step in which such a task completes,
    with a value or with an exception, gives its slot back. *)
Theorem gate_admits_at_most_five (evs : list sched) (s : Sys) :
  run evs boot = Some s ->
  count fetching (s_tasks s) <= 5 /\
  s_sem s + count holding (s_tasks s) = 5 /\
  (forall ev s' i t r,
      step ev s = Some s' ->
      s_tasks s !! i = Some t -> holding t = true ->
      s_tasks s' !! i = Some (at_pc (Finished r) t) ->
      s_sem s' = S (s_sem s)).
Proof.
  intros Hrun.
  assert (balanced s) as Hbal by (by eapply run_balanced; [|exact Hrun]).
  split; [|split; [exact Hbal|]].
  - unfold balanced, GATE_LIMIT in Hbal.
    pose proof (count_le fetching holding (s_tasks s)) as Hle.
    assert (count fetching (s_tasks s) <= count holding (s_tasks s)); [|lia].
    apply Hle. intros t. unfold fetching, holding.
    destruct (gated t); [|done]. by destruct (t_pc t).
  - intros ev s' i t r Hstep Hi Hold Hi'.
    assert (t_pc t <> Finished r) as Hnot.
    { intros Hpc. unfold holding in Hold. rewrite Hpc in Hold.
      by rewrite andb_false_r in Hold. }
    assert (at_pc (Finished r) t <> t) as Hdiff.
    { intros Heq. apply Hnot. by rewrite <- Heq. }
    destruct (step_shape _ _ _ Hstep)
      as [(new & Htasks & _)|(j & u & p & Hj & Htasks & Hsem)].
    + rewrite Htasks, lookup_app_l in Hi' by (by eapply lookup_lt_Some).
      congruence.
    + rewrite Htasks in Hi'. destruct (decide (j = i)) as [->|Hne].
      * rewrite list_lookup_insert_eq in Hi' by (by eapply lookup_lt_Some).
        assert (u = t) as -> by congruence.
        injection Hi' as Hp. rewrite Hp in Hsem.
        unfold slots in Hsem. rewrite Hold, holding_at_pc in Hsem.
        simpl in Hsem. rewrite andb_false_r in Hsem. lia.
      * rewrite list_lookup_insert_ne in Hi' by done. congruence.
Qed.

End Gate.

Lemma gate_admits_at_most_five_witness :
  exists s,
    run (H := Demo.python) five_fetching boot = Some s /\
    count fetching (s_tasks s) = 5 /\
    s_sem s = 0 /\
    step (H := Demo.python) (Start 5) s = None /\
    exists s', step (H := Demo.python)
                 (Fetched 2 (Raise (ClientResponseError 500))) s = Some s' /\
               s_sem s' = 1.
Proof.
  destruct (run (H := Demo.python) five_fetching boot) as [s|] eqn:Hrun;
    [|vm_compute in Hrun; discriminate Hrun].
  exists s. split; [reflexivity|].
  destruct (gate_admits_at_most_five (H := Demo.python) five_fetching s Hrun)
    as (Hbound & Hbal & Hfree).
  vm_compute in Hrun. injection Hrun as <-.
  split; [vm_compute; reflexivity|]. split; [vm_compute; reflexivity|].
  split; [vm_compute; reflexivity|].
  eexists. split; [vm_compute; reflexivity|].
  eapply (Hfree (Fetched 2 (Raise (ClientResponseError 500))) _ 2);
    vm_compute; reflexivity.
Defined.

(** ** What a step does to the tasks, the completion order and the
    process-local tier *)

Section Moves.

Context `{Python}.

Lemma step_moves ev s s' :
  step ev s = Some s' ->
  (exists new, spawned s new s') \/ (exists j u p, moved s j u p s').
Proof.
  intros Hstep.
  destruct ev as [k url ttl|prefix urls ttl|j|j ok|j fault|j r|j fault|j|k];
    cbn [step] in Hstep.
  - injection Hstep as <-. left. eexists. repeat split; simpl; try done.
    repeat constructor.
  - injection Hstep as <-. left. eexists. repeat split; simpl; try done; [lia|].
    eapply Forall_impl; [apply batch_tasks_waiting|].
    intros t [Hpc Ho]. split; [done|]. right. done.
  - destruct (s_tasks s !! j) as [u|] eqn:Hj; [|done].
    destruct (t_pc u) eqn:Hpc; try done. right.
    assert (forall s0, s_inproc s0 = s_inproc s -> s_tasks s0 = s_tasks s ->
              s_done s0 = s_done s -> s_batches s0 = s_batches s ->
              exists p, moved s j u p (begin j u s0)) as Hb.
    { intros s0 Hin Hts Hdn Hbt. unfold begin. rewrite Hin.
      destruct (s_inproc s !! t_key u) as [v|] eqn:Hk.
      - exists (Finished (Ok v)). unfold moved, finish; simpl.
        rewrite Hin, Hts, Hdn, Hbt, Hpc, Hk.
        repeat split; try done; [by right|by left].
      - exists AwaitConnect. unfold moved, suspend; simpl.
        rewrite Hin, Hts, Hdn, Hbt, Hpc, Hk.
        repeat split; try done; [by right|by left]. }
    destruct (gated u).
    + destruct (s_sem s); [done|]. injection Hstep as <-.
      destruct (Hb (take_slot s)) as [p Hp]; try done. by exists j, u, p.
    + injection Hstep as <-.
      destruct (Hb s) as [p Hp]; try done. by exists j, u, p.
  - destruct (s_tasks s !! j) as [u|] eqn:Hj; [|done].
    destruct (t_pc u) eqn:Hpc; try done. injection Hstep as <-. right.
    destruct ok; eexists j, u, _; unfold moved, suspend, finish; simpl;
      rewrite Hpc; repeat split; try done; by left.
  - destruct (s_tasks s !! j) as [u|] eqn:Hj; [|done].
    destruct (t_pc u) eqn:Hpc; try done. injection Hstep as <-. right.
    destruct fault as [e|]; [|destruct (usable (s_redis s !! t_key u)) as [d|]];
      eexists j, u, _; unfold moved, suspend, finish, store_inproc; simpl;
      rewrite Hpc; repeat split; try done; try (by left).
    right. split; [done|]. by exists d.
  - destruct (s_tasks s !! j) as [u|] eqn:Hj; [|done].
    destruct (t_pc u) eqn:Hpc; try done. injection Hstep as <-. right.
    destruct r; eexists j, u, _; unfold moved, suspend, finish; simpl;
      rewrite Hpc; repeat split; try done; by left.
  - destruct (s_tasks s !! j) as [u|] eqn:Hj; [|done].
    destruct (t_pc u) eqn:Hpc; try done. injection Hstep as <-. right.
    exists j, u, (Finished (Ok data)).
    unfold moved, finish, store_inproc, store_redis; simpl. rewrite Hpc.
    repeat split; try done; try (by destruct fault).
    right. split; [done|]. exists data. by destruct fault.
  - destruct (s_tasks s !! j) as [u|] eqn:Hj; [|done]. right.
    exists j, u, Cancelled.
    assert (live (t_pc u) = true /\
            s' = mkSys (s_inproc s) (s_redis s)
                   (if holding u then S (s_sem s) else s_sem s)
                   (<[j := at_pc Cancelled u]> (s_tasks s))
                   (s_done s) (s_batches s)) as [Hlive ->].
    { destruct (t_pc u); try done;
        (destruct (existsb _ (s_tasks s)); [|done]); by injection Hstep. }
    unfold moved; simpl. repeat split; try done; by left.
  - injection Hstep as <-. left. exists []. unfold spawned; simpl.
    rewrite app_nil_r. repeat split; try done.
Qed.

End Moves.

(** ** Calls of [parallel_cached_get] *)

Section Batches.

Context `{Python}.

Lemma run_invariant (I : Sys -> Prop) :
  (forall ev s s', I s -> step ev s = Some s' -> I s') ->
  forall evs s s', I s -> run evs s = Some s' -> I s'.
Proof.
  intros Hstep. induction evs as [|ev evs IH]; intros s s' Hs; cbn [run].
  - by intros [= <-].
  - destruct (step ev s) as [s1|] eqn:Hs1; [|done]. apply IH. eauto.
Qed.

Lemma step_done_ok ev s s' : done_ok s -> step ev s = Some s' -> done_ok s'.
Proof.
  intros [Hnd Hin] Hstep.
  destruct (step_moves _ _ _ Hstep)
    as [(new & Hts & Hdn & _ & _ & _ & Hnew)
       |(j & u & p & Hj & Hlive & Hts & Hdn & _)].
  - split; [by rewrite Hdn|]. intros i. rewrite Hdn, Hin, Hts. split.
    + intros (t & Hi & Hfin). exists t. split; [|done].
      rewrite lookup_app_l; [done|by eapply lookup_lt_Some].
    + intros (t & Hi & Hfin). exists t. split; [|done].
      apply lookup_app_Some in Hi as [Hi|[_ Hi]]; [done|].
      apply list_elem_of_lookup_2 in Hi.
      rewrite Forall_forall in Hnew. destruct (Hnew _ Hi) as [Hw _].
      by rewrite Hw in Hfin.
  - assert (j ∉ s_done s) as Hfreshj.
    { rewrite Hin. intros (t & Ht & Hfin). assert (t = u) as -> by congruence.
      by destruct (t_pc u). }
    assert (j < length (s_tasks s)) as Hlen by (by eapply lookup_lt_Some).
    unfold done_after in Hdn. split.
    + rewrite Hdn. destruct (is_finished p); [|done].
      apply NoDup_app. split; [done|]. split; [|apply NoDup_singleton].
      intros x Hx Hx'. apply list_elem_of_singleton in Hx'. by subst.
    + intros i. rewrite Hdn, Hts. destruct (decide (i = j)) as [->|Hne].
      * rewrite list_lookup_insert_eq by done. split.
        -- intros Hj'. exists (at_pc p u). split; [done|]. simpl.
           destruct (is_finished p); [done|]. by apply Hfreshj in Hj'.
        -- intros (t & [= <-] & Hfin). simpl in Hfin. rewrite Hfin.
           apply elem_of_app. right. by apply list_elem_of_singleton.
      * rewrite list_lookup_insert_ne by done. rewrite <- Hin.
        destruct (is_finished p); [|done]. rewrite elem_of_app.
        rewrite list_elem_of_singleton. naive_solver.
Qed.

Lemma step_fresh ev s s' : fresh s -> step ev s = Some s' -> fresh s'.
Proof.
  intros Hfresh Hstep.
  destruct (step_moves _ _ _ Hstep)
    as [(new & Hts & _ & _ & _ & Hle & Hnew)
       |(j & u & p & Hj & _ & Hts & _ & Hbt & _)];
    intros i t a Hi Ha; rewrite Hts in Hi.
  - apply lookup_app_Some in Hi as [Hi|[_ Hi]].
    + specialize (Hfresh _ _ _ Hi Ha). lia.
    + apply list_elem_of_lookup_2 in Hi. rewrite Forall_forall in Hnew.
      destruct (Hnew _ Hi) as [_ [Hn|[Ho Hs]]]; [congruence|].
      assert (a = s_batches s) by congruence. lia.
  - rewrite Hbt. destruct (decide (i = j)) as [->|Hne].
    + rewrite list_lookup_insert_eq in Hi by (by eapply lookup_lt_Some).
      injection Hi as <-. by eapply Hfresh.
    + rewrite list_lookup_insert_ne in Hi by done. by eapply Hfresh.
Qed.

Lemma step_placed o n0 k ev s s' :
  placed o n0 k s -> step ev s = Some s' -> placed o n0 k s'.
Proof.
  intros (Ho & Hlen & Hown) Hstep.
  destruct (step_moves _ _ _ Hstep)
    as [(new & Hts & _ & _ & _ & Hle & Hnew)
       |(j & u & p & Hj & _ & Hts & _ & Hbt & _)].
  - split; [lia|]. split; [rewrite Hts, length_app; lia|].
    intros i t Hi. rewrite Hts in Hi.
    apply lookup_app_Some in Hi as [Hi|[Hge Hi]]; [by apply Hown|].
    apply list_elem_of_lookup_2 in Hi. rewrite Forall_forall in Hnew.
    split; [|lia]. intros Hot. unfold owned in Hot.
    destruct (Hnew _ Hi) as [_ [Hn|[Hs _]]].
    + by rewrite Hn in Hot.
    + rewrite Hs in Hot. apply Nat.eqb_eq in Hot. lia.
  - split; [lia|]. split; [by rewrite Hts, length_insert|].
    intros i t Hi. rewrite Hts in Hi.
    destruct (decide (i = j)) as [->|Hne].
    + rewrite list_lookup_insert_eq in Hi by (by eapply lookup_lt_Some).
      injection Hi as <-. by apply (Hown j u).
    + rewrite list_lookup_insert_ne in Hi by done. by apply Hown.
Qed.

Lemma boot_done_ok : done_ok boot.
Proof.
  split; [constructor|]. intros i. split.
  - by intros ?%elem_of_nil.
  - by intros (t & ? & _).
Qed.

Lemma boot_fresh : fresh boot.
Proof. by intros i t a ?. Qed.

(** *** Every call can be brought to its end *)

Lemma weight_insert l : forall i t t',
  l !! i = Some t ->
  weight (<[i := t']> l) + rem (t_pc t) = weight l + rem (t_pc t').
Proof.
  induction l as [|x l IH]; intros [|i] t t'; simpl; try done.
  - intros [= ->]. lia.
  - intros Hi. specialize (IH i t t' Hi). lia.
Qed.

Lemma weight_pos l :
  0 < weight l -> exists i t, l !! i = Some t /\ 0 < rem (t_pc t).
Proof.
  induction l as [|x l IH]; simpl; [lia|]. intros Hpos.
  destruct (rem (t_pc x)) eqn:Hx.
  - destruct IH as (i & t & Hi & Ht); [lia|]. by exists (S i), t.
  - exists 0, x. split; [done|lia].
Qed.

Lemma weight_zero l i t :
  weight l = 0 -> l !! i = Some t -> rem (t_pc t) = 0.
Proof.
  revert i. induction l as [|x l IH]; intros [|i]; simpl; try done.
  - intros Hw [= ->]. lia.
  - intros Hw Hi. apply (IH i); [lia|done].
Qed.

Lemma count_pos p l :
  0 < count p l -> exists i t, l !! i = Some t /\ p t = true.
Proof.
  induction l as [|x l IH]; simpl; [lia|]. intros Hpos.
  destruct (p x) eqn:Hx.
  - by exists 0, x.
  - destruct IH as (i & t & Hi & Ht); [lia|]. by exists (S i), t.
Qed.

Lemma exists_ready s :
  balanced s -> 0 < weight (s_tasks s) ->
  exists i t, s_tasks s !! i = Some t /\ live (t_pc t) = true /\
              (t_pc t = Waiting -> gated t = true -> 0 < s_sem s).
Proof.
  unfold balanced, GATE_LIMIT. intros Hbal Hw.
  destruct (s_sem s) as [|n] eqn:Hsem.
  - destruct (count_pos holding (s_tasks s)) as (i & t & Hi & Ht); [lia|].
    exists i, t. split; [done|]. unfold holding in Ht.
    apply andb_prop in Ht as [_ Ht]. by destruct (t_pc t).
  - destruct (weight_pos _ Hw) as (i & t & Hi & Ht).
    exists i, t. split; [done|]. split; [|lia]. destruct (t_pc t); simpl in *; done || lia.
Qed.

Lemma nudge_step s i t :
  s_tasks s !! i = Some t -> live (t_pc t) = true ->
  (t_pc t = Waiting -> gated t = true -> 0 < s_sem s) ->
  exists s' p,
    step (nudge i t) s = Some s' /\
    s_tasks s' = <[i := at_pc p t]> (s_tasks s) /\
    s_batches s' = s_batches s /\
    rem p < rem (t_pc t) /\ clean p = true.
Proof.
  intros Hi Hlive Hsem. unfold nudge.
  destruct (t_pc t) eqn:Hpc; try done; cbn [step]; rewrite Hi, Hpc.
  - destruct (gated t) eqn:Hg.
    + destruct (s_sem s) as [|n] eqn:Hs; [specialize (Hsem eq_refl eq_refl); lia|].
      unfold begin; simpl. destruct (s_inproc s !! t_key t) as [v|].
      * exists (finish i t (Ok v) (take_slot s)), (Finished (Ok v)).
        repeat split; simpl; lia.
      * exists (suspend i t AwaitConnect (take_slot s)), AwaitConnect.
        repeat split; simpl; lia.
    + unfold begin. destruct (s_inproc s !! t_key t) as [v|].
      * exists (finish i t (Ok v) s), (Finished (Ok v)).
        repeat split; simpl; lia.
      * exists (suspend i t AwaitConnect s), AwaitConnect.
        repeat split; simpl; lia.
  - eexists _, AwaitRedisGet. repeat split; simpl; lia.
  - destruct (usable (s_redis s !! t_key t)) as [d|].
    + eexists _, (Finished (Ok d)). repeat split; simpl; lia.
    + eexists _, AwaitFetch. repeat split; simpl; lia.
  - eexists _, (AwaitRedisSet JNull). repeat split; simpl; lia.
  - eexists _, (Finished (Ok data)). repeat split; simpl; lia.
Qed.

Lemma at_pc_at_pc p q t : at_pc p (at_pc q t) = at_pc p t.
Proof. reflexivity. Qed.

Lemma at_pc_same t : at_pc (t_pc t) t = t.
Proof. by destruct t. Qed.

(** from a balanced state, some schedule completes every task that is
    still live, none of them by a failure *)
Lemma drain n : forall s,
  weight (s_tasks s) <= n -> balanced s ->
  exists evs s',
    run evs s = Some s' /\
    weight (s_tasks s') = 0 /\
    s_batches s' = s_batches s /\
    forall j u, s_tasks s !! j = Some u ->
                exists p, s_tasks s' !! j = Some (at_pc p u) /\
                          (clean (t_pc u) = true -> clean p = true).
Proof.
  induction n as [|n IH]; intros s Hw Hbal.
  - exists [], s. split; [done|]. split; [lia|]. split; [done|].
    intros j u Hj. exists (t_pc u). by rewrite at_pc_same.
  - destruct (decide (weight (s_tasks s) = 0)) as [Hz|Hnz].
    { exists [], s. split; [done|]. split; [done|]. split; [done|].
      intros j u Hj. exists (t_pc u). by rewrite at_pc_same. }
    destruct (exists_ready s Hbal) as (i & t & Hi & Hlive & Hsem); [lia|].
    destruct (nudge_step s i t Hi Hlive Hsem)
      as (s1 & p & Hstep & Hts & Hbt1 & Hrem & Hclean).
    pose proof (weight_insert _ i t (at_pc p t) Hi) as Hwi. simpl in Hwi.
    rewrite <- Hts in Hwi.
    destruct (IH s1) as (evs & s' & Hrun & Hz & Hbt & Hall);
      [lia|by eapply step_balanced|].
    exists (nudge i t :: evs), s'. cbn [run]. rewrite Hstep.
    split; [done|]. split; [done|]. split; [congruence|].
    intros j u Hj. destruct (decide (j = i)) as [->|Hne].
    + assert (u = t) as -> by congruence.
      destruct (Hall i (at_pc p t)) as (q & Hq & Hcq).
      { rewrite Hts. apply list_lookup_insert_eq. by eapply lookup_lt_Some. }
      exists q. split; [done|]. intros _. by apply Hcq.
    + apply Hall. rewrite Hts. by rewrite list_lookup_insert_ne.
Qed.

Lemma run_tasks evs : forall s s' i t,
  run evs s = Some s' -> s_tasks s !! i = Some t ->
  exists p, s_tasks s' !! i = Some (at_pc p t).
Proof.
  induction evs as [|ev evs IH]; intros s s' i t; cbn [run].
  - intros [= <-] Hi. exists (t_pc t). by rewrite at_pc_same.
  - destruct (step ev s) as [s1|] eqn:Hstep; [|done]. intros Hrun Hi.
    destruct (step_tasks _ _ _ _ _ Hstep Hi) as [q Hq].
    destruct (IH _ _ _ _ Hrun Hq) as [p Hp]. by exists p.
Qed.

Lemma batch_tasks_lookup o prefix urls ttl j url :
  urls !! j = Some url ->
  exists k, fetch_single_key prefix url = Ok k /\
            batch_tasks o prefix urls ttl !! j
            = Some (mkTask (Some o) k (JStr url) ttl Waiting).
Proof.
  intros Hj. destruct (fetch_single_key_total prefix url) as (sfx & _ & Hk).
  eexists. split; [exact Hk|]. unfold batch_tasks.
  rewrite list_lookup_fmap, Hj. simpl. by rewrite Hk.
Qed.

Lemma batch_placed s0 prefix urls ttl :
  fresh s0 ->
  placed (s_batches s0) (length (s_tasks s0)) (length urls)
         (mkSys (s_inproc s0) (s_redis s0) (s_sem s0)
            (s_tasks s0 ++ batch_tasks (s_batches s0) prefix urls ttl)
            (s_done s0) (S (s_batches s0))).
Proof.
  intros Hfresh. split; [simpl; lia|]. split.
  { simpl. rewrite length_app. unfold batch_tasks. rewrite length_map. lia. }
  intros i t Hi. simpl in Hi.
  apply lookup_app_Some in Hi as [Hi|[Hge Hi]].
  - pose proof (lookup_lt_Some _ _ _ Hi) as Hlt. split; [|lia].
    unfold owned. destruct (t_owner t) as [a|] eqn:Ha; [|done].
    specialize (Hfresh _ _ _ Hi Ha). intros Heq%Nat.eqb_eq. lia.
  - pose proof (lookup_lt_Some _ _ _ Hi) as Hlt.
    unfold batch_tasks in Hlt. rewrite length_map in Hlt.
    split; [lia|]. intros _.
    apply list_elem_of_lookup_2 in Hi.
    pose proof (batch_tasks_waiting (s_batches s0) prefix urls ttl) as Hall.
    rewrite Forall_forall in Hall. destruct (Hall _ Hi) as [_ Ho].
    unfold owned. rewrite Ho. apply Nat.eqb_refl.
Qed.

Lemma omap_all_length {A B} (f : A -> option B) (l : list A) :
  (forall x, x ∈ l -> is_Some (f x)) -> length (omap f l) = length l.
Proof.
  induction l as [|x l IH]; intros Hall; simpl; [done|].
  destruct (Hall x) as [y Hy]; [by left|]. rewrite Hy. simpl. f_equal.
  apply IH. intros z Hz. apply Hall. by right.
Qed.

(** the tasks of a call, in completion order, are its tasks *)
Lemma done_of_returned o n0 k s :
  done_ok s -> placed o n0 k s -> returned o s ->
  filter (fun i => owned_at o s i = true) (s_done s) ≡ₚ seq n0 k.
Proof.
  intros [Hnd Hin] (_ & Hlen & Hown) Hret.
  apply NoDup_Permutation; [by apply NoDup_filter|apply NoDup_seq|].
  intros i. rewrite list_elem_of_filter, elem_of_seq. unfold owned_at. split.
  - intros [Ho _]. destruct (s_tasks s !! i) as [t|] eqn:Hi; [|done].
    by apply (Hown i t).
  - intros Hi. destruct (lookup_lt_is_Some_2 (s_tasks s) i) as [t Ht]; [lia|].
    rewrite Ht. assert (owned o t = true) as Ho by (by apply (Hown i t)).
    split; [done|]. apply Hin. exists t. split; [done|].
    destruct (Hret _ _ Ht Ho) as [v ->]. done.
Qed.

(** C5.  A call of [parallel_cached_get] on [urls], made in any reachable
    state, puts one task per URL behind the gate, each a [cached_get] for
    that URL under the key made of the prefix, an underscore and the last
    path segment of the URL, trailing slashes stripped
    ([last_path_segment], stated on the text of the URL alone).  Some
    interleaving brings the
    call to its return; and whenever it has returned, the list it returns
    holds exactly one result per URL: it is a permutation of the tasks'
    results taken in the order of the URLs (the order of completion need
    not be that order).  On an empty list the call adds no task and leaves
    both caches and the gate as they are, and returns the empty list. *)
Theorem parallel_cached_get_one_result_per_url
  (pre : list sched) (s0 s1 : Sys)
  (prefix : string) (urls : list string) (ttl : Z) :
  let o := s_batches s0 in
  let n0 := length (s_tasks s0) in
  run pre boot = Some s0 ->
  step (Batch prefix urls ttl) s0 = Some s1 ->
  (exists post s2, run post s1 = Some s2 /\ returned o s2) /\
  (forall post s2,
      run post s1 = Some s2 -> returned o s2 ->
      length (batch_results o s2) = length urls /\
      batch_results o s2 ≡ₚ omap (value_at s2) (seq n0 (length urls)) /\
      forall j url,
        urls !! j = Some url ->
        exists t v,
          s_tasks s2 !! (n0 + j) = Some t /\
          fetch_single_key prefix url = Ok (t_key t) /\
          (exists suffix,
              last_path_segment url suffix /\
              t_key t = prefix +:+ "_" +:+ suffix) /\
          t_url t = JStr url /\ t_ttl t = ttl /\
          t_pc t = Finished (Ok v)) /\
  (urls = [] ->
   s_inproc s1 = s_inproc s0 /\ s_redis s1 = s_redis s0 /\
   s_sem s1 = s_sem s0 /\ s_tasks s1 = s_tasks s0 /\
   returned o s1 /\ batch_results o s1 = []).
Proof.
  intros o n0 Hpre Hbatch.
  assert (done_ok s0) as Hd0
    by (eapply (run_invariant done_ok); [apply step_done_ok|apply boot_done_ok|done]).
  assert (fresh s0) as Hf0
    by (eapply (run_invariant fresh); [apply step_fresh|apply boot_fresh|done]).
  assert (balanced s0) as Hb0 by (by eapply run_balanced; [|exact Hpre]).
  assert (done_ok s1) as Hd1 by (by eapply step_done_ok).
  assert (balanced s1) as Hb1 by (by eapply step_balanced).
  assert (placed o n0 (length urls) s1) as Hp1.
  { cbn [step] in Hbatch. injection Hbatch as <-. by apply batch_placed. }
  assert (forall j url, urls !! j = Some url ->
            exists k, fetch_single_key prefix url = Ok k /\
                      s_tasks s1 !! (n0 + j)
                      = Some (mkTask (Some o) k (JStr url) ttl Waiting)) as Hat.
  { intros j url Hj. cbn [step] in Hbatch. injection Hbatch as <-. simpl.
    destruct (batch_tasks_lookup o prefix urls ttl j url Hj) as (k & Hk & Hl).
    exists k. split; [done|]. rewrite lookup_app_r by (unfold n0; lia).
    by replace (n0 + j - length (s_tasks s0)) with j by (unfold n0; lia). }
  assert (forall post s2, run post s1 = Some s2 ->
            done_ok s2 /\ placed o n0 (length urls) s2) as Hinv.
  { intros post s2 Hrun. split.
    - eapply (run_invariant done_ok); [apply step_done_ok|exact Hd1|done].
    - eapply (run_invariant (placed o n0 (length urls)));
        [apply step_placed|exact Hp1|done]. }
  assert (forall post s2,
      run post s1 = Some s2 -> returned o s2 ->
      length (batch_results o s2) = length urls /\
      batch_results o s2 ≡ₚ omap (value_at s2) (seq n0 (length urls)) /\
      forall j url,
        urls !! j = Some url ->
        exists t v,
          s_tasks s2 !! (n0 + j) = Some t /\
          fetch_single_key prefix url = Ok (t_key t) /\
          (exists suffix,
              last_path_segment url suffix /\
              t_key t = prefix +:+ "_" +:+ suffix) /\
          t_url t = JStr url /\ t_ttl t = ttl /\
          t_pc t = Finished (Ok v)) as Hafter.
  { intros post s2 Hrun Hret. destruct (Hinv _ _ Hrun) as [Hd2 Hp2].
    assert (batch_results o s2 ≡ₚ omap (value_at s2) (seq n0 (length urls)))
      as Hperm.
    { unfold batch_results. by rewrite (done_of_returned o n0 (length urls) s2). }
    split; [|split; [done|]].
    - rewrite Hperm, omap_all_length; [apply length_seq|].
      intros i Hi%elem_of_seq. destruct Hp2 as (_ & Hlen & Hown).
      destruct (lookup_lt_is_Some_2 (s_tasks s2) i) as [t Ht]; [lia|].
      assert (owned o t = true) as Ho by (by apply (Hown i t)).
      destruct (Hret _ _ Ht Ho) as [v Hv].
      exists v. unfold value_at. by rewrite Ht, Hv.
    - intros j url Hj. destruct (Hat j url Hj) as (k & Hk & Hl).
      destruct (run_tasks _ _ _ _ _ Hrun Hl) as [p Hp].
      destruct (Hret _ _ Hp) as [v Hv]; [simpl; apply Nat.eqb_refl|].
      eexists _, v. split; [exact Hp|]. split; [exact Hk|].
      split; [|by repeat split].
      destruct (fetch_single_key_total prefix url) as (suffix & Hs & Hks).
      exists suffix. split; [by apply last_segment_spec|].
      simpl. congruence. }
  split; [|split; [exact Hafter|]].
  - destruct (drain (weight (s_tasks s1)) s1) as (post & s2 & Hrun & Hz & _ & Hall);
      [done..|].
    exists post, s2. split; [done|]. intros i t Hi Ho.
    destruct (Hinv _ _ Hrun) as [_ (_ & _ & Hown2)].
    pose proof (proj1 (Hown2 i t Hi) Ho) as Hrange.
    assert (exists j url, i = n0 + j /\ urls !! j = Some url) as (j & url & -> & Hj).
    { exists (i - n0). destruct (lookup_lt_is_Some_2 urls (i - n0)) as [url Hu]; [lia|].
      exists url. split; [lia|done]. }
    destruct (Hat j url Hj) as (k & _ & Hl).
    destruct (Hall _ _ Hl) as (p & Hp & Hclean).
    assert (t = at_pc p (mkTask (Some o) k (JStr url) ttl Waiting)) as ->
      by congruence.
    pose proof (weight_zero _ _ _ Hz Hp) as Hrem. simpl in Hrem.
    specialize (Hclean eq_refl). simpl.
    destruct p as [| | | | |[v|e]|]; try done. by exists v.
  - intros ->.
    assert (s1 = mkSys (s_inproc s0) (s_redis s0) (s_sem s0)
                   (s_tasks s0) (s_done s0) (S (s_batches s0))) as Hs1.
    { cbn [step] in Hbatch. injection Hbatch as <-. simpl.
      by rewrite app_nil_r. }
    assert (returned o s1) as Hret.
    { rewrite Hs1. intros i t Hi Ho. simpl in Hi. unfold owned in Ho.
      destruct (t_owner t) as [a|] eqn:Ha; [|done].
      specialize (Hf0 _ _ _ Hi Ha). apply Nat.eqb_eq in Ho.
      unfold o in Ho. lia. }
    destruct (Hafter [] s1 eq_refl Hret) as (Hlen & _).
    apply nil_length_inv in Hlen.
    split; [by rewrite Hs1|]. split; [by rewrite Hs1|].
    split; [by rewrite Hs1|]. split; [by rewrite Hs1|]. done.
Qed.

End Batches.

Lemma parallel_cached_get_one_result_per_url_witness :
  exists s1 s2,
    step (H := Demo.python) (Batch "species" three_urls 3600) boot = Some s1 /\
    run (H := Demo.python) out_of_order s1 = Some s2 /\
    returned 0 s2 /\
    batch_results 0 s2 = [Demo.pod; Demo.speeder; Demo.walker] /\
    omap (value_at s2) (seq 0 3) = [Demo.speeder; Demo.walker; Demo.pod] /\
    length (batch_results 0 s2) = 3 /\
    batch_results 0 s2 ≡ₚ omap (value_at s2) (seq 0 3) /\
    map t_key (s_tasks s2) = ["species_1"; "species_2"; "species_3"] /\
    (exists t, s_tasks s2 !! 2 = Some t /\ t_key t = "species_3" /\
       last_path_segment "https://swapi.example/api/species/3/" "3").
Proof.
  destruct (step (H := Demo.python) (Batch "species" three_urls 3600) boot)
    as [s1|] eqn:Hbatch; [|vm_compute in Hbatch; discriminate Hbatch].
  destruct (run (H := Demo.python) out_of_order s1) as [s2|] eqn:Hrun.
  2:{ vm_compute in Hbatch. injection Hbatch as <-.
      vm_compute in Hrun. discriminate Hrun. }
  exists s1, s2. split; [reflexivity|]. split; [exact Hrun|].
  destruct (parallel_cached_get_one_result_per_url (H := Demo.python)
              [] boot s1 "species" three_urls 3600 eq_refl Hbatch)
    as (_ & Hafter & _).
  assert (returned 0 s2) as Hret.
  { vm_compute in Hbatch. injection Hbatch as <-.
    vm_compute in Hrun. injection Hrun as <-.
    intros i t Hi _. destruct i as [|[|[|i]]]; simpl in Hi;
      [injection Hi as <-; by eexists..|discriminate Hi]. }
  destruct (Hafter out_of_order s2 Hrun Hret) as (Hlen & Hperm & Hkeys).
  destruct (Hkeys 2 "https://swapi.example/api/species/3/" eq_refl)
    as (t & _ & Ht & _ & (suffix & Hseg & Hkey) & _).
  split; [exact Hret|].
  split; [|split; [|split; [exact Hlen|split; [exact Hperm|split]]]].
  - vm_compute in Hbatch. injection Hbatch as <-.
    vm_compute in Hrun. injection Hrun as <-. vm_compute. reflexivity.
  - vm_compute in Hbatch. injection Hbatch as <-.
    vm_compute in Hrun. injection Hrun as <-. vm_compute. reflexivity.
  - vm_compute in Hbatch. injection Hbatch as <-.
    vm_compute in Hrun. injection Hrun as <-. vm_compute. reflexivity.
  - exists t. split; [exact Ht|].
    assert (t_key t = "species_3") as Hk3.
    { vm_compute in Hbatch. injection Hbatch as <-.
      vm_compute in Hrun. injection Hrun as <-.
      vm_compute in Ht. injection Ht as <-. reflexivity. }
    split; [exact Hk3|].
    rewrite Hk3 in Hkey.
    assert (suffix = "3") as <-; [|exact Hseg].
    change "species_3" with ("species" +:+ "_" +:+ "3") in Hkey.
    by simplify_eq.
Defined.

(** ** The process-local tier *)


Section ProcessLocal.

Context `{Python}.







End ProcessLocal.


(** * Further properties of the layer *)

(** ** Calls of [cached_get] that fail *)

Ltac log_added :=
  erewrite added_app by (cbn [log]; rewrite <- ?app_assoc; reflexivity).

(** one goal per way through [cached_get] *)
Ltac ways_through Hrun :=
  rewrite cached_get_unfold in Hrun; cbn zeta in Hrun;
  repeat match type of Hrun with
         | context [match ?x with _ => _ end] =>
             let Hway := fresh "Hway" in destruct x eqn:Hway
         | context [if ?x then _ else _] =>
             let Hway := fresh "Hway" in destruct x eqn:Hway
         end;
  inversion Hrun; subst; clear Hrun; cbn [inproc redis log].

Section Failures.

Context `{Python}.
Variable E : Env.

(** X1.  A call of [cached_get] that raises has stored nothing: both
    tiers are as before the call, so failures are never cached and the
    next call starts over.  The exception is [ConnectionError] from
    [get_redis], the exception of the shared-cache [get], or the exception
    of the fetch; only in the last case was a fetch issued. *)
Theorem failed_call_stores_nothing
  (w : World) (k : string) (url : JSON) (ttl : Z) (e : exn) (w' : World) :
  cached_get E k url ttl w = (Raise e, w') ->
  inproc w' = inproc w /\ redis w' = redis w /\
  ((e = ConnectionError /\ fetches (added w w') = 0) \/
   ((exists l, redis_get_fault E l k = Some e) /\ fetches (added w w') = 0) \/
   ((exists l, http_get E l url = Raise e) /\ fetches (added w w') = 1)).
Proof.
  intros Hrun. ways_through Hrun.
  - split; [done|]. split; [done|]. right; left. split; [eauto|].
    log_added. reflexivity.
  - split; [done|]. split; [done|]. right; right. split; [eauto|].
    log_added. reflexivity.
  - split; [done|]. split; [done|]. left. split; [done|].
    log_added. reflexivity.
Qed.

(** X2.  A key missing from the process-local tier is not served when
    the shared cache fails, although the HTTP source is never asked.  If
    [get_redis] raises ([from_url] failing, as on a malformed address), the
    call raises [ConnectionError].  If the shared-cache [get] raises (as
    when the server cannot be reached: the client connects on its first
    command), the call raises that exception.  In both cases no fetch is
    issued and both tiers are left as they were. *)
Theorem unreachable_cache_blocks_the_fetch
  (w : World) (k : string) (url : JSON) (ttl : Z) :
  let l0 := log w ++ [ECachedGet k url] in
  inproc w !! k = None ->
  (redis_reachable E l0 = false ->
   exists w',
     cached_get E k url ttl w = (Raise ConnectionError, w') /\
     added w w' = [ECachedGet k url; EConnect] /\
     inproc w' = inproc w /\ redis w' = redis w) /\
  (forall e,
      redis_reachable E l0 = true ->
      redis_get_fault E (l0 ++ [EConnect]) k = Some e ->
      exists w',
        cached_get E k url ttl w = (Raise e, w') /\
        added w w' = [ECachedGet k url; EConnect; ERedisGet k] /\
        inproc w' = inproc w /\ redis w' = redis w).
Proof.
  intros l0 Hmiss. split.
  - intros Hdown. rewrite cached_get_unfold; cbn zeta. fold l0.
    rewrite Hmiss, Hdown. eexists; split; [reflexivity|].
    split; [|done]. subst l0. log_added. reflexivity.
  - intros e Hup Hget. rewrite cached_get_unfold; cbn zeta. fold l0.
    rewrite Hmiss, Hup, Hget. eexists; split; [reflexivity|].
    split; [|done]. subst l0. log_added. reflexivity.
Qed.

End Failures.

Lemma failed_call_stores_nothing_witness :
  let url := JStr "http://x/species/9/" in
  let E := Demo.calm [] 0 in
  let w' := snd (cached_get (H := Demo.python) E "species_9" url 3600
                   Demo.cold) in
  inproc w' = inproc Demo.cold /\ redis w' = redis Demo.cold.
Proof.
  intros url E w'.
  destruct (failed_call_stores_nothing (H := Demo.python) E Demo.cold
              "species_9" url 3600 (ClientResponseError 404) w' eq_refl)
    as (Hin & Hre & _).
  split; [exact Hin|exact Hre].
Defined.

Lemma unreachable_cache_blocks_the_fetch_witness :
  let url := JStr "http://x/species/1/" in
  let E := with_get_fault (fun _ _ => Some (RedisError "connection refused"))
             (Demo.calm [("http://x/species/1/", Demo.speeder)] 0) in
  exists w',
    cached_get (H := Demo.python) E "species_1" url 3600 Demo.cold
      = (Raise (RedisError "connection refused"), w') /\
    added Demo.cold w' = [ECachedGet "species_1" url; EConnect;
                          ERedisGet "species_1"].
Proof.
  intros url E.
  destruct (proj2 (unreachable_cache_blocks_the_fetch (H := Demo.python) E
                     Demo.cold "species_1" url 3600 eq_refl)
              (RedisError "connection refused") eq_refl eq_refl)
    as (w' & Hrun & Hlog & _).
  exists w'. split; [exact Hrun|exact Hlog].
Defined.

(** ** The OData helpers: writing, reading back, malformed entries *)

Section ODataWrite.

Context `{Python}.
Variable E : Env.

(** [cache_odate_response] with the monad unfolded *)
Lemma cache_odate_response_unfold w user_id response ttl :
  cache_odate_response E user_id response ttl w =
  let key := odata_key user_id in
  let l1 := log w ++ [EConnect] in
  let entry := JObj [("timestamp", JNum (clock E l1)); ("response", response)] in
  let l2 := l1 ++ [ERedisSet key (json_dumps entry) ttl] in
  if redis_reachable E (log w) then
    match redis_set_fault E l1 key with
    | Some _ => (Ok tt, mkWorld (inproc w) (redis w) l2)
    | None =>
        (Ok tt, mkWorld (inproc w) (<[key := json_dumps entry]> (redis w)) l2)
    end
  else (Raise ConnectionError, mkWorld (inproc w) (redis w) l1).
Proof.
  unfold cache_odate_response, bind, get_redis, time, try_except, redis_set,
    ret, emit.
  destruct w as [ip rd lg]; cbn.
  destruct (redis_reachable E lg); cbn; [|done].
  by destruct (redis_set_fault E _ _).
Qed.

(** X3.  [cache_odate_response] raises only when the shared cache cannot
    be reached, and then it is [ConnectionError] and nothing was written.
    Once connected it returns normally whatever the [set] answers; a
    refused [set] leaves the shared store unchanged.  It never touches the
    process-local tier nor the entry of another key. *)
Theorem cache_odate_response_failures
  (w : World) (user_id : string) (response : JSON) (ttl : Z) :
  let key := odata_key user_id in
  exists r w',
    cache_odate_response E user_id response ttl w = (r, w') /\
    inproc w' = inproc w /\
    (forall k, k <> key -> redis w' !! k = redis w !! k) /\
    (redis_reachable E (log w) = false ->
     r = Raise ConnectionError /\ redis w' = redis w /\
     added w w' = [EConnect]) /\
    (redis_reachable E (log w) = true ->
     r = Ok tt /\
     (redis_set_fault E (log w ++ [EConnect]) key <> None ->
      redis w' = redis w)).
Proof.
  intros key. rewrite cache_odate_response_unfold; cbn zeta. fold key.
  destruct (redis_reachable E (log w)).
  - destruct (redis_set_fault E (log w ++ [EConnect]) key) eqn:Hset;
      do 2 eexists; (split; [reflexivity|]); cbn [inproc redis log];
      (split; [done|]); (split; [|split; [done|]]).
    + done.
    + by intros _.
    + intros k Hk. by rewrite lookup_insert_ne.
    + intros _. split; [done|]. by intros [].
  - do 2 eexists; split; [reflexivity|]. cbn [inproc redis log].
    split; [done|]. split; [done|]. split; [|done].
    intros _. split; [done|]. split; [done|]. log_added. reflexivity.
Qed.

(** X4.  Writing then reading back.  With the shared cache answering
    and a codec that decodes the envelope it encoded, what
    [get_odate_response] reads after [cache_odate_response] depends on the
    time the server has held the entry.  Once the writer's ttl has run out
    the server has dropped the entry and the read gives nothing.  Before
    that the entry is found, and its age is taken in floating-point
    arithmetic from the two clock readings of the process: the response is
    returned when the age is within the reader's ttl, and nothing when it
    is beyond (for a write not made at clock zero). *)
Theorem odata_round_trip
  (w : World) (user_id : string) (response : JSON) (ttl ttl' : Z)
  (elapsed : Q) (w1' : World) :
  let key := odata_key user_id in
  let l1 := log w ++ [EConnect] in
  let stored_at := clock E l1 in
  let entry := JObj [("timestamp", JNum stored_at); ("response", response)] in
  let l2 := l1 ++ [ERedisSet key (json_dumps entry) ttl] in
  let read_at := clock E ((l2 ++ [EConnect]) ++ [ERedisGet key]) in
  redis_reachable E (log w) = true ->
  redis_set_fault E l1 key = None ->
  redis_reachable E l2 = true ->
  redis_get_fault E (l2 ++ [EConnect]) key = None ->
  json_loads (json_dumps entry) = Some entry ->
  exists w1,
    cache_odate_response E user_id response ttl w = (Ok tt, w1) /\
    (lapsed key ttl elapsed w1 w1' ->
     exists r w2,
       get_odate_response E user_id ttl' w1' = (r, w2) /\
       ((inject_Z ttl < elapsed)%Q -> r = Ok JNull) /\
       ((elapsed < inject_Z ttl)%Q ->
        (float_sub read_at stored_at = None -> ~ (stored_at == 0)%Q ->
         r = Raise OverflowError) /\
        (forall age,
            float_sub read_at stored_at = Some age ->
            (float_gt age ttl' = false -> r = Ok response) /\
            (float_gt age ttl' = true -> ~ (stored_at == 0)%Q ->
             r = Ok JNull)))).
Proof.
  intros key l1 stored_at entry l2 read_at Hup Hset Hup' Hget Hcodec.
  rewrite cache_odate_response_unfold; cbn zeta.
  fold key l1 stored_at entry l2. rewrite Hup, Hset.
  set (w1 := mkWorld (inproc w) (<[key := json_dumps entry]> (redis w)) l2).
  exists w1. split; [reflexivity|]. intros Hlapsed.
  exists (fst (get_odate_response E user_id ttl' w1')),
         (snd (get_odate_response E user_id ttl' w1')).
  split; [apply surjective_pairing|].
  destruct Hlapsed as [Hle|Hge].
  - split; [intros Hgone; by apply Qlt_not_le in Hgone|]. intros _.
    rewrite get_odate_response_unfold; cbn zeta. cbn [inproc redis log w1].
    fold key. rewrite Hup', Hget, lookup_insert_eq.
    rewrite (nonempty_decodes _ _ Hcodec), Hcodec.
    subst entry. cbn [Py.get Py.assoc String.eqb Ascii.eqb Bool.eqb].
    cbn [Py.truthy Py.sub_from]. fold read_at.
    destruct (Qeq_bool stored_at 0) eqn:Hzero; cbn [negb fst].
    + apply Qeq_bool_iff in Hzero. split; [done|].
      intros age _. split; [done|]. done.
    + split.
      * by intros -> _.
      * intros age ->. split.
        -- by intros ->.
        -- by intros -> _.
  - split; [|intros Hheld; by apply Qlt_not_le in Hheld].
    intros _. unfold expire.
    rewrite get_odate_response_unfold; cbn zeta. cbn [inproc redis log w1].
    fold key. by rewrite Hup', Hget, lookup_delete_eq.
Qed.

(** X5.  [get_odate_response] guards decoding only.  An entry that decodes
    to something that is not an object raises [AttributeError]; an object
    whose [timestamp] is a non-empty string, list or object raises
    [TypeError]. *)
Theorem odata_malformed_entry_raises
  (w : World) (user_id : string) (ttl : Z) (raw : string) (data : JSON) :
  redis_reachable E (log w) = true ->
  redis_get_fault E (log w ++ [EConnect]) (odata_key user_id) = None ->
  redis w !! odata_key user_id = Some raw ->
  json_loads raw = Some data ->
  (match data with JObj _ => False | _ => True end ->
   fst (get_odate_response E user_id ttl w) = Raise AttributeError) /\
  (forall fields t,
      data = JObj fields ->
      Py.assoc "timestamp" fields = Some t ->
      Py.truthy t = true ->
      match t with JStr _ | JArr _ | JObj _ => True | _ => False end ->
      fst (get_odate_response E user_id ttl w) = Raise TypeError).
Proof.
  intros Hup Hget Hraw Hdec.
  rewrite get_odate_response_unfold; cbn zeta.
  rewrite Hup, Hget, Hraw, (nonempty_decodes _ _ Hdec), Hdec.
  split.
  - by destruct data.
  - intros fields t -> Hts Htruthy Hkind. cbn [Py.get]. rewrite Hts, Htruthy.
    by destruct t.
Qed.

End ODataWrite.

Lemma cache_odate_response_failures_witness :
  let E := with_set_fault (fun _ _ => Some (RedisError "read only"))
             (Demo.calm [] 2800) in
  exists w',
    cache_odate_response (H := Demo.python) E "luke" Demo.speeder 3600 Demo.cold
      = (Ok tt, w') /\
    redis w' = redis Demo.cold.
Proof.
  intros E.
  destruct (cache_odate_response_failures (H := Demo.python) E Demo.cold
              "luke" Demo.speeder 3600)
    as (r & w' & Hrun & _ & _ & _ & Hup).
  destruct (Hup eq_refl) as [-> Hkept].
  exists w'. split; [exact Hrun|]. apply Hkept. discriminate.
Defined.

Lemma odata_round_trip_witness :
  let E := Demo.calm [] 2800 in
  exists w1 w2,
    cache_odate_response (H := Demo.python) E "luke" Demo.speeder 3600 Demo.cold
      = (Ok tt, w1) /\
    get_odate_response (H := Demo.python) E "luke" 60 w1
      = (Ok Demo.speeder, w2).
Proof.
  intros E.
  set (w1 := snd (cache_odate_response (H := Demo.python) E "luke"
                    Demo.speeder 3600 Demo.cold)).
  destruct (odata_round_trip (H := Demo.python) E Demo.cold "luke"
              Demo.speeder 3600 60 0%Q w1)
    as (w1' & Hput & Hread); [reflexivity..|].
  assert (w1' = w1) as -> by (subst w1; by rewrite Hput).
  destruct Hread as (r & w2 & Hget & _ & Hheld);
    [apply lapsed_held; vm_compute; discriminate|].
  destruct Hheld as [_ Hage]; [vm_compute; reflexivity|].
  destruct (Hage (Finite 0) eq_refl) as [Hfresh _].
  exists w1, w2. split; [exact Hput|].
  rewrite Hget. f_equal. apply Hfresh. reflexivity.
Defined.

Lemma odata_malformed_entry_raises_witness :
  let E := Demo.calm [] 2800 in
  let w := mkWorld ∅ {[odata_key "luke" := "[1]"]} [] in
  fst (get_odate_response (H := Demo.python) E "luke" 3600 w)
  = Raise AttributeError.
Proof.
  intros E w.
  apply (proj1 (odata_malformed_entry_raises (H := Demo.python) E w "luke"
                  3600 "[1]" (JArr [JNum 1]) eq_refl eq_refl eq_refl eq_refl)).
  exact I.
Defined.

(** ** Keys and ids cut out of URLs *)

(** X6.  The key [fetch_single] derives ignores trailing slashes: a URL
    and the same URL followed by a slash get one key.  The suffix of the
    key is the last path segment and holds no slash. *)
Theorem batch_key_ignores_trailing_slashes (prefix url : string) :
  fetch_single_key prefix (url +:+ "/") = fetch_single_key prefix url /\
  exists suffix,
    fetch_single_key prefix url = Ok (prefix +:+ "_" +:+ suffix) /\
    mentions slash suffix = false.
Proof.
  split.
  - unfold fetch_single_key, last_segment, slash.
    by rewrite (rstrip_snoc "/" url).
  - destruct (fetch_single_key_total prefix url) as (suffix & Hs & Hk).
    exists suffix. split; [done|].
    unfold last_segment in Hs. by eapply last1_piece.
Qed.

Lemma pilot_id_plain url :
  mentions slash url = false -> pilot_id url = Raise IndexError.
Proof. intros Hno. unfold pilot_id. by rewrite (split_plain _ _ Hno). Qed.

Lemma pilot_id_cut url :
  mentions slash url = true ->
  exists i, pilot_id url = Ok i /\ mentions slash i = false.
Proof.
  intros Hs. unfold pilot_id, Py.last2.
  pose proof (split_pieces slash url) as Hall.
  destruct (split_cut _ _ Hs) as (a & b & l & Hsplit).
  apply Forall_rev in Hall.
  assert (2 <= length (rev (Py.split slash url))) as Hlen
    by (rewrite length_rev, Hsplit; cbn; lia).
  destruct (rev (Py.split slash url)) as [|x [|y rest]];
    [cbn in Hlen; lia..|].
  exists y. split; [done|].
  inversion Hall as [|? ? _ Hrest]; subst. by inversion Hrest.
Qed.

(** X7.  [url.split("/")[-2]] needs a slash: a pilot URL without one
    raises [IndexError], any other gives an id that holds no slash.  For a
    URL that ends with a slash the id is the last segment before it. *)
Theorem pilot_id_needs_a_slash (url : string) :
  (mentions slash url = false <-> pilot_id url = Raise IndexError) /\
  (mentions slash url = true ->
   exists i, pilot_id url = Ok i /\ mentions slash i = false) /\
  pilot_id (url +:+ "/") = Py.last1 (Py.split slash url).
Proof.
  split; [|split].
  - split; [apply pilot_id_plain|].
    intros Hraise. destruct (mentions slash url) eqn:Hs; [|done].
    destruct (pilot_id_cut _ Hs) as (i & Hi & _). congruence.
  - apply pilot_id_cut.
  - unfold pilot_id, slash. by rewrite (split_snoc "/" url), last2_snoc.
Qed.

Lemma pilot_id_needs_a_slash_witness :
  pilot_id "people-13" = Raise IndexError /\
  pilot_id "https://swapi.example/api/people/13/" = Ok "13".
Proof.
  split.
  - apply (proj1 (proj1 (pilot_id_needs_a_slash "people-13"))). reflexivity.
  - apply (proj2 (proj2 (pilot_id_needs_a_slash
                           "https://swapi.example/api/people/13"))).
Defined.

(** ** The pilot batch of [run_etl] *)

Lemma pilot_ids_plain p :
  Exists (fun u => mentions slash u = false) p ->
  pilot_ids p = Raise IndexError.
Proof.
  induction p as [|url rest IH]; intros Hex; [by inversion Hex|].
  cbn [pilot_ids].
  destruct (mentions slash url) eqn:Hs.
  - destruct (pilot_id_cut _ Hs) as (i & -> & _).
    inversion Hex as [? ? Hurl|? ? Hrest]; subst; [congruence|].
    by rewrite (IH Hrest).
  - by rewrite (pilot_id_plain _ Hs).
Qed.

Lemma pilot_ids_cut p :
  Forall (fun u => mentions slash u = true) p ->
  exists ids, pilot_ids p = Ok ids.
Proof.
  induction 1 as [|url rest Hs _ [ids IH]]; [by exists []|].
  destruct (pilot_id_cut _ Hs) as (i & Hi & _).
  exists (i :: ids). cbn [pilot_ids]. by rewrite Hi, IH.
Qed.

Section Pilots.

Context `{Python}.
Variable E : Env.

Lemma pilot_details_unfold base url rest ids w :
  pilot_ids (url :: rest) = Ok ids ->
  pilot_details E base (url :: rest) w =
  match cached_get E "pilots_batch" (JStr (pilots_batch_url base ids)) 3600 w with
  | (Ok batch_pilots, w') => (Ok (results_of batch_pilots), w')
  | (Raise _, w') => (Ok (JArr []), w')
  end.
Proof.
  intros Hids. unfold pilot_details, bind, lift, try_except, ret, results_of.
  rewrite Hids.
  destruct (cached_get E "pilots_batch" _ 3600 w) as [[batch|e] w']; [|done].
  by destruct (Py.get batch "results" (JArr [])).
Qed.

(** X8.  With a slash in every pilot URL, [pilot_details] never raises.
    A vehicle without pilots gives [[]] and nothing leaves the process.
    Otherwise any failure of the batch request (connection, shared-cache
    read, fetch) and any answer that is not an object give [[]] as
    well. *)
Theorem pilot_details_absorbs_batch_failures
  (base : string) (p : list string) (w : World) :
  Forall (fun u => mentions slash u = true) p ->
  exists r w',
    pilot_details E base p w = (Ok r, w') /\
    (p = [] -> r = JArr [] /\ w' = w) /\
    (forall ids, p <> [] -> pilot_ids p = Ok ids ->
       match cached_get E "pilots_batch"
               (JStr (pilots_batch_url base ids)) 3600 w with
       | (Raise _, w1) => r = JArr [] /\ w' = w1
       | (Ok (JObj fields), w1) =>
           r = match Py.assoc "results" fields with
               | Some v => v
               | None => JArr []
               end /\ w' = w1
       | (Ok _, w1) => r = JArr [] /\ w' = w1
       end).
Proof.
  intros Hall. destruct p as [|url rest].
  - exists (JArr []), w. split; [done|]. split; [done|]. by intros ids [].
  - destruct (pilot_ids_cut _ Hall) as [ids Hids].
    rewrite (pilot_details_unfold base url rest ids w Hids).
    destruct (cached_get E "pilots_batch" _ 3600 w) as [[batch|e] w1] eqn:Hget;
      do 2 eexists; (split; [reflexivity|]); (split; [done|]);
      intros ids' _ Hids'; rewrite Hids in Hids'; injection Hids' as <-;
      rewrite Hget; [|done].
    by destruct batch.
Qed.

(** X9.  A pilot URL without a slash is not absorbed: the ids are cut
    out before the [try] (line 166), so [IndexError] leaves
    [pilot_details], with no request made. *)
Theorem pilot_url_without_slash_raises
  (base : string) (p : list string) (w : World) :
  Exists (fun u => mentions slash u = false) p ->
  pilot_details E base p w = (Raise IndexError, w).
Proof.
  intros Hex. destruct p as [|url rest]; [by inversion Hex|].
  unfold pilot_details, bind, lift. by rewrite (pilot_ids_plain _ Hex).
Qed.

(** X10.  The batch of pilots is cached under one constant key.  Once the
    batch of a vehicle is in the process-local tier, every other vehicle
    with pilots is given that same batch, whatever its own pilot URLs and
    the base URL are, and nothing leaves the process for it. *)
Theorem pilots_of_first_vehicle_served_to_all
  (base base' : string) (p1 p2 : list string) (w : World)
  (r1 : JSON) (w1 : World) :
  p1 <> [] -> p2 <> [] ->
  Forall (fun u => mentions slash u = true) p2 ->
  pilot_details E base p1 w = (Ok r1, w1) ->
  is_Some (inproc w1 !! "pilots_batch") ->
  exists w2,
    pilot_details E base' p2 w1 = (Ok r1, w2) /\
    filter is_io (added w1 w2) = [].
Proof.
  intros Hp1 Hp2 Hall Hfirst [batch Hbatch].
  destruct p1 as [|u1 rest1]; [done|]. destruct p2 as [|u2 rest2]; [done|].
  destruct (pilot_ids_cut _ Hall) as [ids2 Hids2].
  destruct (pilot_ids (u1 :: rest1)) as [ids1|e] eqn:Hids1.
  2: { unfold pilot_details, bind, lift in Hfirst.
       rewrite Hids1 in Hfirst. done. }
  rewrite (pilot_details_unfold base u1 rest1 ids1 w Hids1) in Hfirst.
  rewrite (pilot_details_unfold base' u2 rest2 ids2 w1 Hids2).
  rewrite (cached_get_hit E _ _ _ _ _ Hbatch).
  assert (r1 = results_of batch) as ->.
  { destruct (cached_get E "pilots_batch" _ 3600 w) as [[b|e] w0] eqn:Hget.
    - injection Hfirst as <- <-.
      apply cached_get_stores in Hget. congruence.
    - injection Hfirst as <- <-.
      rewrite cached_get_unfold in Hget; cbn zeta in Hget.
      destruct (inproc w !! "pilots_batch") as [v|] eqn:Hin; [done|].
      repeat match type of Hget with
             | context [match ?x with _ => _ end] => destruct x
             | context [if ?x then _ else _] => destruct x
             end;
        inversion Hget; subst; cbn [inproc] in Hbatch; congruence. }
  eexists. split; [reflexivity|].
  unfold added, emit; cbn [log]. by rewrite drop_app_length.
Qed.

End Pilots.

Lemma pilot_details_absorbs_batch_failures_witness :
  let E := Demo.calm [] 0 in
  exists w',
    pilot_details (H := Demo.python) E "https://swapi.example"
      ["https://swapi.example/api/people/13/"] Demo.cold
    = (Ok (JArr []), w').
Proof.
  intros E.
  destruct (pilot_details_absorbs_batch_failures (H := Demo.python) E
              "https://swapi.example"
              ["https://swapi.example/api/people/13/"] Demo.cold)
    as (r & w' & Hrun & _ & Hbatch).
  - repeat constructor.
  - exists w'. rewrite Hrun. f_equal. f_equal.
    exact (proj1 (Hbatch ["13"] ltac:(discriminate) eq_refl)).
Defined.

Lemma pilot_url_without_slash_raises_witness :
  pilot_details (H := Demo.python) (Demo.calm [] 0) "https://swapi.example"
    ["https://swapi.example/api/people/13/"; "people-14"] Demo.cold
  = (Raise IndexError, Demo.cold).
Proof.
  apply (pilot_url_without_slash_raises (H := Demo.python)).
  apply Exists_cons_tl, Exists_cons_hd. reflexivity.
Defined.

Lemma pilots_of_first_vehicle_served_to_all_witness :
  let base := "https://swapi.example" in
  let han := JObj [("name", JStr "Han")] in
  let luke := JObj [("name", JStr "Luke")] in
  let E := Demo.calm
             [(pilots_batch_url base ["13"], JObj [("results", JArr [han])]);
              (pilots_batch_url base ["1"], JObj [("results", JArr [luke])])]
             0 in
  let first := pilot_details (H := Demo.python) E base
                 ["https://swapi.example/api/people/13/"] Demo.cold in
  fst first = Ok (JArr [han]) /\
  exists w2,
    pilot_details (H := Demo.python) E base
      ["https://swapi.example/api/people/1/"] (snd first)
    = (Ok (JArr [han]), w2).
Proof.
  intros base han luke E first. split; [reflexivity|].
  destruct (pilots_of_first_vehicle_served_to_all (H := Demo.python) E
              base base ["https://swapi.example/api/people/13/"]
              ["https://swapi.example/api/people/1/"] Demo.cold
              (JArr [han]) (snd first))
    as (w2 & Hsecond & _).
  - discriminate.
  - discriminate.
  - repeat constructor.
  - reflexivity.
  - eexists. reflexivity.
  - exists w2. exact Hsecond.
Defined.

(** ** Walking the pages a second time *)

Section Replay.

Context `{Python}.
Variables E E' : Env.

Lemma chain_keeps chain w u w' : Chain E w u chain w' -> keeps w w'.
Proof.
  induction 1 as [w u Hend | w u page next w1 pages w' Hgo Hget Hnext _ IH].
  - apply keeps_refl.
  - eapply keeps_trans; [by eapply cached_get_keeps|exact IH].
Qed.

Lemma entries_only chain :
  filter is_io (map (fun up : JSON * JSON =>
                       ECachedGet (page_key (fst up)) (fst up)) chain) = [].
Proof.
  induction chain as [|up chain IH]; [done|].
  cbn [map]. rewrite filter_cons_False by (cbn; auto). exact IH.
Qed.

(** the pages of a chain walked under [E] are met again, in any later
    world and under any [E'], without leaving the process *)
Lemma chain_replay chain w u w' :
  Chain E w u chain w' ->
  forall w2, keeps w' w2 ->
  exists w2',
    Chain E' w2 u chain w2' /\
    inproc w2' = inproc w2 /\ redis w2' = redis w2 /\
    log w2' = log w2 ++ map (fun up : JSON * JSON =>
                               ECachedGet (page_key (fst up)) (fst up)) chain.
Proof.
  induction 1 as [w u Hend | w u page next w1 pages w' Hgo Hget Hnext Hrest IH];
    intros w2 Hkeeps.
  - exists w2. split; [by constructor|]. by rewrite app_nil_r.
  - assert (inproc w2 !! page_key u = Some page) as Hhit.
    { apply Hkeeps. eapply chain_keeps; [exact Hrest|].
      by eapply cached_get_stores. }
    destruct (IH (emit (ECachedGet (page_key u) u) w2)) as
      (w2' & Hchain & Hin & Hre & Hlog); [exact Hkeeps|].
    exists w2'. split; [|split; [done|split; [done|]]].
    + eapply Chain_page; [done| |exact Hnext|exact Hchain].
      by apply cached_get_hit.
    + rewrite Hlog. cbn [emit log map fst]. by rewrite <- app_assoc.
Qed.

(** X11.  After a walk has completed, walking the same chain again, at
    any later time and whatever the servers and the shared cache now
    answer, returns the same result from the process-local tier alone:
    no connection, no shared-cache round trip and no fetch are made, and
    neither tier changes. *)
Theorem second_walk_served_from_process
  (w : World) (url : JSON) (chain : list (JSON * JSON)) (w1 w1' : World)
  (rs : list (list JSON)) (fuel : nat) :
  Chain E w url chain w1 ->
  Forall2 (fun up items => Py.get (snd up) "results" (JArr []) = Ok (JArr items))
          chain rs ->
  length chain < fuel ->
  keeps w1 w1' ->
  exists w2,
    fetch_vehicles_paginated E' fuel url w1'
    = Some (Ok (JObj [("results", JArr (concat rs))]), w2) /\
    filter is_io (added w1' w2) = [] /\
    inproc w2 = inproc w1' /\ redis w2 = redis w1'.
Proof.
  intros Hchain Hrs Hfuel Hkeeps.
  destruct (chain_replay _ _ _ _ Hchain w1' Hkeeps)
    as (w2 & Hchain' & Hin & Hre & Hlog).
  exists w2. split; [|split; [|done]].
  - unfold fetch_vehicles_paginated.
    by rewrite (chain_walk E' _ _ _ _ Hchain' rs fuel []).
  - rewrite (added_app _ _ _ Hlog). apply entries_only.
Qed.

End Replay.

Lemma second_walk_served_from_process_witness :
  let u := JStr "https://swapi.example/api/vehicles" in
  let E := Demo.calm [("https://swapi.example/api/vehicles",
                       Demo.page [Demo.speeder] JNull)] 0 in
  let E' := Demo.calm [("https://swapi.example/api/vehicles",
                        Demo.page [Demo.walker] JNull)] 0 in
  let w1 := snd (cached_get (H := Demo.python) E
                   (page_key (H := Demo.python) u) u 3600 Demo.cold) in
  exists w2,
    fetch_vehicles_paginated (H := Demo.python) E' 2 u w1
    = Some (Ok (JObj [("results", JArr [Demo.speeder])]), w2) /\
    filter is_io (added w1 w2) = [].
Proof.
  intros u E E' w1.
  destruct (second_walk_served_from_process (H := Demo.python) E E'
              Demo.cold u [(u, Demo.page [Demo.speeder] JNull)] w1 w1
              [[Demo.speeder]] 2)
    as (w2 & Hwalk & Hio & _).
  - apply (Chain_page E _ _ (Demo.page [Demo.speeder] JNull) JNull w1);
      [reflexivity..|].
    apply Chain_end. reflexivity.
  - repeat constructor.
  - cbn. lia.
  - by intros k v.
  - exists w2. split; [exact Hwalk|exact Hio].
Defined.

(** * The film filter of [run_etl] *)

Lemma any_film_same p p' fs :
  rstrip_slash p = rstrip_slash p' -> any_film p fs = any_film p' fs.
Proof.
  intros Hp. induction fs as [|f fs IH]; [done|].
  cbn [any_film]. rewrite <- Hp, IH. done.
Qed.

Lemma filtered_vehicles_same p p' vs :
  rstrip_slash p = rstrip_slash p' ->
  filtered_vehicles p vs = filtered_vehicles p' vs.
Proof.
  intros Hp. induction vs as [|v vs IH]; [done|].
  cbn [filtered_vehicles]. unfold shows_film.
  destruct (Py.get v "films" (JArr [])) as [films|]; [|done].
  destruct (Py.iter films) as [fs|]; [|done].
  by rewrite (any_film_same p p' fs Hp), IH.
Qed.

(** X12.  What the filter keeps.  When the comprehension of lines
    145-152 completes, it has kept exactly the vehicles that list the
    film, in their order, and filtering its result again changes nothing.
    When it raises, some vehicle could not be tested (it is not an object,
    its films cannot be iterated, or an entry met before a match is not a
    string): one such vehicle fails the whole filter. *)
Theorem film_filter_keeps_the_vehicles_of_the_film
  (phantom_film_url : JSON) (raw_vehicles : list JSON) :
  (forall kept,
      filtered_vehicles phantom_film_url raw_vehicles = Ok kept ->
      kept = filter (fun v => on_film phantom_film_url v) raw_vehicles /\
      filtered_vehicles phantom_film_url kept = Ok kept) /\
  (forall e,
      filtered_vehicles phantom_film_url raw_vehicles = Raise e ->
      Exists (fun v => shows_film phantom_film_url v = Raise e) raw_vehicles).
Proof.
  induction raw_vehicles as [|v vs [IHok IHraise]].
  - split; [|done]. by intros kept [= <-].
  - cbn [filtered_vehicles]. unfold on_film in *.
    destruct (shows_film phantom_film_url v) as [keep|e0] eqn:Hv.
    + destruct (filtered_vehicles phantom_film_url vs) as [rest|e1] eqn:Hvs.
      * split; [|done]. intros kept [= <-].
        destruct (IHok rest eq_refl) as [Hrest Hagain].
        destruct keep.
        -- rewrite filter_cons_True by (by rewrite Hv). split; [by f_equal|].
           cbn [filtered_vehicles]. by rewrite Hv, Hagain.
        -- rewrite filter_cons_False by (rewrite Hv; cbn; auto). done.
      * split; [done|]. intros e [= <-]. apply Exists_cons_tl. by apply IHraise.
    + split; [done|]. intros e [= <-]. by apply Exists_cons_hd.
Qed.

(** X13.  Film URLs are compared with their trailing slashes removed, on
    both sides: the film URL followed by a slash selects the same
    vehicles, and a film listed with a slash more matches as without. *)
Theorem film_filter_ignores_trailing_slashes
  (u f : string) (phantom_film_url : JSON) (fs vs : list JSON) :
  filtered_vehicles (JStr (u +:+ "/")) vs = filtered_vehicles (JStr u) vs /\
  any_film phantom_film_url (JStr (f +:+ "/") :: fs)
  = any_film phantom_film_url (JStr f :: fs).
Proof.
  split.
  - apply filtered_vehicles_same. cbn [rstrip_slash]. unfold slash.
    by rewrite (rstrip_snoc "/" u).
  - cbn [any_film rstrip_slash]. unfold slash.
    by rewrite (rstrip_snoc "/" f).
Qed.

Section Vehicles.

Context `{Python}.
Variable E : Env.

(** X14.  When the film search answers with no results, the production
    run does not filter at all: every vehicle goes on to be loaded.  The
    films of the first vehicle are still read for the log, so a first
    vehicle that is not an object fails the run with [AttributeError]. *)
Theorem film_not_found_loads_every_vehicle
  (USE_PROD : bool) (base_url : string) (raw_vehicles : list JSON)
  (w : World) (film_data results : JSON) (w' : World) :
  cached_get E "film_phantom_menace"
    (JStr (film_search_url USE_PROD base_url)) 3600 w = (Ok film_data, w') ->
  Py.get film_data "results" (JArr []) = Ok results ->
  Py.truthy results = false ->
  vehicles_to_load E true USE_PROD base_url raw_vehicles w
  = (match raw_vehicles with
     | [] | JObj _ :: _ => Done raw_vehicles
     | _ :: _ => Fail (Layer AttributeError)
     end, w').
Proof.
  intros Hget Hresults Hnone.
  unfold vehicles_to_load, get_phantom_menace_film_id, film_url_of.
  rewrite Hget, Hresults, Hnone. cbn [Py.truthy].
  destruct raw_vehicles as [|v vs]; [done|]. by destruct v.
Qed.

End Vehicles.

Lemma film_filter_keeps_the_vehicles_of_the_film_witness :
  let film := JStr "https://swapi.example/api/films/4/" in
  let pod := JObj [("name", JStr "Pod");
                   ("films", JArr [JStr "https://swapi.example/api/films/4"])] in
  filtered_vehicles film [Demo.speeder; pod] = Ok [pod] /\
  filtered_vehicles film [pod] = Ok [pod].
Proof.
  intros film pod. split; [reflexivity|].
  exact (proj2 (proj1 (film_filter_keeps_the_vehicles_of_the_film film
                         [Demo.speeder; pod]) [pod] eq_refl)).
Defined.

Lemma film_not_found_loads_every_vehicle_witness :
  let base := "https://swapi.example" in
  let E := Demo.calm [(film_search_url true base, Demo.page [] JNull)] 0 in
  exists w',
    vehicles_to_load (H := Demo.python) E true true base
      [Demo.speeder; Demo.walker] Demo.cold
    = (Done [Demo.speeder; Demo.walker], w').
Proof.
  intros base E. eexists.
  apply (film_not_found_loads_every_vehicle (H := Demo.python) E true base
           [Demo.speeder; Demo.walker] Demo.cold (Demo.page [] JNull)
           (JArr []));
    reflexivity.
Defined.

(** * The Wookiee encoding *)

(** the encoding of one character *)
Lemma encode_one c rest :
  Wookiee.wookiee_encode (String c rest)
  = Wookiee.lookup_get (Wookiee.lower c) Wookiee.lookup (String c EmptyString)
    +:+ Wookiee.wookiee_encode rest.
Proof. reflexivity. Qed.

Lemma append_assoc' (a b c : string) : (a +:+ b) +:+ c = a +:+ (b +:+ c).
Proof.
  induction a as [|x a IH]; [done|]. rewrite !append_cons. by rewrite IH.
Qed.

Lemma length_append' (a b : string) :
  String.length (a +:+ b) = String.length a + String.length b.
Proof.
  induction a as [|x a IH]; [done|]. rewrite append_cons. cbn. by rewrite IH.
Qed.

Lemma free_of_append bad (a b : string) :
  free_of bad (a +:+ b) = free_of bad a && free_of bad b.
Proof.
  induction a as [|x a IH]; [done|]. rewrite append_cons. cbn.
  by rewrite IH, andb_assoc.
Qed.

Ltac each_character c :=
  destruct c as [[] [] [] [] [] [] [] []].

Lemma code_free c :
  free_of capital_or_space
    (Wookiee.lookup_get (Wookiee.lower c) Wookiee.lookup (String c EmptyString))
  = true.
Proof. each_character c; vm_compute; reflexivity. Qed.

Lemma code_length c :
  1 <= String.length
         (Wookiee.lookup_get (Wookiee.lower c) Wookiee.lookup (String c EmptyString))
    <= 4.
Proof. each_character c; vm_compute; lia. Qed.

Lemma code_lower c :
  beyond_ascii c = false ->
  Wookiee.lookup_get (Wookiee.lower (Wookiee.lower c)) Wookiee.lookup
    (String (Wookiee.lower c) EmptyString)
  = Wookiee.lookup_get (Wookiee.lower c) Wookiee.lookup (String c EmptyString).
Proof.
  each_character c; intros Hc; vm_compute in Hc; try discriminate Hc;
    vm_compute; reflexivity.
Qed.

(** X15.  The encoding works character by character: the encoding of
    two texts put together is the two encodings put together. *)
Theorem wookiee_encode_append (a b : string) :
  Wookiee.wookiee_encode (a +:+ b)
  = Wookiee.wookiee_encode a +:+ Wookiee.wookiee_encode b.
Proof.
  induction a as [|c a IH]; [done|].
  rewrite append_cons, !encode_one, IH. by rewrite append_assoc'.
Qed.

(** X16.  Case is lost: an ASCII text and its lower-case form have the
    same encoding. *)
Theorem wookiee_encode_ignores_case (text : string) :
  free_of beyond_ascii text = true ->
  Wookiee.wookiee_encode (Wookiee.lower_text text)
  = Wookiee.wookiee_encode text.
Proof.
  induction text as [|c text IH]; [done|].
  cbn [free_of]. intros Hascii. apply andb_true_iff in Hascii as [Hc Htext].
  apply negb_true_iff in Hc.
  cbn [Wookiee.lower_text]. rewrite !encode_one, (IH Htext).
  by rewrite (code_lower c Hc).
Qed.

(** X17.  An encoded text holds no space and no capital letter A to Z:
    every one of them is replaced, by lower-case letters only. *)
Theorem wookiee_encode_leaves_no_space_or_capital (text : string) :
  free_of capital_or_space (Wookiee.wookiee_encode text) = true.
Proof.
  induction text as [|c text IH]; [done|].
  by rewrite encode_one, free_of_append, code_free, IH.
Qed.

(** X18.  An encoding is never shorter than its text and at most four
    times as long. *)
Theorem wookiee_encode_length (text : string) :
  String.length text <= String.length (Wookiee.wookiee_encode text)
  <= 4 * String.length text.
Proof.
  induction text as [|c text IH]; [cbn; lia|].
  rewrite encode_one, length_append'. pose proof (code_length c) as Hc.
  cbn [String.length]. lia.
Qed.

Lemma wookiee_encode_ignores_case_witness :
  Wookiee.wookiee_encode "Sand Crawler" = Wookiee.wookiee_encode "sand crawler".
Proof.
  symmetry.
  apply (wookiee_encode_ignores_case "Sand Crawler"). reflexivity.
Defined.

(** * The character search *)

Lemma names_of_length m urls names :
  names_of m urls = Ok names -> length names = length urls.
Proof.
  revert names. induction urls as [|u urls IH]; intros names.
  - by intros [= <-].
  - cbn [names_of]. destruct (Dict.get m u _) as [name|]; [|done].
    destruct (names_of m urls) as [rest|]; [|done].
    intros [= <-]. cbn. by rewrite (IH rest).
Qed.

(** the map looked into matters for the names found, not for how many
    there are nor for whether the lookups raise *)
Lemma names_of_any_map m m' urls :
  match names_of m urls, names_of m' urls with
  | Ok names, Ok names' => length names = length names'
  | Raise e, Raise e' => e = e'
  | _, _ => False
  end.
Proof.
  induction urls as [|u urls IH]; [done|].
  cbn [names_of]. unfold Dict.get.
  destruct (Dict.hashable u); [|done].
  destruct (names_of m urls), (names_of m' urls); try done.
  cbn. by rewrite IH.
Qed.

Lemma valid_char_any_films sm fm fm' char :
  valid_char sm fm char = valid_char sm fm' char.
Proof.
  unfold valid_char.
  destruct (truthy_items char "species") as [su|]; [|done].
  destruct (truthy_items char "films") as [fu|]; [|done].
  destruct (names_of sm su) as [names|]; [|done].
  pose proof (names_of_any_map fm fm' fu) as Hsame.
  destruct (names_of fm fu) as [titles|], (names_of fm' fu) as [titles'|];
    try done; [|by subst].
  by rewrite Hsame.
Qed.

Lemma valid_chars_any_films sm fm fm' chars :
  valid_chars sm fm chars = valid_chars sm fm' chars.
Proof.
  induction chars as [|char chars IH]; [done|].
  cbn [valid_chars]. by rewrite (valid_char_any_films sm fm fm'), IH.
Qed.

(** X19.  The films batch does not change the answer: whatever film
    data came back (none at all when the call failed), as long as each
    piece is an object with a usable [url], the answer is the same.  The
    film count of a character is the number of its film URLs. *)
Theorem films_batch_does_not_change_the_answer
  (characters : JSON) (species_data film_data film_data' : list JSON)
  (film_map film_map' : Dict.t) :
  name_map "title" film_data [] = Ok film_map ->
  name_map "title" film_data' [] = Ok film_map' ->
  characters_response characters species_data film_data
  = characters_response characters species_data film_data'.
Proof.
  intros Hfm Hfm'. unfold characters_response. rewrite Hfm, Hfm'.
  destruct (name_map "name" species_data []) as [sm|]; [|done].
  destruct (Py.iter characters) as [chars|]; [|done].
  by rewrite (valid_chars_any_films sm film_map film_map').
Qed.

Lemma valid_char_sound sm fm char v :
  valid_char sm fm char = Done (Some v) -> sound_entry v.
Proof.
  unfold valid_char.
  destruct (truthy_items char "species") as [su|]; [|done].
  destruct (truthy_items char "films") as [fu|]; [|done].
  destruct (names_of sm su) as [names|]; [|done].
  destruct (names_of fm fu) as [titles|]; [|done].
  destruct (existsb is_droid names) eqn:Hdroid; [done|].
  destruct (2 <=? length titles)%nat eqn:Hfilms; [|done].
  destruct (item char "name") as [name|]; [|done].
  destruct (Py.get char "edited" JNull) as [edited|]; [|done].
  intros [= <-]. exists name, names, edited, (length titles).
  split; [done|]. split; [|done]. by apply Nat.leb_le.
Qed.

Lemma valid_chars_sound sm fm chars vs :
  valid_chars sm fm chars = Done vs -> Forall sound_entry vs.
Proof.
  revert vs. induction chars as [|char chars IH]; intros vs.
  - intros [= <-]. constructor.
  - cbn [valid_chars].
    destruct (valid_char sm fm char) as [entry|] eqn:Hchar; [|done].
    destruct (valid_chars sm fm chars) as [entries|]; [|done].
    intros [= <-]. destruct entry as [v|]; [|by apply IH].
    constructor; [by eapply valid_char_sound|by apply IH].
Qed.

(** X20.  What the search answers, when it answers: either the message
    that no valid character was found, or a non-empty list of characters
    each of which has at least two films and no species that the species
    data names Droid. *)
Theorem characters_answered_are_valid
  (characters : JSON) (species_data film_data : list JSON) (answer : JSON) :
  characters_response characters species_data film_data = Done answer ->
  answer = JObj [("message", JStr "No valid characters found")] \/
  exists valid,
    answer = JObj [("characters", JArr valid)] /\
    valid <> [] /\ Forall sound_entry valid.
Proof.
  unfold characters_response.
  destruct (name_map "name" species_data []) as [sm|]; [|done].
  destruct (name_map "title" film_data []) as [fm|]; [|done].
  destruct (Py.iter characters) as [chars|]; [|done].
  destruct (valid_chars sm fm chars) as [[|v vs]|] eqn:Hvalid; [| |done].
  - intros [= <-]. by left.
  - intros [= <-]. right. exists (v :: vs). split; [done|]. split; [done|].
    by eapply valid_chars_sound.
Qed.

Lemma films_batch_does_not_change_the_answer_witness :
  let grievous := JObj [("name", JStr "Grievous Clone");
                        ("films", JArr [JStr "film1"; JStr "film2"]);
                        ("species", JArr []);
                        ("edited", JStr "2021-01-01")] in
  let films := [JObj [("url", JStr "film1"); ("title", JStr "A New Hope")]] in
  characters_response (JArr [grievous]) [] films
  = characters_response (JArr [grievous]) [] [].
Proof.
  intros grievous films.
  eapply (films_batch_does_not_change_the_answer (JArr [grievous]) []
            films []); reflexivity.
Defined.

Lemma characters_answered_are_valid_witness :
  let grievous := JObj [("name", JStr "Grievous Clone");
                        ("films", JArr [JStr "film1"; JStr "film2"]);
                        ("species", JArr []);
                        ("edited", JStr "2021-01-01")] in
  let answer :=
    JObj [("characters",
           JArr [JObj [("name", JStr "Grievous Clone"); ("species", JArr []);
                       ("edited", JStr "2021-01-01");
                       ("film_count", JNum 2)]])] in
  characters_response (JArr [grievous]) [] [] = Done answer /\
  exists valid,
    answer = JObj [("characters", JArr valid)] /\ Forall sound_entry valid.
Proof.
  intros grievous answer. split; [reflexivity|].
  destruct (characters_answered_are_valid (JArr [grievous]) [] [] answer
              eq_refl) as [Hno|(valid & Hanswer & _ & Hsound)];
    [discriminate Hno|].
  exists valid. split; [exact Hanswer|exact Hsound].
Defined.

(** * A call on its own *)

Lemma lookup_last {A} (l : list A) (x : A) : (l ++ [x]) !! length l = Some x.
Proof. by apply list_lookup_middle. Qed.

Lemma insert_last {A} (l : list A) (x y : A) :
  <[length l := y]> (l ++ [x]) = l ++ [y].
Proof.
  rewrite insert_app_r_alt by lia. by rewrite Nat.sub_diag.
Qed.

Ltac resume :=
  cbn [run step s_tasks s_inproc s_redis s_sem s_done s_batches];
  rewrite ?lookup_last;
  cbn [t_pc t_key t_owner t_url t_ttl gated at_pc];
  unfold begin, finish, suspend, store_inproc, store_redis;
  cbn [s_tasks s_inproc s_redis s_sem s_done s_batches
       t_pc t_key t_owner t_url t_ttl gated at_pc];
  rewrite ?insert_last.

Section Solo.

Context `{Python}.
Variable E : Env.

(** X21.  A call of [cached_get] that no other task interleaves with
    goes through the event loop as the function reads from top to bottom:
    started in a state that holds the two tiers of [w] and resumed at each
    [await] with the answer of the surroundings, it completes with the
    result of the straight-line reading and leaves the two tiers that
    reading leaves, without touching the gate. *)
Theorem lone_call_runs_as_written
  (k : string) (url : JSON) (ttl : Z) (w : World) (s : Sys) :
  s_inproc s = inproc w -> s_redis s = redis w ->
  exists s',
    run (Call k url ttl :: solo E k url w (length (s_tasks s))) s = Some s' /\
    s_tasks s'
    = s_tasks s ++ [mkTask None k url ttl
                      (Finished (fst (cached_get E k url ttl w)))] /\
    s_inproc s' = inproc (snd (cached_get E k url ttl w)) /\
    s_redis s' = redis (snd (cached_get E k url ttl w)) /\
    s_sem s' = s_sem s /\
    s_done s' = s_done s ++ [length (s_tasks s)].
Proof.
  destruct s as [ip rd sem tasks done batches]. cbn [s_inproc s_redis s_tasks
    s_sem s_done]. intros -> ->.
  rewrite cached_get_unfold; cbn zeta. unfold solo.
  resume.
  destruct (inproc w !! k) as [v|] eqn:Hhit.
  { resume. rewrite ?Hhit. resume. by eexists. }
  resume. rewrite ?Hhit. resume.
  destruct (redis_reachable E _).
  2: { resume. by eexists. }
  resume.
  destruct (redis_get_fault E _ k) as [e|].
  { resume. by eexists. }
  destruct (usable (redis w !! k)) as [data|] eqn:Husable.
  { resume. rewrite ?Husable. resume. by eexists. }
  resume. rewrite ?Husable. resume.
  destruct (http_get E _ url) as [data|e].
  2: { resume. by eexists. }
  resume.
  destruct (redis_set_fault E _ k); resume; by eexists.
Qed.

End Solo.

Lemma lone_call_runs_as_written_witness :
  let url := JStr "https://swapi.example/api/species/1/" in
  let E := Demo.calm [("https://swapi.example/api/species/1/", Demo.speeder)]
             0 in
  exists s',
    run (H := Demo.python)
      (Call "species_1" url 3600
       :: solo (H := Demo.python) E "species_1" url Demo.cold 0) boot
    = Some s' /\
    s_inproc s' = {["species_1" := Demo.speeder]}.
Proof.
  intros url E.
  destruct (lone_call_runs_as_written (H := Demo.python) E "species_1" url
              3600 Demo.cold boot eq_refl eq_refl)
    as (s' & Hrun & _ & Hin & _).
  exists s'. split; [exact Hrun|]. rewrite Hin. reflexivity.
Defined.

(** * Team salaries *)

Section TeamSalaries.

Import Salaries.

Lemma reports_hire subs emp m c :
  c ∈ reports (hire subs emp) m <->
  c ∈ reports subs m \/ (id emp = c /\ manager_id emp = Some m).
Proof.
  unfold hire, reports. destruct (manager_id emp) as [mgr|].
  - destruct (decide (mgr = m)) as [->|Hne].
    + rewrite lookup_insert_eq. cbn [default from_option Datatypes.id].
      rewrite elem_of_app, list_elem_of_singleton. split.
      * intros [?| ->]; [by left|by right].
      * intros [?|[-> _]]; [by left|by right].
    + rewrite lookup_insert_ne by done. split; [by left|].
      intros [?|[_ [= ?]]]; done.
  - split; [by left|]. by intros [?|[_ ?]].
Qed.

Lemma reports_foldl es : forall subs m c,
  c ∈ reports (foldl hire subs es) m <->
  c ∈ reports subs m \/
  exists e, e ∈ es /\ id e = c /\ manager_id e = Some m.
Proof.
  induction es as [|emp es IH]; intros subs m c; cbn [foldl].
  - split; [by left|]. intros [?|(e & He & _)]; [done|]. by inversion He.
  - rewrite IH, reports_hire. split.
    + intros [[?|[? ?]]|(e & He & ?)]; [by left| |].
      * right. exists emp. split; [by left|done].
      * right. exists e. split; [by right|done].
    + intros [?|(e & He & Hid & Hm)]; [by left; left|].
      apply elem_of_cons in He as [->|He]; [by left; right|].
      right. by exists e.
Qed.

Lemma reports_subordinates es m c :
  c ∈ reports (subordinates es) m <->
  exists e, e ∈ es /\ id e = c /\ manager_id e = Some m.
Proof.
  unfold subordinates. fold hire. rewrite reports_foldl.
  unfold reports at 1. rewrite lookup_empty. cbn [default from_option Datatypes.id]. split; [|by right].
  intros [Hno|?]; [|done]. by inversion Hno.
Qed.

Lemma one_record es e e' :
  NoDup (map id es) -> e ∈ es -> e' ∈ es -> id e = id e' -> e = e'.
Proof.
  induction es as [|x es IH]; intros Hnd He He' Hid; [by inversion He|].
  cbn in Hnd. apply NoDup_cons in Hnd as [Hx Hnd].
  apply elem_of_cons in He as [->|He]; apply elem_of_cons in He' as [->|He'].
  - done.
  - exfalso. apply Hx. rewrite Hid. apply list_elem_of_fmap. by exists e'.
  - exfalso. apply Hx. rewrite <- Hid. apply list_elem_of_fmap. by exists e.
  - by apply IH.
Qed.

Lemma level_fun es x k k' :
  NoDup (map id es) -> level es x k -> level es x k' -> k = k'.
Proof.
  intros Hnd Hk. revert k'.
  induction Hk as [e He Htop | e m k He Hm Hk IH]; intros k' Hk'.
  - inversion Hk' as [e' He' Htop' Hid | e' m' j He' Hm' Hj Hid]; [done|].
    assert (e' = e) as -> by (by eapply one_record). congruence.
  - inversion Hk' as [e' He' Htop' Hid | e' m' j He' Hm' Hj Hid].
    + assert (e' = e) as -> by (by eapply one_record). congruence.
    + assert (e' = e) as -> by (by eapply one_record).
      assert (m' = m) as -> by congruence. f_equal. by apply IH.
Qed.

(** an employee at level [k] and the managers above are [k + 1]
    different employees *)
Lemma level_line es x k :
  NoDup (map id es) -> level es x k ->
  exists line,
    NoDup line /\ length line = S k /\
    forall y, y ∈ line -> y ∈ map id es /\ exists j, j <= k /\ level es y j.
Proof.
  intros Hnd.
  induction 1 as [e He Htop | e m k He Hm Hk (line & Hl & Hlen & Hall)].
  - exists [id e]. split; [apply NoDup_singleton|]. split; [done|].
    intros y ->%list_elem_of_singleton. split.
    + apply list_elem_of_fmap. by exists e.
    + exists 0. split; [done|]. by constructor.
  - exists (id e :: line). split; [|split; [cbn; lia|]].
    + apply NoDup_cons. split; [|done]. intros Hin.
      destruct (Hall _ Hin) as (_ & j & Hj & Hlev).
      assert (j = S k)
        by (eapply level_fun; [done|exact Hlev|]; by econstructor).
      lia.
    + intros y [->|Hy]%elem_of_cons.
      * split; [apply list_elem_of_fmap; by exists e|].
        exists (S k). split; [done|]. by econstructor.
      * destruct (Hall _ Hy) as (Hid & j & Hj & Hlev). split; [done|].
        exists j. split; [lia|done].
Qed.

Lemma level_bound es x k :
  NoDup (map id es) -> level es x k -> k < length es.
Proof.
  intros Hnd Hk.
  destruct (level_line es x k Hnd Hk) as (line & Hl & Hlen & Hall).
  assert (line ⊆+ map id es) as Hsub.
  { apply NoDup_submseteq; [done|]. intros y Hy. by apply Hall. }
  apply submseteq_length in Hsub. rewrite length_map in Hsub. lia.
Qed.

Lemma sum_is_some (g : Z -> option Q) l : forall init,
  is_Some init -> (forall c, c ∈ l -> is_Some (g c)) ->
  is_Some (foldl (fun total c =>
                    match total, g c with
                    | Some t, Some s => Some (t + s)%Q
                    | _, _ => None
                    end) init l).
Proof.
  induction l as [|c l IH]; intros init Hinit Hall; [done|].
  cbn [foldl]. apply IH.
  - destruct Hinit as [t ->]. destruct (Hall c) as [s ->]; [by left|]. done.
  - intros c' Hc'. apply Hall. by right.
Qed.

Lemma total_salary_returns es depth : forall x k,
  NoDup (map id es) -> level es x k -> length es <= k + depth ->
  is_Some (total_salary (subordinates es) (salary_map es) depth x).
Proof.
  induction depth as [|depth IH]; intros x k Hnd Hk Hlen.
  - pose proof (level_bound es x k Hnd Hk). lia.
  - cbn [total_salary]. apply sum_is_some; [done|].
    intros c Hc. apply reports_subordinates in Hc as (e & He & <- & Hm).
    apply (IH (id e) (S k)); [done| |lia]. by econstructor.
Qed.

Lemma salary_map_foldl es : forall (m : gmap Z Q) i,
  i ∉ map id es ->
  foldl (fun m emp => <[id emp := salary emp]> m) m es !! i = m !! i.
Proof.
  induction es as [|e es IH]; intros m i Hi; [done|].
  cbn [foldl]. cbn in Hi. apply not_elem_of_cons in Hi as [Hne Hi].
  rewrite IH by done. by rewrite lookup_insert_ne.
Qed.

Lemma salary_map_lookup es e :
  NoDup (map id es) -> e ∈ es -> salary_map es !! id e = Some (salary e).
Proof.
  unfold salary_map. generalize (∅ : gmap Z Q).
  induction es as [|x es IH]; intros m Hnd He; [by inversion He|].
  cbn in Hnd. apply NoDup_cons in Hnd as [Hx Hnd]. cbn [foldl].
  apply elem_of_cons in He as [->|He].
  - rewrite salary_map_foldl by done. by rewrite lookup_insert_eq.
  - by apply IH.
Qed.

Lemma pay_none es depth l : foldl (pay es depth) None l = None.
Proof.
  induction l as [|x l IH]; [done|]. cbn [foldl]. unfold pay at 2.
  by destruct (manager_id x).
Qed.

(** what the comprehension has built: the total of every top-level
    manager met, under its id; the other keys as before *)
Lemma pay_all es depth l : forall m r,
  foldl (pay es depth) (Some m) l = Some r ->
  (forall e, e ∈ l -> manager_id e = None ->
             r !! id e
             = total_salary (subordinates es) (salary_map es) depth (id e)) /\
  (forall i, ~ Exists (top_level i) l -> r !! i = m !! i).
Proof.
  induction l as [|x l IH]; intros m r; cbn [foldl].
  - intros [= <-]. split; [intros e He; by inversion He|done].
  - unfold pay at 2. destruct (manager_id x) as [mgr|] eqn:Hx.
    + intros Hr. destruct (IH _ _ Hr) as [Hval Hrest]. split.
      * intros e [->|He]%elem_of_cons Htop; [congruence|by apply Hval].
      * intros i Hno. apply Hrest. intros Hex. apply Hno. by right.
    + destruct (total_salary _ _ depth (id x)) as [t|] eqn:Ht;
        [|by rewrite pay_none].
      intros Hr. destruct (IH _ _ Hr) as [Hval Hrest]. split.
      * intros e [->|He]%elem_of_cons Htop; [|by apply Hval].
        destruct (decide (Exists (top_level (id x)) l)) as [Hex|Hno].
        -- apply Exists_exists in Hex as (e' & He' & Hid & Htop').
           rewrite <- Hid. rewrite (Hval e' He' Htop'). by rewrite Hid.
        -- rewrite (Hrest _ Hno), Ht. by rewrite lookup_insert_eq.
      * intros i Hno. rewrite Hrest by (intros Hex; apply Hno; by right).
        apply lookup_insert_ne. intros Hid. apply Hno. by left.
Qed.

(** X22.  With no id used twice, [calculate_team_salaries] returns at
    any recursion depth above the number of employees.  Its keys are the
    ids of the top-level managers and no others, and a top-level manager
    nobody reports to is given their own salary. *)
Theorem team_salaries_of_distinct_employees
  (employees : list employee) (depth : nat) :
  NoDup (map id employees) ->
  length employees < depth ->
  exists r,
    calculate_team_salaries depth employees = Some r /\
    (forall i, is_Some (r !! i) <-> Exists (top_level i) employees) /\
    (forall e, e ∈ employees -> manager_id e = None ->
               (forall e', e' ∈ employees -> manager_id e' <> Some (id e)) ->
               r !! id e = Some (salary e)).
Proof.
  intros Hnd Hdepth.
  assert (forall e, e ∈ employees -> manager_id e = None ->
            is_Some (total_salary (subordinates employees)
                       (salary_map employees) depth (id e))) as Htotal.
  { intros e He Htop. apply (total_salary_returns employees depth (id e) 0);
      [done|by constructor|lia]. }
  assert (forall l m, l ⊆ employees ->
            is_Some (foldl (pay employees depth) (Some m) l)) as Hsome.
  { induction l as [|x l IHl]; intros m Hl; [done|]. cbn [foldl].
    unfold pay at 2. destruct (manager_id x) eqn:Hx.
    - apply IHl. intros e He. apply Hl. by right.
    - destruct (Htotal x) as [t ->]; [apply Hl; by left|done|].
      apply IHl. intros e He. apply Hl. by right. }
  destruct (Hsome employees ∅) as [r Hr]; [done|].
  exists r. split; [exact Hr|].
  destruct (pay_all _ _ _ _ _ Hr) as [Hval Hrest]. split.
  - intros i. split.
    + intros Hi. destruct (decide (Exists (top_level i) employees)); [done|].
      rewrite Hrest, lookup_empty in Hi by done. by destruct Hi.
    + intros (e & He & <- & Htop)%Exists_exists.
      rewrite (Hval e He Htop). by apply Htotal.
  - intros e He Htop Hleaf. rewrite (Hval e He Htop).
    destruct depth as [|depth']; [lia|]. cbn [total_salary].
    rewrite (salary_map_lookup _ _ Hnd He). cbn [default from_option Datatypes.id].
    destruct (default [] (subordinates employees !! id e)) as [|c cs] eqn:Hc;
      [done|].
    assert (c ∈ reports (subordinates employees) (id e)) as Hin
      by (unfold reports; rewrite Hc; by left).
    apply reports_subordinates in Hin as (e' & He' & _ & Hm).
    by apply Hleaf in Hm.
Qed.

Lemma sum_is_none (g : Z -> option Q) l c :
  c ∈ l -> g c = None -> forall init,
  foldl (fun total c =>
           match total, g c with
           | Some t, Some s => Some (t + s)%Q
           | _, _ => None
           end) init l = None.
Proof.
  intros Hc Hg. induction l as [|x l IH]; intros init; [by inversion Hc|].
  cbn [foldl]. apply elem_of_cons in Hc as [<-|Hc].
  - rewrite Hg.
    assert (forall rest, foldl
      (fun total c0 => match total, g c0 with
                       | Some t, Some s => Some (t + s)%Q
                       | _, _ => None
                       end) None rest = None) as Hnone
      by (induction rest as [|y rest IHrest]; [done|exact IHrest]).
    destruct init; apply Hnone.
  - by apply IH.
Qed.

(** X23.  Ids used twice can exhaust any recursion depth: when an
    employee is listed as their own manager and an employee with the same
    id is listed as top-level, [calculate_team_salaries] raises
    [RecursionError] whatever depth is left. *)
Theorem repeated_id_exhausts_the_recursion
  (employees : list employee) (top self : employee) (depth : nat) :
  top ∈ employees -> manager_id top = None ->
  self ∈ employees -> manager_id self = Some (id self) ->
  id self = id top ->
  calculate_team_salaries depth employees = None.
Proof.
  intros Htop Hnone Hself Hloop Hid.
  assert (forall d, total_salary (subordinates employees)
                      (salary_map employees) d (id top) = None) as Hdeep.
  { induction d as [|d IH]; [done|]. cbn [total_salary].
    apply (sum_is_none _ _ (id top)); [|exact IH].
    change (id top ∈ reports (subordinates employees) (id top)).
    apply reports_subordinates. exists self. by rewrite <- Hid. }
  unfold calculate_team_salaries. fold (pay employees depth).
  generalize (Some (∅ : gmap Z Q)) as acc.
  assert (forall l acc, top ∈ l -> foldl (pay employees depth) acc l = None)
    as Hany; [|intros acc; by apply Hany].
  induction l as [|x l IHl]; intros acc Hin; [by inversion Hin|].
  cbn [foldl]. apply elem_of_cons in Hin as [<-|Hin]; [|by apply IHl].
  unfold pay at 2. rewrite Hnone, Hdeep.
  destruct acc; apply pay_none.
Qed.

End TeamSalaries.

Lemma team_salaries_of_distinct_employees_witness :
  let es := [Salaries.mkEmployee 1 None 1000;
             Salaries.mkEmployee 2 (Some 1%Z) 800;
             Salaries.mkEmployee 7 None 1200] in
  exists r,
    Salaries.calculate_team_salaries 4 es = Some r /\
    r !! 7%Z = Some 1200%Q.
Proof.
  intros es.
  destruct (team_salaries_of_distinct_employees es 4)
    as (r & Hr & _ & Hleaf).
  - subst es. cbn [map Salaries.id]. apply (bool_decide_unpack _).
    vm_compute. exact I.
  - cbn. lia.
  - exists r. split; [exact Hr|].
    apply (Hleaf (Salaries.mkEmployee 7 None 1200)).
    + right. right. left.
    + reflexivity.
    + intros e' He'. repeat (apply elem_of_cons in He' as [->|He']);
        [discriminate..|by inversion He'].
Defined.

Lemma repeated_id_exhausts_the_recursion_witness :
  Salaries.calculate_team_salaries 1000
    [Salaries.mkEmployee 1 None 1000; Salaries.mkEmployee 1 (Some 1%Z) 800]
  = None.
Proof.
  apply (repeated_id_exhausts_the_recursion _
           (Salaries.mkEmployee 1 None 1000)
           (Salaries.mkEmployee 1 (Some 1%Z) 800));
    [left|reflexivity|right; left|reflexivity|reflexivity].
Defined.

(** * A walk that fails *)

Section FailedWalk.

Context `{Python}.
Variables E E' : Env.

Lemma walk_after_turns n : forall m acc0 u0 w0 acc u w1,
  turns E n acc0 u0 w0 = Some (acc, u, w1) ->
  walk E (n + m) acc0 u0 w0 = walk E m acc u w1.
Proof.
  induction n as [|n IH]; intros m acc0 u0 w0 acc u w1; cbn [turns].
  - by intros [= <- <- <-].
  - destruct (Py.truthy u0) eqn:Hu0; [|done].
    destruct (walk_turn E acc0 u0 w0) as [[[acc1 u1]|e] w'] eqn:Hturn; [|done].
    intros Hrest. cbn [Nat.add walk]. rewrite Hu0, Hturn. by apply IH.
Qed.

(** turns taken once under [E] are taken again under [E'], in any later
    world, without leaving the process *)
Lemma turns_again n : forall acc u w acc' u' w',
  turns E n acc u w = Some (acc', u', w') ->
  exists more,
    acc' = acc ++ more /\
    forall w2 acc2,
      keeps w' w2 ->
      exists w2',
        turns E' n acc2 u w2 = Some (acc2 ++ more, u', w2') /\
        inproc w2' = inproc w2 /\ redis w2' = redis w2 /\
        exists l, log w2' = log w2 ++ l /\ filter is_io l = [].
Proof.
  induction n as [|n IH]; intros acc u w acc' u' w'; cbn [turns].
  - intros [= <- <- <-]. exists []. split; [by rewrite app_nil_r|].
    intros w2 acc2 _. exists w2. rewrite app_nil_r. split; [done|].
    split; [done|]. split; [done|]. exists []. by rewrite app_nil_r.
  - destruct (Py.truthy u) eqn:Hu; [|done].
    destruct (walk_turn E acc u w) as [[[acc1 u1]|e] w1] eqn:Hturn; [|done].
    intros Hrest.
    apply walk_turn_ok in Hturn as (page & items & Hget & Hdigest & ->).
    destruct (IH _ _ _ _ _ _ Hrest) as (more & -> & Hagain).
    exists (items ++ more). split; [by rewrite app_assoc|].
    intros w2 acc2 Hkeeps.
    assert (inproc w2 !! page_key u = Some page) as Hhit.
    { apply Hkeeps. eapply turns_keeps; [exact Hrest|].
      by eapply cached_get_stores. }
    rewrite walk_turn_digest, (cached_get_hit E' _ _ _ _ _ Hhit), Hdigest.
    destruct (Hagain (emit (ECachedGet (page_key u) u) w2) (acc2 ++ items))
      as (w2' & Hgo & Hin & Hre & l & Hlog & Hquiet); [exact Hkeeps|].
    exists w2'. rewrite app_assoc. split; [done|]. split; [done|].
    split; [done|]. exists (ECachedGet (page_key u) u :: l). split.
    + rewrite Hlog. cbn [emit log]. by rewrite <- app_assoc.
    + by rewrite filter_cons_False by (cbn; auto).
Qed.

(** X24.  The walk gives no partial result: when a turn raises after
    [n] pages were taken, [fetch_vehicles_paginated] raises that
    exception and the items gathered so far are dropped.  The pages taken
    stay in the process-local tier: a walk started again later takes the
    same [n] turns without a connection, a shared-cache round trip or a
    fetch, whatever the servers then answer, and is back at the page
    that failed. *)
Theorem failed_walk_resumes_at_the_failed_page
  (w : World) (url : JSON) (n fuel : nat)
  (acc : list JSON) (u : JSON) (w1 : World) (e : exn) (w2 : World) :
  turns E n [] url w = Some (acc, u, w1) ->
  Py.truthy u = true ->
  walk_turn E acc u w1 = (Raise e, w2) ->
  n < fuel ->
  fetch_vehicles_paginated E fuel url w = Some (Raise e, w2) /\
  forall w3,
    keeps w2 w3 ->
    exists w4,
      turns E' n [] url w3 = Some (acc, u, w4) /\
      filter is_io (added w3 w4) = [] /\
      inproc w4 = inproc w3 /\ redis w4 = redis w3.
Proof.
  intros Hturns Hu Hfail Hfuel. split.
  - unfold fetch_vehicles_paginated.
    replace fuel with (n + S (fuel - S n)) by lia.
    rewrite (walk_after_turns _ _ _ _ _ _ _ _ Hturns).
    cbn [walk]. by rewrite Hu, Hfail.
  - intros w3 Hkeeps.
    destruct (turns_again _ _ _ _ _ _ _ Hturns) as (more & Hacc & Hagain).
    cbn [app] in Hacc. subst more.
    destruct (Hagain w3 []) as (w4 & Hgo & Hin & Hre & l & Hlog & Hquiet).
    { eapply keeps_trans; [|exact Hkeeps].
      rewrite walk_turn_unfold in Hfail.
      destruct (cached_get E (page_key u) u 3600 w1) as [[page|e0] w0] eqn:Hget.
      - apply cached_get_keeps in Hget.
        destruct (Py.get page "results" (JArr [])) as [pr|];
          [|inversion Hfail; by subst].
        destruct (Py.iter pr); [|inversion Hfail; by subst].
        destruct (Py.get page "next" JNull); inversion Hfail; by subst.
      - apply cached_get_keeps in Hget. inversion Hfail; by subst. }
    exists w4. split; [exact Hgo|]. split; [|done].
    by rewrite (added_app _ _ _ Hlog).
Qed.

(** X25.  Pages that are not what the walker expects.  A page that is
    not an object raises [AttributeError]; [results] given as null, a
    number or a boolean raises [TypeError]; [results] given as a string is
    taken character by character. *)
Theorem walker_malformed_pages
  (acc : list JSON) (u : JSON) (w : World) (page : JSON) (w1 : World) :
  cached_get E (page_key u) u 3600 w = (Ok page, w1) ->
  (match page with JObj _ => False | _ => True end ->
   walk_turn E acc u w = (Raise AttributeError, w1)) /\
  (forall fields v,
      page = JObj fields -> Py.assoc "results" fields = Some v ->
      match v with JNull | JNum _ | JBool _ => True | _ => False end ->
      walk_turn E acc u w = (Raise TypeError, w1)) /\
  (forall fields s,
      page = JObj fields -> Py.assoc "results" fields = Some (JStr s) ->
      walk_turn E acc u w
      = (Ok (acc ++ Py.chars s,
             match Py.assoc "next" fields with Some v => v | None => JNull end),
         w1)).
Proof.
  intros Hget. rewrite walk_turn_unfold, Hget. split; [|split].
  - by destruct page.
  - intros fields v -> Hv Hkind. cbn [Py.get]. rewrite Hv. by destruct v.
  - intros fields s -> Hs. cbn [Py.get]. by rewrite Hs.
Qed.

End FailedWalk.

Lemma failed_walk_resumes_at_the_failed_page_witness :
  let u1 := JStr "https://swapi.example/api/vehicles" in
  let u2 := JStr "https://swapi.example/api/vehicles?page=2" in
  let E := Demo.calm [("https://swapi.example/api/vehicles",
                       Demo.page [Demo.speeder] u2)] 0 in
  let w1 := snd (cached_get (H := Demo.python) E
                   (page_key (H := Demo.python) u1) u1 3600 Demo.cold) in
  let w2 := snd (cached_get (H := Demo.python) E
                   (page_key (H := Demo.python) u2) u2 3600 w1) in
  fetch_vehicles_paginated (H := Demo.python) E 5 u1 Demo.cold
  = Some (Raise (ClientResponseError 404), w2) /\
  exists w4,
    turns (H := Demo.python) E 1 [] u1 w2 = Some ([Demo.speeder], u2, w4) /\
    filter is_io (added w2 w4) = [].
Proof.
  intros u1 u2 E w1 w2.
  destruct (failed_walk_resumes_at_the_failed_page (H := Demo.python) E E
              Demo.cold u1 1 5 [Demo.speeder] u2 w1
              (ClientResponseError 404) w2)
    as [Hraise Hretry]; [reflexivity|reflexivity|reflexivity|lia|].
  split; [exact Hraise|].
  destruct (Hretry w2) as (w4 & Hgo & Hquiet & _); [by intros k v|].
  exists w4. split; [exact Hgo|exact Hquiet].
Defined.

Lemma walker_malformed_pages_witness :
  let u := JStr "https://swapi.example/api/vehicles" in
  let E := Demo.calm [("https://swapi.example/api/vehicles", JArr [JNum 1])]
             0 in
  fst (walk_turn (H := Demo.python) E [] u Demo.cold) = Raise AttributeError.
Proof.
  intros u E.
  pose (w1 := snd (cached_get (H := Demo.python) E
                     (page_key (H := Demo.python) u) u 3600 Demo.cold)).
  rewrite (proj1 (walker_malformed_pages (H := Demo.python) E [] u Demo.cold
                    (JArr [JNum 1]) w1 eq_refl) I).
  reflexivity.
Defined.

(** * The character search without species data *)

Lemma names_of_nothing urls names :
  names_of [] urls = Ok names -> existsb is_droid names = false.
Proof.
  revert names. induction urls as [|u urls IH]; intros names.
  - by intros [= <-].
  - cbn [names_of]. unfold Dict.get. destruct (Dict.hashable u); [|done].
    cbn [Dict.find]. destruct (names_of [] urls) as [rest|]; [|done].
    intros [= <-]. cbn. by apply IH.
Qed.

Lemma valid_char_without_species sm fm char v x0 :
  valid_char sm fm char = Done (Some v) ->
  valid_char [] fm char = Done x0 ->
  exists v0, x0 = Some v0 /\ entry_name v0 = entry_name v.
Proof.
  unfold valid_char.
  destruct (truthy_items char "species") as [su|]; [|done].
  destruct (truthy_items char "films") as [fu|]; [|done].
  destruct (names_of sm su) as [names|]; [|done].
  destruct (names_of [] su) as [names0|] eqn:Hnames0; [|done].
  destruct (names_of fm fu) as [titles|]; [|done].
  rewrite (names_of_nothing _ _ Hnames0).
  destruct (existsb is_droid names); [done|].
  destruct (2 <=? length titles)%nat; [|done].
  destruct (item char "name") as [name|]; [|done].
  destruct (Py.get char "edited" JNull) as [edited|]; [|done].
  intros [= <-] [= <-]. by eexists.
Qed.

Lemma valid_chars_without_species sm fm chars : forall vs vs0,
  valid_chars sm fm chars = Done vs ->
  valid_chars [] fm chars = Done vs0 ->
  sublist (map entry_name vs) (map entry_name vs0).
Proof.
  induction chars as [|char chars IH]; intros vs vs0.
  - by intros [= <-] [= <-].
  - cbn [valid_chars].
    destruct (valid_char sm fm char) as [x|] eqn:Hx; [|done].
    destruct (valid_chars sm fm chars) as [rest|]; [|done].
    destruct (valid_char [] fm char) as [x0|] eqn:Hx0; [|done].
    destruct (valid_chars [] fm chars) as [rest0|]; [|done].
    intros [= <-] [= <-]. specialize (IH rest rest0 eq_refl eq_refl).
    destruct x as [v|].
    + destruct (valid_char_without_species _ _ _ _ _ Hx Hx0)
        as (v0 & -> & Hname).
      cbn [map]. rewrite Hname. by apply sublist_skip.
    + destruct x0 as [v0|]; [|done]. cbn [map]. by apply sublist_cons.
Qed.

(** X26.  A species batch that failed only adds to the answer.  The
    characters answered with the species data at hand are answered as
    well, in the same order, when the species data is missing (the call
    raised and [[]] took its place): without it nobody is left out as a
    Droid. *)
Theorem missing_species_data_leaves_nobody_out
  (characters : JSON) (species_data film_data : list JSON)
  (valid : list JSON) (answer0 : JSON) :
  characters_response characters species_data film_data
  = Done (JObj [("characters", JArr valid)]) ->
  characters_response characters [] film_data = Done answer0 ->
  exists valid0,
    answer0 = JObj [("characters", JArr valid0)] /\
    sublist (map entry_name valid) (map entry_name valid0).
Proof.
  unfold characters_response. cbn [name_map].
  destruct (name_map "name" species_data []) as [sm|]; [|done].
  destruct (name_map "title" film_data []) as [fm|]; [|done].
  destruct (Py.iter characters) as [chars|]; [|done].
  destruct (valid_chars sm fm chars) as [vs|] eqn:Hvs; [|done].
  destruct (valid_chars [] fm chars) as [vs0|] eqn:Hvs0; [|done].
  pose proof (valid_chars_without_species _ _ _ _ _ Hvs Hvs0) as Hsub.
  destruct vs as [|v vs]; [done|]. intros [= <-].
  destruct vs0 as [|v0 vs0].
  - apply sublist_nil_r in Hsub. done.
  - intros [= <-]. by eexists.
Qed.

Lemma missing_species_data_leaves_nobody_out_witness :
  let grievous := JObj [("name", JStr "Grievous");
                        ("films", JArr [JStr "film1"; JStr "film2"]);
                        ("species", JArr [JStr "species1"])] in
  let r2 := JObj [("name", JStr "R2-D2");
                  ("films", JArr [JStr "film1"; JStr "film2"]);
                  ("species", JArr [JStr "species2"])] in
  let species := [JObj [("url", JStr "species1"); ("name", JStr "Kaleesh")];
                  JObj [("url", JStr "species2"); ("name", JStr "Droid")]] in
  exists valid valid0,
    characters_response (JArr [grievous; r2]) species []
    = Done (JObj [("characters", JArr valid)]) /\
    characters_response (JArr [grievous; r2]) [] []
    = Done (JObj [("characters", JArr valid0)]) /\
    map entry_name valid = [JStr "Grievous"] /\
    map entry_name valid0 = [JStr "Grievous"; JStr "R2-D2"] /\
    sublist (map entry_name valid) (map entry_name valid0).
Proof.
  intros grievous r2 species.
  eexists. eexists. split; [reflexivity|]. split; [reflexivity|].
  split; [reflexivity|]. split; [reflexivity|].
  destruct (missing_species_data_leaves_nobody_out (JArr [grievous; r2])
              species [] _ _ eq_refl eq_refl) as (valid0 & Heq & Hsub).
  injection Heq as <-. exact Hsub.
Defined.
